(** * JSON value library of the transport catalogue: a shallow embedding

    The development follows [json.h], [json.cpp] and [json_builder.cpp]:
    the [Node] variant, the recursive-descent reader ([Load]), the indented
    writer ([Print]) and the stack-based [Builder].

    Conventions of the embedding:
    - a [std::istream] is the text that is still unread (a [string]); an
      exception is a result constructor carrying the message;
    - a [std::ostream] is the text written to it;
    - [int] is a [Z] kept inside the 32-bit range by [stoi];
    - [double] is an IEEE-754 binary64 value ([spec_float], precision 53);
    - [std::map<std::string, Node>] is an association list kept sorted by
      key, so that iteration follows the key order as in the source;
    - the conversions of the standard library follow their documented
      behaviour: [std::stoi] is [strtol] with the range check of [int],
      [std::stod] the correctly rounded conversion that throws on a range
      error, and the insertion of a double into a stream the [%g]
      conversion with six significant digits. *)

From Stdlib Require Import Bool Arith NArith ZArith Lia List Ascii String.
From Stdlib Require Import SpecFloat Decimal DecimalString DecimalFacts DecimalPos DecimalN DecimalZ.
Import ListNotations.

Local Open Scope string_scope.
Local Open Scope Z_scope.

(** ** Characters of the C locale *)

Module Ctype.

Definition code (c : ascii) : N := N_of_ascii c.

(** [std::isdigit] *)
Definition isdigit (c : ascii) : bool :=
  (N.leb 48 (code c) && N.leb (code c) 57)%bool.

(** [std::isalpha] *)
Definition isalpha (c : ascii) : bool :=
  ((N.leb 65 (code c) && N.leb (code c) 90)
   || (N.leb 97 (code c) && N.leb (code c) 122))%bool.

(** [std::isspace]: space, and the controls from horizontal tab to
    carriage return *)
Definition isspace (c : ascii) : bool :=
  (N.eqb (code c) 32 || (N.leb 9 (code c) && N.leb (code c) 13))%bool.

Definition digit_value (c : ascii) : Z := Z.of_N (code c) - 48.

Definition LF : ascii := "010".
Definition CR : ascii := "013".
Definition TAB : ascii := "009".
Definition QUOTE : ascii := "034".
Definition BACKSLASH : ascii := "\".

End Ctype.
Import Ctype.

(** The one-character string *)
Definition chr (c : ascii) : string := String c EmptyString.

(** ** Outcome of an operation that may throw *)

Inductive result (A : Type) : Type :=
| Ok (a : A)
| Throw (msg : string)
| OutOfFuel.
Arguments Ok {A} a.
Arguments Throw {A} msg.
Arguments OutOfFuel {A}.

Definition bind {A B : Type} (r : result A) (k : A -> result B) : result B :=
  match r with
  | Ok a => k a
  | Throw msg => Throw msg
  | OutOfFuel => OutOfFuel
  end.

Notation "x <- r ;; k" := (bind r (fun x => k))
  (at level 61, r at next level, right associativity).
Notation "' p <- r ;; k" := (bind r (fun x => let 'p := x in k))
  (at level 61, p pattern, r at next level, right associativity).

(** ** The value model ([json.h]) *)

(** [std::variant<std::nullptr_t, Array, Dict, bool, int, double, std::string>],
    the alternatives in the order of the declaration. *)
#[local] Unset Elimination Schemes.
Inductive Node : Type :=
| Null
| Arr (a : list Node)
| Dict (d : list (string * Node))
| Bool (b : bool)
| Int (i : Z)
| Double (x : spec_float)
| Str (s : string).
#[local] Set Elimination Schemes.

Definition Array := list Node.
Definition DictT := list (string * Node).

Definition INT_MIN : Z := - 2 ^ 31.
Definition INT_MAX : Z := 2 ^ 31 - 1.
Definition in_int_range (z : Z) : bool := (INT_MIN <=? z) && (z <=? INT_MAX).

Definition prec : Z := 53.
Definition emax : Z := 1024.

Module NodeOps.

Definition IsInt (n : Node) : bool := match n with Int _ => true | _ => false end.
Definition IsPureDouble (n : Node) : bool := match n with Double _ => true | _ => false end.
Definition IsDouble (n : Node) : bool := IsInt n || IsPureDouble n.
Definition IsBool (n : Node) : bool := match n with Bool _ => true | _ => false end.
Definition IsNull (n : Node) : bool := match n with Null => true | _ => false end.
Definition IsArray (n : Node) : bool := match n with Arr _ => true | _ => false end.
Definition IsString (n : Node) : bool := match n with Str _ => true | _ => false end.
Definition IsDict (n : Node) : bool := match n with Dict _ => true | _ => false end.

(** [operator==]: the same alternative and equal payloads; doubles compare
    as IEEE values. *)
Fixpoint Node_eqb (x y : Node) {struct x} : bool :=
  match x, y with
  | Null, Null => true
  | Arr a, Arr b =>
      (fix all2 (a b : list Node) {struct a} : bool :=
         match a, b with
         | [], [] => true
         | u :: a', v :: b' => Node_eqb u v && all2 a' b'
         | _, _ => false
         end) a b
  | Dict a, Dict b =>
      (fix all2 (a b : list (string * Node)) {struct a} : bool :=
         match a, b with
         | [], [] => true
         | (k, u) :: a', (l, v) :: b' => String.eqb k l && Node_eqb u v && all2 a' b'
         | _, _ => false
         end) a b
  | Bool a, Bool b => Bool.eqb a b
  | Int a, Int b => Z.eqb a b
  | Double a, Double b => SFeqb a b
  | Str a, Str b => String.eqb a b
  | _, _ => false
  end.

End NodeOps.

(** ** [std::map<std::string, Node>] *)

Module Map.

(** [find] *)
Fixpoint find (key : string) (d : DictT) : option Node :=
  match d with
  | [] => None
  | (k, v) :: d' => if String.eqb key k then Some v else find key d'
  end.

(** The place of a new key in the key order *)
Fixpoint insert_sorted (key : string) (v : Node) (d : DictT) : DictT :=
  match d with
  | [] => [(key, v)]
  | (k, w) :: d' =>
      match String.compare key k with
      | Gt => (k, w) :: insert_sorted key v d'
      | _ => (key, v) :: d
      end
  end.

(** [emplace]: a key that is present keeps its entry; a new key is
    inserted at its place in the key order. *)
Definition emplace (key : string) (v : Node) (d : DictT) : DictT :=
  match find key d with
  | Some _ => d
  | None => insert_sorted key v d
  end.

(** [operator[]]: the map after the access, which inserts a null node
    for a new key. *)
Definition subscript (key : string) (d : DictT) : DictT := emplace key Null d.

(** Keys strictly increasing: every key is below the keys behind it. *)
Fixpoint sorted (d : DictT) : bool :=
  match d with
  | [] => true
  | (k, _) :: d' => forallb (fun kv => String.ltb k (fst kv)) d' && sorted d'
  end.

End Map.

(** ** Numbers: [std::stoi], [std::stod] and stream insertion *)

Module Num.

(** A run of decimal digits: the value read so far, how many digits were
    read, and the text behind them. *)
Fixpoint scan_digits (acc : Z) (n : nat) (s : string) : Z * nat * string :=
  match s with
  | String c rest =>
      if isdigit c then scan_digits (10 * acc + digit_value c) (S n) rest
      else (acc, n, s)
  | EmptyString => (acc, n, s)
  end.

Fixpoint skip_space (s : string) : string :=
  match s with
  | String c rest => if isspace c then skip_space rest else s
  | EmptyString => s
  end.

Definition scan_sign (s : string) : bool * string :=
  match s with
  | String c rest =>
      if Ascii.eqb c "-" then (true, rest)
      else if Ascii.eqb c "+" then (false, rest)
      else (false, s)
  | EmptyString => (false, s)
  end.

(** [std::stoi]: [strtol] in base 10, then the range check of [int].
    [None] stands for [std::invalid_argument] (no digit) and for
    [std::out_of_range]. *)
Definition stoi (str : string) : option Z :=
  let '(neg, s) := scan_sign (skip_space str) in
  let '(v, n, _) := scan_digits 0 0 s in
  match n with
  | O => None
  | S _ =>
      let v := if neg then - v else v in
      if in_int_range v then Some v else None
  end.

(** The binary64 value nearest to [m * 10 ^ e] (ties to even), for [m > 0].
    [strtod] reports a range error, and [std::stod] throws, when the result
    overflows or when it is subnormal or zero and not exact.  A subnormal
    result [m' * 2 ^ e'] arises for negative [e] only and has a negative
    [e'], so that exactness is [m' * 10 ^ (- e) = m * 2 ^ (- e')]. *)
Definition decimal_to_double (neg : bool) (m : positive) (e : Z) : option spec_float :=
  let r :=
    if 0 <=? e then binary_round prec emax neg (m * Z.to_pos (10 ^ e)) 0
    else
      let '(mz, ez, lz) :=
        SFdiv_core_binary prec emax (Zpos m) 0 (10 ^ (- e)) 0 in
      binary_round_aux prec emax neg mz ez lz in
  match r with
  | S754_finite _ m' e' =>
      if (Zpos (digits2_pos m') <? prec)
         && negb (Zpos m' * 10 ^ (- e) =? Zpos m * 2 ^ (- e'))
      then None else Some r
  | _ => None
  end.

(** [std::stod] on decimal text: sign, digits, fraction, exponent. *)
Definition stod (str : string) : option spec_float :=
  let '(neg, s) := scan_sign (skip_space str) in
  let '(mi, ni, s) := scan_digits 0 0 s in
  let '(m, nf, s) :=
    match s with
    | String "." rest => scan_digits mi 0 rest
    | _ => (mi, O, s)
    end in
  let e :=
    match s with
    | String c rest =>
        if Ascii.eqb c "e" || Ascii.eqb c "E" then
          let '(eneg, s') := scan_sign rest in
          let '(ev, en, _) := scan_digits 0 0 s' in
          match en with
          | O => 0
          | S _ => if eneg then - ev else ev
          end
        else 0
    | EmptyString => 0
    end in
  match (ni + nf)%nat with
  | O => None
  | S _ =>
      match m with
      | Zpos p => decimal_to_double neg p (e - Z.of_nat nf)
      | _ => Some (S754_zero neg)
      end
  end.

(** Decimal text of a natural number *)
Definition print_uint (n : Z) : string :=
  NilZero.string_of_uint (N.to_uint (Z.to_N n)).

(** [operator<<(int)] *)
Definition print_int (i : Z) : string :=
  NilZero.string_of_int (Z.to_int i).

Definition round_half_even (a b : Z) : Z :=
  let q := a / b in
  match (2 * (a mod b)) ?= b with
  | Lt => q
  | Gt => q + 1
  | Eq => if Z.even q then q else q + 1
  end.

(** The decimal exponent of [num / den]: the [X] with
    [10 ^ X <= num / den < 10 ^ (X + 1)]. *)
Definition floor_log10 (num den : Z) : Z :=
  if den <=? num
  then Z.of_nat (nb_digits (N.to_uint (Z.to_N (num / den)))) - 1
  else - Z.of_nat (nb_digits (N.to_uint (Z.to_N ((den - 1) / num)))).

Fixpoint strip_zeros (s : string) : string :=
  match s with
  | EmptyString => EmptyString
  | String c r =>
      match strip_zeros r with
      | EmptyString => if Ascii.eqb c "0" then EmptyString else chr c
      | r' => String c r'
      end
  end.

Fixpoint zeros (n : nat) : string :=
  match n with
  | O => EmptyString
  | S n' => String "0" (zeros n')
  end.

Definition with_point (int_part frac : string) : string :=
  match frac with
  | EmptyString => int_part
  | _ => int_part ++ "." ++ frac
  end.

(** The [%g] conversion with the stream's default precision of six
    significant digits, for the positive value [m * 2 ^ e]. *)
Definition format_g (m : positive) (e : Z) : string :=
  let num := if 0 <=? e then Zpos m * 2 ^ e else Zpos m in
  let den := if 0 <=? e then 1 else 2 ^ (- e) in
  let X0 := floor_log10 num den in
  let N0 :=
    if X0 <=? 5 then round_half_even (num * 10 ^ (5 - X0)) den
    else round_half_even num (den * 10 ^ (X0 - 5)) in
  let '(N, X) := if N0 =? 10 ^ 6 then (10 ^ 5, X0 + 1) else (N0, X0) in
  let digits := print_uint N in
  if (X <? -4) || (6 <=? X) then
    with_point (substring 0 1 digits) (strip_zeros (substring 1 5 digits))
    ++ "e" ++ (if X <? 0 then "-" else "+")
    ++ (if Z.abs X <? 10 then "0" else EmptyString) ++ print_uint (Z.abs X)
  else if 0 <=? X then
    with_point (substring 0 (Z.to_nat (X + 1)) digits)
               (strip_zeros (substring (Z.to_nat (X + 1)) (Z.to_nat (5 - X)) digits))
  else
    "0." ++ zeros (Z.to_nat (- X - 1)) ++ strip_zeros digits.

(** [operator<<(double)] with the default format flags *)
Definition print_double (x : spec_float) : string :=
  match x with
  | S754_zero s => (if s then "-" else EmptyString) ++ "0"
  | S754_infinity s => (if s then "-" else EmptyString) ++ "inf"
  | S754_nan => "nan"
  | S754_finite s m e => (if s then "-" else EmptyString) ++ format_g m e
  end.

End Num.

(** ** The reader ([json.cpp]) *)

Module Stream.

(** [input.peek()]; [None] is end of input. *)
Definition peek (input : string) : option ascii :=
  match input with
  | String c _ => Some c
  | EmptyString => None
  end.

Definition peek_is (c : ascii) (input : string) : bool :=
  match input with
  | String c' _ => Ascii.eqb c' c
  | EmptyString => false
  end.

Definition peek_isdigit (input : string) : bool :=
  match input with
  | String c _ => isdigit c
  | EmptyString => false
  end.

(** [input >> c]: skips white space, then extracts one character; [None]
    when the stream ends first. *)
Definition extract (input : string) : option (ascii * string) :=
  match Num.skip_space input with
  | String c rest => Some (c, rest)
  | EmptyString => None
  end.

(** [input.putback(c)] *)
Definition putback (c : ascii) (input : string) : string := String c input.

End Stream.
Import Stream.

Module Parser.

(** [LoadLiteral]: the longest run of letters *)
Fixpoint LoadLiteral (input : string) : string * string :=
  match input with
  | String c rest =>
      if isalpha c then
        let '(s, input') := LoadLiteral rest in (String c s, input')
      else (EmptyString, input)
  | EmptyString => (EmptyString, input)
  end.

(** The loop of [LoadString]: [s] is the text decoded so far, [it] the
    unread input. *)
Fixpoint LoadString_loop (s : string) (it : string) : result (Node * string)%type :=
  match it with
  | EmptyString => Throw "String parsing error"
  | String ch it' =>
      if Ascii.eqb ch QUOTE then Ok (Str s, it')
      else if Ascii.eqb ch BACKSLASH then
        match it' with
        | EmptyString => Throw "String parsing error"
        | String escaped_char it'' =>
            if Ascii.eqb escaped_char "n" then LoadString_loop (s ++ chr LF) it''
            else if Ascii.eqb escaped_char "t" then LoadString_loop (s ++ chr TAB) it''
            else if Ascii.eqb escaped_char "r" then LoadString_loop (s ++ chr CR) it''
            else if Ascii.eqb escaped_char QUOTE then LoadString_loop (s ++ chr QUOTE) it''
            else if Ascii.eqb escaped_char BACKSLASH then LoadString_loop (s ++ chr BACKSLASH) it''
            else Throw ("Unrecognized escape sequence \" ++ chr escaped_char)
        end
      else if Ascii.eqb ch LF || Ascii.eqb ch CR then Throw "Unexpected end of line"
      else LoadString_loop (s ++ chr ch) it'
  end.

Definition LoadString (input : string) : result (Node * string)%type :=
  LoadString_loop EmptyString input.

Definition LoadBool (input : string) : result (Node * string)%type :=
  let '(s, input') := LoadLiteral input in
  if String.eqb s "true" then Ok (Bool true, input')
  else if String.eqb s "false" then Ok (Bool false, input')
  else Throw ("Failed to parse '" ++ s ++ "' as bool").

Definition LoadNull (input : string) : result (Node * string)%type :=
  let '(literal, input') := LoadLiteral input in
  if String.eqb literal "null" then Ok (Null, input')
  else Throw ("Failed to parse '" ++ literal ++ "' as null").

(** The state of [LoadNumber]: the text [parsed_num] and the stream. *)
Definition lexer : Type := (string * string)%type.

Definition read_char (st : lexer) : result lexer :=
  let '(parsed_num, input) := st in
  match input with
  | String c rest => Ok (parsed_num ++ chr c, rest)
  | EmptyString => Throw "Failed to read number from stream"
  end.

Fixpoint read_digits_loop (parsed_num input : string) : lexer :=
  match input with
  | String c rest =>
      if isdigit c then read_digits_loop (parsed_num ++ chr c) rest
      else (parsed_num, input)
  | EmptyString => (parsed_num, input)
  end.

Definition read_digits (st : lexer) : result lexer :=
  let '(parsed_num, input) := st in
  if peek_isdigit input then Ok (read_digits_loop parsed_num input)
  else Throw "A digit is expected".

(** The optional minus sign *)
Definition read_sign (st : lexer) : result lexer :=
  if peek_is "-" (snd st) then read_char st else Ok st.

(** The integer part: a single 0, or one or more digits *)
Definition read_integer_part (st : lexer) : result lexer :=
  if peek_is "0" (snd st) then read_char st else read_digits st.

(** The fraction part; the flag is [is_int]. *)
Definition read_fraction_part (st : lexer) : result (lexer * bool) :=
  if peek_is "." (snd st) then
    st <- read_char st ;; st <- read_digits st ;; Ok (st, false)
  else Ok (st, true).

(** The exponent part *)
Definition read_exponent_part (st : lexer) (is_int : bool) : result (lexer * bool) :=
  if peek_is "e" (snd st) || peek_is "E" (snd st) then
    st <- read_char st ;;
    st <- (if peek_is "+" (snd st) || peek_is "-" (snd st)
           then read_char st else Ok st) ;;
    st <- read_digits st ;; Ok (st, false)
  else Ok (st, is_int).

(** The scanning part of [LoadNumber]: the text of the literal, whether it
    is integer-shaped, and the rest of the stream. *)
Definition lex_number (input : string) : result (string * bool * string)%type :=
  st <- read_sign (EmptyString, input) ;;
  st <- read_integer_part st ;;
  '(st, is_int) <- read_fraction_part st ;;
  '(st, is_int) <- read_exponent_part st is_int ;;
  Ok (fst st, is_int, snd st).

(** The conversion part of [LoadNumber]: [stoi] first for an
    integer-shaped literal, [stod] when that throws or for any other
    literal. *)
Definition convert_number (parsed_num : string) (is_int : bool) : result Node :=
  match (if is_int then Num.stoi parsed_num else None) with
  | Some i => Ok (Int i)
  | None =>
      match Num.stod parsed_num with
      | Some d => Ok (Double d)
      | None => Throw ("Failed to convert " ++ parsed_num ++ " to number")
      end
  end.

Definition LoadNumber (input : string) : result (Node * string)%type :=
  '(parsed_num, is_int, input') <- lex_number input ;;
  v <- convert_number parsed_num is_int ;;
  Ok (v, input').

(** [LoadNode], with the loops of [LoadArray] and [LoadDict]; every call
    and every turn of a loop takes one unit of [fuel]. *)
Fixpoint LoadNode (fuel : nat) (input : string) : result (Node * string)%type :=
  match fuel with
  | O => OutOfFuel
  | S fuel' =>
      match extract input with
      | None => Throw "Unexpected EOF"
      | Some (c, input') =>
          if Ascii.eqb c "[" then LoadArray_loop fuel' [] input'
          else if Ascii.eqb c "{" then LoadDict_loop fuel' [] input'
          else if Ascii.eqb c QUOTE then LoadString input'
          else if Ascii.eqb c "t" || Ascii.eqb c "f" then LoadBool (putback c input')
          else if Ascii.eqb c "n" then LoadNull (putback c input')
          else LoadNumber (putback c input')
      end
  end

with LoadArray_loop (fuel : nat) (elems : Array) (input : string)
  : result (Node * string)%type :=
  match fuel with
  | O => OutOfFuel
  | S fuel' =>
      match extract input with
      | None => Throw "Array parsing error"
      | Some (c, input') =>
          if Ascii.eqb c "]" then Ok (Arr elems, input')
          else
            let input'' := if Ascii.eqb c "," then input' else putback c input' in
            '(node, rest) <- LoadNode fuel' input'' ;;
            LoadArray_loop fuel' (elems ++ [node])%list rest
      end
  end

with LoadDict_loop (fuel : nat) (dict : DictT) (input : string)
  : result (Node * string)%type :=
  match fuel with
  | O => OutOfFuel
  | S fuel' =>
      match extract input with
      | None => Throw "Dictionary parsing error"
      | Some (c, input') =>
          if Ascii.eqb c "}" then Ok (Dict dict, input')
          else if Ascii.eqb c QUOTE then
            '(key_node, input1) <- LoadString input' ;;
            let key := match key_node with Str s => s | _ => EmptyString end in
            match extract input1 with
            | Some (c', input2) =>
                if Ascii.eqb c' ":" then
                  match Map.find key dict with
                  | Some _ => Throw ("Duplicate key '" ++ key ++ "' have been found")
                  | None =>
                      '(node, rest) <- LoadNode fuel' input2 ;;
                      LoadDict_loop fuel' (Map.emplace key node dict) rest
                  end
                else Throw (": is expected but '" ++ chr c' ++ "' has been found")
            | None => Throw (": is expected but '" ++ chr QUOTE ++ "' has been found")
            end
          else if negb (Ascii.eqb c ",") then
            Throw ("',' is expected but '" ++ chr c ++ "' has been found")
          else LoadDict_loop fuel' dict input'
      end
  end.

Definition LoadArray (fuel : nat) (input : string) := LoadArray_loop fuel [] input.
Definition LoadDict (fuel : nat) (input : string) := LoadDict_loop fuel [] input.

(** [Load]: the fuel given is enough for every input
    ([Load_fuel_enough] below). *)
Definition Load (input : string) : result Node :=
  '(root, _) <- LoadNode (2 * String.length input + 1) input ;;
  Ok root.

End Parser.

(** ** The writer ([json.cpp]) *)

Module Printer.

Record PrintContext : Type := {
  indent_step : nat;
  indent : nat
}.

Fixpoint spaces (n : nat) : string :=
  match n with
  | O => EmptyString
  | S n' => String " " (spaces n')
  end.

Definition PrintIndent (ctx : PrintContext) : string := spaces (indent ctx).

Definition Indented (ctx : PrintContext) : PrintContext :=
  {| indent_step := indent_step ctx; indent := indent_step ctx + indent ctx |}.

(** The body of the loop of [PrintString] *)
Fixpoint escape (value : string) : string :=
  match value with
  | EmptyString => EmptyString
  | String c rest =>
      (if Ascii.eqb c CR then "\r"
       else if Ascii.eqb c LF then "\n"
       else if Ascii.eqb c TAB then "\t"
       else if Ascii.eqb c QUOTE || Ascii.eqb c BACKSLASH
            then String BACKSLASH (chr c)
       else chr c) ++ escape rest
  end.

Definition PrintString (value : string) : string :=
  chr QUOTE ++ escape value ++ chr QUOTE.

Definition separator (first : bool) : string :=
  if first then EmptyString else "," ++ chr LF.

(** [PrintNode] with the [PrintValue] specialisations inlined; the two
    inner loops carry the flag [first] of the source. *)
Fixpoint PrintNode (node : Node) (ctx : PrintContext) {struct node} : string :=
  match node with
  | Null => "null"
  | Arr nodes =>
      "[" ++ chr LF
      ++ (fix loop (first : bool) (nodes : list Node) {struct nodes} : string :=
            match nodes with
            | [] => EmptyString
            | node :: nodes' =>
                separator first ++ PrintIndent (Indented ctx)
                ++ PrintNode node (Indented ctx) ++ loop false nodes'
            end) true nodes
      ++ chr LF ++ PrintIndent ctx ++ "]"
  | Dict nodes =>
      "{" ++ chr LF
      ++ (fix loop (first : bool) (nodes : list (string * Node)) {struct nodes} : string :=
            match nodes with
            | [] => EmptyString
            | (key, node) :: nodes' =>
                separator first ++ PrintIndent (Indented ctx)
                ++ PrintString key ++ ": "
                ++ PrintNode node (Indented ctx) ++ loop false nodes'
            end) true nodes
      ++ chr LF ++ PrintIndent ctx ++ "}"
  | Bool value => if value then "true" else "false"
  | Int value => Num.print_int value
  | Double value => Num.print_double value
  | Str value => PrintString value
  end.

(** [Print]: the context [PrintContext{output}] has the default step of
    four and no indentation. *)
Definition Print (root : Node) : string :=
  PrintNode root {| indent_step := 4; indent := 0 |}.

End Printer.

(** ** The builder ([json_builder.cpp]) *)

Module Builder.

#[local] Open Scope list_scope.

(** A [Node*] of [nodes_stack_] is the way from [root_] to the node it
    points to. *)
Inductive step : Type :=
| AtIndex (i : nat)
| AtKey (key : string).

Definition pointer : Type := list step.

(** The outcome of a call: the [std::logic_error] thrown, or [Dangling]
    when a pointer of the stack addresses no node, which no chain of
    calls on a fresh builder leads to ([stack_ok_run] below). *)
Inductive outcome (A : Type) : Type :=
| Done (a : A)
| LogicError (msg : string)
| Dangling.
Arguments Done {A} a.
Arguments LogicError {A} msg.
Arguments Dangling {A}.

Fixpoint deref (root : Node) (p : pointer) : option Node :=
  match p with
  | [] => Some root
  | AtIndex i :: p' =>
      match root with
      | Arr a => match nth_error a i with Some n => deref n p' | None => None end
      | _ => None
      end
  | AtKey key :: p' =>
      match root with
      | Dict d => match Map.find key d with Some n => deref n p' | None => None end
      | _ => None
      end
  end.

Fixpoint set_nth (a : list Node) (i : nat) (f : Node -> Node) : list Node :=
  match a, i with
  | [], _ => []
  | n :: a', O => f n :: a'
  | n :: a', S i' => n :: set_nth a' i' f
  end.

Fixpoint map_at (key : string) (f : Node -> Node) (d : DictT) : DictT :=
  match d with
  | [] => []
  | (k, w) :: d' =>
      if String.eqb key k then (k, f w) :: d' else (k, w) :: map_at key f d'
  end.

(** Writing through a pointer *)
Fixpoint store (root : Node) (p : pointer) (v : Node) : Node :=
  match p with
  | [] => v
  | AtIndex i :: p' =>
      match root with
      | Arr a => Arr (set_nth a i (fun n => store n p' v))
      | _ => root
      end
  | AtKey key :: p' =>
      match root with
      | Dict d => Dict (map_at key (fun n => store n p' v) d)
      | _ => root
      end
  end.

Record Builder : Type := {
  root_ : Node;
  nodes_stack_ : list pointer
}.

(** [Builder::Builder()] *)
Definition create : Builder := {| root_ := Null; nodes_stack_ := [ [] ] |}.

Definition back (stack : list pointer) : option pointer := last (map Some stack) None.
Definition pop_back (stack : list pointer) : list pointer := removelast stack.
Definition push_back (stack : list pointer) (p : pointer) : list pointer := stack ++ [p].

(** [Build]; the moved-from builder is not represented. *)
Definition Build (b : Builder) : outcome Node :=
  match nodes_stack_ b with
  | [] => Done (root_ b)
  | _ :: _ => LogicError "Cannot build JSON - object is not finished"
  end.

(** [GetCurValue], together with the pointer it went through *)
Definition GetCurValue (b : Builder) : outcome (pointer * Node) :=
  match back (nodes_stack_ b) with
  | None => LogicError "Cannot modify - JSON object is already finished"
  | Some p =>
      match deref (root_ b) p with
      | Some v => Done (p, v)
      | None => Dangling
      end
  end.

Definition AddObject (value : Node) (is_single_value : bool) (b : Builder)
  : outcome Builder :=
  match GetCurValue b with
  | Done (p, Arr a) =>
      let root' := store (root_ b) p (Arr (a ++ [value])) in
      Done {| root_ := root';
              nodes_stack_ :=
                if is_single_value then nodes_stack_ b
                else push_back (nodes_stack_ b) (p ++ [AtIndex (List.length a)]) |}
  | Done (p, Null) =>
      Done {| root_ := store (root_ b) p value;
              nodes_stack_ :=
                if is_single_value then pop_back (nodes_stack_ b)
                else nodes_stack_ b |}
  | Done (_, _) => LogicError "Cannot set value - current object is not empty"
  | LogicError msg => LogicError msg
  | Dangling => Dangling
  end.

Definition StartDict (b : Builder) : outcome Builder := AddObject (Dict []) false b.

Definition EndDict (b : Builder) : outcome Builder :=
  match GetCurValue b with
  | Done (_, Dict _) =>
      Done {| root_ := root_ b; nodes_stack_ := pop_back (nodes_stack_ b) |}
  | Done (_, _) => LogicError "Cannot end dict - current value is not a dictionary"
  | LogicError msg => LogicError msg
  | Dangling => Dangling
  end.

Definition StartArray (b : Builder) : outcome Builder := AddObject (Arr []) false b.

Definition EndArray (b : Builder) : outcome Builder :=
  match GetCurValue b with
  | Done (_, Arr _) =>
      Done {| root_ := root_ b; nodes_stack_ := pop_back (nodes_stack_ b) |}
  | Done (_, _) => LogicError "Cannot end array - current value is not an array"
  | LogicError msg => LogicError msg
  | Dangling => Dangling
  end.

(** [Key]: [operator[]] of the map finds the entry of [key] or inserts a
    null one; its address goes on the stack. *)
Definition Key (key : string) (b : Builder) : outcome Builder :=
  match GetCurValue b with
  | Done (p, Dict d) =>
      Done {| root_ := store (root_ b) p (Dict (Map.subscript key d));
              nodes_stack_ := push_back (nodes_stack_ b) (p ++ [AtKey key]) |}
  | Done (_, _) => LogicError "Cannot use Key() - current object is not a dictionary"
  | LogicError msg => LogicError msg
  | Dangling => Dangling
  end.

Definition Value (value : Node) (b : Builder) : outcome Builder :=
  AddObject value true b.

(** Chaining of calls: the first exception ends the chain. *)
Definition andThen {A B : Type} (r : outcome A) (k : A -> outcome B) : outcome B :=
  match r with
  | Done a => k a
  | LogicError msg => LogicError msg
  | Dangling => Dangling
  end.

End Builder.

(** ** Call sequences of the builder *)

Module Calls.
Import Builder.
#[local] Open Scope list_scope.

Inductive call : Type :=
| CallKey (key : string)
| CallValue (value : Node)
| CallStartDict
| CallEndDict
| CallStartArray
| CallEndArray.

Definition perform (c : call) (b : Builder) : outcome Builder :=
  match c with
  | CallKey key => Key key b
  | CallValue value => Value value b
  | CallStartDict => StartDict b
  | CallEndDict => EndDict b
  | CallStartArray => StartArray b
  | CallEndArray => EndArray b
  end.

(** The calls of a chain from left to right, from the builder [b] *)
Fixpoint run (calls : list call) (b : Builder) : outcome Builder :=
  match calls with
  | [] => Done b
  | c :: calls' => andThen (perform c b) (run calls')
  end.

(** The pointers to every node on the way of [p], from the root down *)
Fixpoint prefixes (p : pointer) : list pointer :=
  match p with
  | [] => [ [] ]
  | s :: p' => [] :: map (cons s) (prefixes p')
  end.

(** The stack of a builder: empty once the document is finished, and
    otherwise the chain of pointers from the root down to a node of the
    tree. *)
Definition stack_ok (b : Builder) : Prop :=
  nodes_stack_ b = [] \/
  exists p, nodes_stack_ b = prefixes p /\ deref (root_ b) p <> None.

End Calls.

(** ** The string grammar in the words of the specification *)

Module StringSpec.

(** The one-character form of a recognised escape sequence *)
Definition unescape (e : ascii) : option ascii :=
  if Ascii.eqb e "n" then Some LF
  else if Ascii.eqb e "t" then Some TAB
  else if Ascii.eqb e "r" then Some CR
  else if Ascii.eqb e QUOTE then Some QUOTE
  else if Ascii.eqb e BACKSLASH then Some BACKSLASH
  else None.

(** A character that stands for itself inside a string literal *)
Definition plain (c : ascii) : bool :=
  negb (Ascii.eqb c QUOTE || Ascii.eqb c BACKSLASH
        || Ascii.eqb c LF || Ascii.eqb c CR).

(** The text denoted by the inside of a string literal made of plain
    characters and recognised escape sequences only *)
Fixpoint decode (body : string) : option string :=
  match body with
  | EmptyString => Some EmptyString
  | String c rest =>
      if Ascii.eqb c BACKSLASH then
        match rest with
        | String e rest' =>
            match unescape e, decode rest' with
            | Some c', Some s => Some (String c' s)
            | _, _ => None
            end
        | EmptyString => None
        end
      else if plain c then
        match decode rest with
        | Some s => Some (String c s)
        | None => None
        end
      else None
  end.

End StringSpec.

(** ** JSON text in examples *)

Module Text.

(** The text [s] with every apostrophe replaced by the double quote *)
Fixpoint json_text (s : string) : string :=
  match s with
  | EmptyString => EmptyString
  | String c rest =>
      String (if Ascii.eqb c "'" then QUOTE else c) (json_text rest)
  end.

End Text.

(** ** Numeric literals in the words of the specification *)

Module NumberSpec.

Fixpoint all_digits (s : string) : bool :=
  match s with
  | EmptyString => true
  | String c rest => isdigit c && all_digits rest
  end.

(** A literal has a fraction or an exponent part when a point or the
    letter e occurs in it. *)
Fixpoint has_fraction_or_exponent (text : string) : bool :=
  match text with
  | EmptyString => false
  | String c rest =>
      Ascii.eqb c "." || Ascii.eqb c "e" || Ascii.eqb c "E"
      || has_fraction_or_exponent rest
  end.

(** The integer that an integer-shaped literal denotes *)
Definition literal_value (text : string) : Z :=
  match NilZero.int_of_string text with
  | Some i => Z.of_int i
  | None => 0
  end.

(** The binary64 value nearest to the integer [z] *)
Definition nearest_double (z : Z) : spec_float :=
  binary_normalize prec emax z 0 false.

(** The number that a run of digits denotes, as [strtol] and [strtod]
    accumulate it *)
Definition digits_value (ds : string) : Z :=
  fst (fst (Num.scan_digits 0 0 ds)).

(** The finite binary value [m * 2 ^ e] is the integer [z]. *)
Definition mantissa_is_integer (m : positive) (e z : Z) : Prop :=
  if 0 <=? e then Zpos m * 2 ^ e = z else Zpos m = z * 2 ^ (- e).

End NumberSpec.

(** ** Values that the writer and the reader exchange *)

Module RoundTrip.
Import Printer Parser.

(** The loops of the writer for an array and for a dictionary, by
    themselves *)
Fixpoint PrintArray_items (ctx : PrintContext) (first : bool) (nodes : list Node)
  : string :=
  match nodes with
  | [] => EmptyString
  | node :: nodes' =>
      separator first ++ PrintIndent (Indented ctx)
      ++ PrintNode node (Indented ctx) ++ PrintArray_items ctx false nodes'
  end.

Fixpoint PrintDict_items (ctx : PrintContext) (first : bool)
    (nodes : list (string * Node)) : string :=
  match nodes with
  | [] => EmptyString
  | (key, node) :: nodes' =>
      separator first ++ PrintIndent (Indented ctx)
      ++ PrintString key ++ ": "
      ++ PrintNode node (Indented ctx) ++ PrintDict_items ctx false nodes'
  end.

(** The same binary64 datum *)
Definition SF_same (x y : spec_float) : bool :=
  match x, y with
  | S754_zero a, S754_zero b => Bool.eqb a b
  | S754_infinity a, S754_infinity b => Bool.eqb a b
  | S754_nan, S754_nan => true
  | S754_finite a m e, S754_finite b m' e' =>
      Bool.eqb a b && Pos.eqb m m' && Z.eqb e e'
  | _, _ => false
  end.

(** A value of the C++ type: every [int] within its 32 bits, every map in
    key order without a repeated key. *)
Fixpoint well_formed (v : Node) : bool :=
  match v with
  | Arr a => forallb well_formed a
  | Dict d =>
      Map.sorted d
      && (fix all (d : list (string * Node)) : bool :=
            match d with
            | [] => true
            | (_, n) :: d' => well_formed n && all d'
            end) d
  | Int i => in_int_range i
  | _ => true
  end.

(** The text written for the double [x] reads back as [x]. *)
Definition double_reads_back (x : spec_float) : bool :=
  match LoadNode 1 (Num.print_double x) with
  | Ok (Double y, EmptyString) => SF_same x y
  | _ => false
  end.

(** Every [Double] inside [v] is written as a text that reads back as the
    same [Double]. *)
Fixpoint doubles_read_back (v : Node) : bool :=
  match v with
  | Arr a => forallb doubles_read_back a
  | Dict d =>
      (fix all (d : list (string * Node)) : bool :=
         match d with
         | [] => true
         | (_, n) :: d' => doubles_read_back n && all d'
         end) d
  | Double x => double_reads_back x
  | _ => true
  end.

(** What the writer puts behind a value: nothing, a comma or a line feed *)
Definition value_end (rest : string) : bool :=
  match rest with
  | EmptyString => true
  | String c _ => Ascii.eqb c "," || Ascii.eqb c LF
  end.

(** The round trip of one value, at any depth of indentation and in front
    of any text that the writer puts behind a value *)
Definition reads_back (v : Node) : Prop :=
  forall (ctx : PrintContext) (rest : string) (fuel : nat),
    well_formed v = true -> doubles_read_back v = true ->
    value_end rest = true ->
    (String.length (PrintNode v ctx) <= fuel)%nat ->
    LoadNode fuel (PrintNode v ctx ++ rest) = Ok (v, rest).

End RoundTrip.

(** ** A value spelt out as builder calls *)

Module Chains.
Import Builder Calls.
#[local] Open Scope list_scope.

(** The chain of calls that spells a value out: [Value] for a scalar; for
    a container [StartArray] or [StartDict], its items in their order (each
    entry of a dictionary after the [Key] call of its name) and [EndArray]
    or [EndDict]. *)
Fixpoint calls_of (v : Node) : list call :=
  match v with
  | Arr a =>
      CallStartArray
      :: (fix items (a : list Node) : list call :=
            match a with
            | [] => []
            | n :: a' => calls_of n ++ items a'
            end) a
      ++ [CallEndArray]
  | Dict d =>
      CallStartDict
      :: (fix entries (d : list (string * Node)) : list call :=
            match d with
            | [] => []
            | (k, n) :: d' => CallKey k :: calls_of n ++ entries d'
            end) d
      ++ [CallEndDict]
  | _ => [CallValue v]
  end.

Fixpoint calls_of_items (a : list Node) : list call :=
  match a with
  | [] => []
  | n :: a' => calls_of n ++ calls_of_items a'
  end.

Fixpoint calls_of_entries (d : list (string * Node)) : list call :=
  match d with
  | [] => []
  | (k, n) :: d' => CallKey k :: calls_of n ++ calls_of_entries d'
  end.

(** What the chain of [v] does where a value may be added: behind the
    items of the current array, or in place of the current null node,
    which then leaves the stack. *)
Definition spells (v : Node) : Prop :=
  RoundTrip.well_formed v = true ->
  forall (b : Builder) (p : pointer),
    back (nodes_stack_ b) = Some p ->
    (forall a, deref (root_ b) p = Some (Arr a) ->
       run (calls_of v) b
       = Done {| root_ := store (root_ b) p (Arr (a ++ [v]));
                 nodes_stack_ := nodes_stack_ b |})
    /\ (deref (root_ b) p = Some Null ->
        run (calls_of v) b
        = Done {| root_ := store (root_ b) p v;
                  nodes_stack_ := pop_back (nodes_stack_ b) |}).

(** The value that a call hands to the builder is of the C++ type. *)
Definition passes_value (c : call) : bool :=
  match c with
  | CallValue value => RoundTrip.well_formed value
  | _ => true
  end.

End Chains.

(** ** Properties of texts and of values read *)

Module Texts.

(** A text made of white space only *)
Fixpoint all_space (s : string) : bool :=
  match s with
  | EmptyString => true
  | String c rest => isspace c && all_space rest
  end.

(** No [Double] inside the value is an infinity or a NaN. *)
Fixpoint finite_doubles (v : Node) : bool :=
  match v with
  | Arr a => forallb finite_doubles a
  | Dict d =>
      (fix all (d : list (string * Node)) : bool :=
         match d with
         | [] => true
         | (_, n) :: d' => finite_doubles n && all d'
         end) d
  | Double (S754_infinity _) => false
  | Double S754_nan => false
  | _ => true
  end.

(** The integer part of a number: the digit 0 alone, or digits of which
    the first is not 0 *)
Definition integer_part (ds : string) : bool :=
  match ds with
  | EmptyString => false
  | String c rest =>
      isdigit c && NumberSpec.all_digits rest
      && (negb (Ascii.eqb c "0") || String.eqb rest EmptyString)
  end.

(** [rest] is what is left of [input] behind some text read. *)
Definition left_of (rest input : string) : Prop :=
  exists consumed, input = consumed ++ rest.

(** The text begins with a letter. *)
Definition starts_with_letter (s : string) : bool :=
  match s with
  | String c _ => isalpha c
  | EmptyString => false
  end.

(** The characters that [LoadNode] and [LoadNumber] take for the start
    of a value *)
Definition begins_value (c : ascii) : bool :=
  Ascii.eqb c "[" || Ascii.eqb c "{" || Ascii.eqb c QUOTE
  || Ascii.eqb c "t" || Ascii.eqb c "f" || Ascii.eqb c "n"
  || Ascii.eqb c "-" || isdigit c.

(** The character occurs in the text. *)
Fixpoint occurs (c : ascii) (s : string) : bool :=
  match s with
  | EmptyString => false
  | String c' rest => Ascii.eqb c' c || occurs c rest
  end.


(** A value in order: of the C++ type, and free of infinities and NaN *)
Definition sound (v : Node) : Prop :=
  RoundTrip.well_formed v = true /\ finite_doubles v = true.

End Texts.

(** ** The accessors of [Node] ([json.h]) *)

Module Access.
Import NodeOps.

(** The exceptions met by the callers of the library: the
    [std::logic_error] of an accessor or of the builder with its message,
    the [std::out_of_range] of [std::map::at] and the [std::length_error]
    of [std::vector::reserve]. *)
Inductive exception : Type :=
| logic_error (what : string)
| out_of_range
| length_error.

(** The outcome of a call: a value, an exception, or behaviour that the
    language leaves undefined. *)
Inductive attempt (A : Type) : Type :=
| Returns (a : A)
| Throws (e : exception)
| Undefined.
Arguments Returns {A} a.
Arguments Throws {A} e.
Arguments Undefined {A}.

Definition and_then {A B : Type} (r : attempt A) (k : A -> attempt B) : attempt B :=
  match r with
  | Returns a => k a
  | Throws e => Throws e
  | Undefined => Undefined
  end.

(** The conversion of an [int] to [double] *)
Definition int_to_double (i : Z) : spec_float := binary_normalize prec emax i 0 false.

Definition AsInt (n : Node) : attempt Z :=
  match n with
  | Int i => Returns i
  | _ => Throws (logic_error "Not an int")
  end.

(** [AsDouble]: the double held, or the int held converted to [double] *)
Definition AsDouble (n : Node) : attempt spec_float :=
  if negb (IsDouble n) then Throws (logic_error "Not a double")
  else
    match n with
    | Double x => Returns x
    | _ => and_then (AsInt n) (fun i => Returns (int_to_double i))
    end.

Definition AsBool (n : Node) : attempt bool :=
  match n with
  | Bool b => Returns b
  | _ => Throws (logic_error "Not a bool")
  end.

Definition AsArray (n : Node) : attempt Array :=
  match n with
  | Arr a => Returns a
  | _ => Throws (logic_error "Not an array")
  end.

Definition AsString (n : Node) : attempt string :=
  match n with
  | Str s => Returns s
  | _ => Throws (logic_error "Not a string")
  end.

Definition AsDict (n : Node) : attempt DictT :=
  match n with
  | Dict d => Returns d
  | _ => Throws (logic_error "Not a dict")
  end.

(** [std::map::at] *)
Definition at_ (key : string) (d : DictT) : attempt Node :=
  match Map.find key d with
  | Some n => Returns n
  | None => Throws out_of_range
  end.

(** [operator[]] of a vector: undefined behind its end *)
Definition subscript (a : Array) (i : nat) : attempt Node :=
  match nth_error a i with
  | Some n => Returns n
  | None => Undefined
  end.

(** The outcome of a chain of builder calls, seen by its caller *)
Definition of_outcome {A : Type} (r : Builder.outcome A) : attempt A :=
  match r with
  | Builder.Done a => Returns a
  | Builder.LogicError msg => Throws (logic_error msg)
  | Builder.Dangling => Undefined
  end.

End Access.

Notation "x <-- r ;; k" := (Access.and_then r (fun x => k))
  (at level 61, r at next level, right associativity).

(** ** Colours ([svg.h]) *)

Module Svg.

Module RgbM.
(** The components are [uint16_t]. *)
Record Rgb : Type := { red : Z; green : Z; blue : Z }.
End RgbM.

Module RgbaM.
Record Rgba : Type := { red : Z; green : Z; blue : Z; opacity : spec_float }.
End RgbaM.

(** [std::variant<std::monostate, std::string, Rgb, Rgba>]; [NoneColor]
    holds the first alternative. *)
Inductive Color : Type :=
| NoneColor
| ColorString (color : string)
| ColorRgb (rgb : RgbM.Rgb)
| ColorRgba (rgba : RgbaM.Rgba).

Record Point : Type := { x : spec_float; y : spec_float }.

(** [EscapeText] ([svg.cpp]) *)
Fixpoint EscapeText (text : string) : string :=
  match text with
  | EmptyString => EmptyString
  | String c rest =>
      (if Ascii.eqb c QUOTE then "&quot;"
       else if Ascii.eqb c "'" then "&apos;"
       else if Ascii.eqb c "<" then "&lt;"
       else if Ascii.eqb c ">" then "&gt;"
       else if Ascii.eqb c "&" then "&amp;"
       else chr c) ++ EscapeText rest
  end.

End Svg.

(** ** Requests read from a document ([json_reader.h], [json_reader.cpp]) *)

Module Reader.
Import Access NodeOps Svg.
#[local] Open Scope list_scope.

(** [static_cast<uint8_t>] of an [int] *)
Definition to_uint8 (i : Z) : Z := i mod 2 ^ 8.

(** The conversion of an [int] to [uint32_t] *)
Definition to_uint32 (i : Z) : Z := i mod 2 ^ 32.

(** [GetColorFromNode] *)
Definition GetColorFromNode (node : Node) : attempt Color :=
  if IsString node then
    s <-- AsString node ;; Returns (ColorString s)
  else if IsArray node then
    color_array <-- AsArray node ;;
    if Nat.eqb (List.length color_array) 3 then
      n0 <-- subscript color_array 0 ;; r <-- AsInt n0 ;;
      n1 <-- subscript color_array 1 ;; g <-- AsInt n1 ;;
      n2 <-- subscript color_array 2 ;; b <-- AsInt n2 ;;
      Returns (ColorRgb {| RgbM.red := to_uint8 r; RgbM.green := to_uint8 g;
                           RgbM.blue := to_uint8 b |})
    else if Nat.eqb (List.length color_array) 4 then
      n0 <-- subscript color_array 0 ;; r <-- AsInt n0 ;;
      n1 <-- subscript color_array 1 ;; g <-- AsInt n1 ;;
      n2 <-- subscript color_array 2 ;; b <-- AsInt n2 ;;
      n3 <-- subscript color_array 3 ;; o <-- AsDouble n3 ;;
      Returns (ColorRgba {| RgbaM.red := to_uint8 r; RgbaM.green := to_uint8 g;
                            RgbaM.blue := to_uint8 b; RgbaM.opacity := o |})
    else Returns NoneColor
  else Returns NoneColor.

(** [render::RenderSettings] ([map_renderer.h]) *)
Record RenderSettings : Type := {
  width : spec_float;
  height : spec_float;
  padding : spec_float;
  line_width : spec_float;
  stop_radius : spec_float;
  bus_label_font_size : Z;
  bus_label_offset : Point;
  stop_label_font_size : Z;
  stop_label_offset : Point;
  underlayer_color : Color;
  underlayer_width : spec_float;
  color_palette : list Color
}.

(** The loop of [ParseRenderSettings] over the palette *)
Fixpoint colors_of (color_palette_list : list Node) : attempt (list Color) :=
  match color_palette_list with
  | [] => Returns []
  | node :: rest =>
      c <-- GetColorFromNode node ;;
      cs <-- colors_of rest ;;
      Returns (c :: cs)
  end.

Definition double_at (key : string) (settings : DictT) : attempt spec_float :=
  n <-- at_ key settings ;; AsDouble n.

Definition int_at (key : string) (settings : DictT) : attempt Z :=
  n <-- at_ key settings ;; AsInt n.

(** The two items of an offset, each read through [operator[]] *)
Definition point_at (key : string) (settings : DictT) : attempt Point :=
  n <-- at_ key settings ;;
  arr <-- AsArray n ;;
  a0 <-- subscript arr 0 ;; px <-- AsDouble a0 ;;
  a1 <-- subscript arr 1 ;; py <-- AsDouble a1 ;;
  Returns {| x := px; y := py |}.

(** [ParseRenderSettings] *)
Definition ParseRenderSettings (settings : DictT) : attempt RenderSettings :=
  w <-- double_at "width" settings ;;
  h <-- double_at "height" settings ;;
  p <-- double_at "padding" settings ;;
  lw <-- double_at "line_width" settings ;;
  sr <-- double_at "stop_radius" settings ;;
  bfs <-- int_at "bus_label_font_size" settings ;;
  blo <-- point_at "bus_label_offset" settings ;;
  sfs <-- int_at "stop_label_font_size" settings ;;
  slo <-- point_at "stop_label_offset" settings ;;
  uc <-- (n <-- at_ "underlayer_color" settings ;; GetColorFromNode n) ;;
  uw <-- double_at "underlayer_width" settings ;;
  color_palette_list <-- (n <-- at_ "color_palette" settings ;; AsArray n) ;;
  palette <-- colors_of color_palette_list ;;
  Returns {| width := w; height := h; padding := p;
             line_width := lw; stop_radius := sr;
             bus_label_font_size := to_uint32 bfs; bus_label_offset := blo;
             stop_label_font_size := to_uint32 sfs; stop_label_offset := slo;
             underlayer_color := uc; underlayer_width := uw;
             color_palette := palette |}.

(** [BusDescription] *)
Record BusDescription : Type := {
  name : string;
  stops : list string;
  is_roundtrip : bool
}.

(** The loop over the stops of a bus *)
Fixpoint strings_of (document_stops : list Node) : attempt (list string) :=
  match document_stops with
  | [] => Returns []
  | i :: rest =>
      s <-- AsString i ;;
      ss <-- strings_of rest ;;
      Returns (s :: ss)
  end.

(** [max_size()] of a vector of [std::string_view] where pointers have 64
    bits: [PTRDIFF_MAX] bytes of 16-byte elements *)
Definition max_size : Z := (2 ^ 63 - 1) / 16.

(** [reserve(n)] of an empty vector; [n] is a [size_t].  The exhaustion
    of memory is not represented. *)
Definition reserve (n : Z) : attempt unit :=
  if max_size <? n mod 2 ^ 64 then Throws length_error else Returns tt.

(** [stops_list.insert(stops_list.end(), std::next(stops_list.rbegin()),
    stops_list.rend())]: the way back, without the stop where the bus
    turns; there is no such range in an empty vector.  The range lies in
    the vector itself; the result is the one of the implementations, which
    copy the range before they let go of the old storage. *)
Definition insert_way_back (stops_list : list string) : attempt (list string) :=
  match stops_list with
  | [] => Undefined
  | _ :: _ => Returns (stops_list ++ List.tl (List.rev stops_list))
  end.

(** The constructor [BusDescription(const json::Dict&)] *)
Definition BusDescription_of (dict : DictT) : attempt BusDescription :=
  bus_name <-- (n <-- at_ "name" dict ;; AsString n) ;;
  document_stops <-- (n <-- at_ "stops" dict ;; AsArray n) ;;
  roundtrip <-- (n <-- at_ "is_roundtrip" dict ;; AsBool n) ;;
  _ <-- reserve (if roundtrip
                 then Z.of_nat (List.length document_stops) * 2 - 1
                 else Z.of_nat (List.length document_stops)) ;;
  stops_list <-- strings_of document_stops ;;
  stops_list <-- (if roundtrip then Returns stops_list
                  else insert_way_back stops_list) ;;
  Returns {| name := bus_name; stops := stops_list; is_roundtrip := roundtrip |}.

End Reader.

(** ** Answers to the requests for statistics ([json_reader.cpp]) *)

Module Output.
Import Access Builder Calls.
#[local] Open Scope list_scope.

(** [detail::BusInfo] ([transport_catalogue.h]) *)
Record BusInfo : Type := {
  stops : Z;
  unique_stops : Z;
  length : Z;
  curvature : spec_float
}.

(** The node that [Value("not found")] stores: the converting constructor
    of the variant takes a string literal to the [std::string]
    alternative (the rule of C++20, P0608). *)
Definition not_found : Node := Str "not found".

Section Catalogue.

(** What the answers take from the catalogue and from the renderer: the
    lookups and the statistics of [TransportCatalogue], and the text that
    [MapRenderer] and [svg::Document::Render] write for the catalogue and
    the settings. *)
Variables Stop Bus : Type.
Variable FindStop : string -> option Stop.
Variable GetStopInfo : Stop -> list string.
Variable FindBus : string -> option Bus.
Variable GetBusInfo : Bus -> BusInfo.
Variable map : string.

(** A chain of calls that ends in [Build] *)
Definition build (calls : list call) (builder : Builder) : attempt Node :=
  of_outcome (andThen (run calls builder) Build).

Definition LoadStopNode (stat_info : DictT) : attempt Node :=
  let builder := create in
  id <-- (n <-- at_ "id" stat_info ;; AsInt n) ;;
  builder <-- of_outcome
    (run [CallStartDict; CallKey "request_id"; CallValue (Int id)] builder) ;;
  name <-- (n <-- at_ "name" stat_info ;; AsString n) ;;
  match FindStop name with
  | None =>
      build [CallKey "error_message"; CallValue not_found; CallEndDict] builder
  | Some stop =>
      let buses := GetStopInfo stop in
      let json_buses := List.map Str buses in
      build [CallKey "buses"; CallValue (Arr json_buses); CallEndDict] builder
  end.

Definition LoadBusNode (stat_info : DictT) : attempt Node :=
  let builder := create in
  id <-- (n <-- at_ "id" stat_info ;; AsInt n) ;;
  builder <-- of_outcome
    (run [CallStartDict; CallKey "request_id"; CallValue (Int id)] builder) ;;
  name <-- (n <-- at_ "name" stat_info ;; AsString n) ;;
  match FindBus name with
  | None =>
      build [CallKey "error_message"; CallValue not_found; CallEndDict] builder
  | Some bus =>
      let info := GetBusInfo bus in
      build [CallKey "curvature"; CallValue (Double (curvature info));
             CallKey "route_length"; CallValue (Int (length info));
             CallKey "stop_count"; CallValue (Int (stops info));
             CallKey "unique_stop_count"; CallValue (Int (unique_stops info));
             CallEndDict] builder
  end.

Definition LoadMapNode (stat_info : DictT) : attempt Node :=
  let builder := create in
  id <-- (n <-- at_ "id" stat_info ;; AsInt n) ;;
  build [CallStartDict; CallKey "request_id"; CallValue (Int id);
         CallKey "map"; CallValue (Str map); CallEndDict] builder.

Definition type_of (request : DictT) : attempt string :=
  n <-- at_ "type" request ;; AsString n.

(** The loop of [PrintStat] *)
Fixpoint PrintStat_loop (stats : list Node) (builder : Builder) : attempt Builder :=
  match stats with
  | [] => Returns builder
  | stat :: rest =>
      request <-- AsDict stat ;;
      type <-- type_of request ;;
      builder <--
        (if String.eqb type "Bus" then
           node <-- LoadBusNode request ;; of_outcome (Value node builder)
         else
           type <-- type_of request ;;
           if String.eqb type "Stop" then
             node <-- LoadStopNode request ;; of_outcome (Value node builder)
           else
             type <-- type_of request ;;
             if String.eqb type "Map" then
               node <-- LoadMapNode request ;; of_outcome (Value node builder)
             else Returns builder) ;;
      PrintStat_loop rest builder
  end.

Definition PrintStat (stats : list Node) : attempt Node :=
  let builder := create in
  builder <-- of_outcome (StartArray builder) ;;
  builder <-- PrintStat_loop stats builder ;;
  builder <-- of_outcome (EndArray builder) ;;
  of_outcome (Build builder).

(** The answer to one request, if it is of a type that has one *)
Definition answer (stat : Node) : attempt (option Node) :=
  request <-- AsDict stat ;;
  type <-- type_of request ;;
  if String.eqb type "Bus" then node <-- LoadBusNode request ;; Returns (Some node)
  else if String.eqb type "Stop" then node <-- LoadStopNode request ;; Returns (Some node)
  else if String.eqb type "Map" then node <-- LoadMapNode request ;; Returns (Some node)
  else Returns None.

(** The answers to the requests in their order, up to the first request
    that throws *)
Fixpoint answers (stats : list Node) : attempt (list Node) :=
  match stats with
  | [] => Returns []
  | stat :: rest =>
      a <-- answer stat ;;
      l <-- answers rest ;;
      Returns (match a with Some node => node :: l | None => l end)
  end.

End Catalogue.

Arguments LoadStopNode {Stop} FindStop GetStopInfo stat_info.
Arguments LoadBusNode {Bus} FindBus GetBusInfo stat_info.
Arguments PrintStat_loop {Stop Bus} FindStop GetStopInfo FindBus GetBusInfo map
  stats builder.
Arguments PrintStat {Stop Bus} FindStop GetStopInfo FindBus GetBusInfo map stats.
Arguments answer {Stop Bus} FindStop GetStopInfo FindBus GetBusInfo map stat.
Arguments answers {Stop Bus} FindStop GetStopInfo FindBus GetBusInfo map stats.

End Output.

(** ** Distances between stops ([transport_catalogue.cpp]) *)

Module Catalogue.
#[local] Open Scope list_scope.

(** A [const transport::Stop*]: the place of the stop in [stops_] *)
Definition StopPtr : Type := nat.

(** The part of [TransportCatalogue] that the distances rest on: the index
    of the stops by name and the table of the distances. *)
Record TransportCatalogue : Type := {
  stops_ptr_ : list (string * StopPtr);
  distances_ : list ((StopPtr * StopPtr) * Z)
}.

Definition same_pair (p q : StopPtr * StopPtr) : bool :=
  Nat.eqb (fst p) (fst q) && Nat.eqb (snd p) (snd q).

(** [find] of the two hash tables *)
Fixpoint find_name (str : string) (m : list (string * StopPtr)) : option StopPtr :=
  match m with
  | [] => None
  | (k, v) :: m' => if String.eqb str k then Some v else find_name str m'
  end.

Fixpoint find_pair (p : StopPtr * StopPtr) (m : list ((StopPtr * StopPtr) * Z))
  : option Z :=
  match m with
  | [] => None
  | (k, v) :: m' => if same_pair p k then Some v else find_pair p m'
  end.

(** [insert] of a hash table: a key that is present keeps its value. *)
Definition insert_pair (p : StopPtr * StopPtr) (distance : Z)
    (m : list ((StopPtr * StopPtr) * Z)) : list ((StopPtr * StopPtr) * Z) :=
  match find_pair p m with
  | Some _ => m
  | None => m ++ [(p, distance)]
  end.

(** [FindStop]; [None] is the null pointer. *)
Definition FindStop (c : TransportCatalogue) (str : string) : option StopPtr :=
  find_name str (stops_ptr_ c).

(** [SetDistance]; [None] is the failure of the assertion that both stops
    exist. *)
Definition SetDistance (c : TransportCatalogue) (from to : string) (distance : Z)
  : option TransportCatalogue :=
  match FindStop c from, FindStop c to with
  | Some stop1, Some stop2 =>
      Some {| stops_ptr_ := stops_ptr_ c;
              distances_ := insert_pair (stop1, stop2) distance (distances_ c) |}
  | _, _ => None
  end.

Definition GetDistance (c : TransportCatalogue) (from to : string) : Z :=
  match FindStop c from, FindStop c to with
  | Some stop1, Some stop2 =>
      match find_pair (stop1, stop2) (distances_ c) with
      | Some d => d
      | None =>
          match find_pair (stop2, stop1) (distances_ c) with
          | Some d => d
          | None => 0
          end
      end
  | _, _ => 0
  end.

End Catalogue.

(** ** Objects written without commas *)

Module Layout.
Import Printer.

(** A text made of commas and white space *)
Fixpoint commas_and_space (s : string) : bool :=
  match s with
  | EmptyString => true
  | String c rest => (Ascii.eqb c "," || isspace c) && commas_and_space rest
  end.

(** The entries of a dictionary as [PrintNode] writes them, each on a line
    of its own, with no comma between them *)
Fixpoint PrintDict_items_bare (ctx : PrintContext) (nodes : list (string * Node))
  : string :=
  match nodes with
  | [] => EmptyString
  | (key, node) :: nodes' =>
      chr LF ++ PrintIndent (Indented ctx) ++ PrintString key ++ ": "
      ++ PrintNode node (Indented ctx) ++ PrintDict_items_bare ctx nodes'
  end.

End Layout.

(** * Properties *)

(** ** Strings *)

Section StringFacts.

Lemma append_nil_r (s : string) : s ++ EmptyString = s.
Proof. induction s as [|c s IH]; simpl; congruence. Qed.

Lemma append_assoc (a b c : string) : (a ++ b) ++ c = a ++ (b ++ c).
Proof. induction a as [|x a IH]; simpl; congruence. Qed.

Lemma length_append (a b : string) :
  String.length (a ++ b) = (String.length a + String.length b)%nat.
Proof. induction a as [|x a IH]; simpl; congruence. Qed.

Lemma append_chr (c : ascii) (s : string) : chr c ++ s = String c s.
Proof. reflexivity. Qed.

End StringFacts.

(** ** The builder *)

Section BuilderFacts.
Import Builder Calls.
#[local] Open Scope list_scope.

Lemma exists_last_or_nil (p : pointer) :
  p = [] \/ exists q s, p = q ++ [s].
Proof.
  destruct p as [|x p]; [left; reflexivity | right].
  destruct (exists_last (l := x :: p)) as [q [s E]]; [discriminate|].
  now exists q, s.
Qed.

Lemma back_push_back (st : list pointer) (p : pointer) :
  back (push_back st p) = Some p.
Proof.
  unfold back, push_back. rewrite map_app. simpl.
  now rewrite last_last.
Qed.

Lemma pop_back_push_back (st : list pointer) (p : pointer) :
  pop_back (push_back st p) = st.
Proof. unfold pop_back, push_back. apply removelast_last. Qed.

Lemma prefixes_snoc (p : pointer) (s : step) :
  prefixes (p ++ [s]) = push_back (prefixes p) (p ++ [s]).
Proof.
  unfold push_back. induction p as [|x p IH]; simpl; [reflexivity|].
  rewrite IH, map_app. reflexivity.
Qed.

Lemma back_prefixes (p : pointer) : back (prefixes p) = Some p.
Proof.
  destruct (exists_last_or_nil p) as [-> | [q [s ->]]]; [reflexivity|].
  rewrite prefixes_snoc. apply back_push_back.
Qed.

(** Popping the stack of a well-formed chain leaves the empty stack, when
    the root itself was on top, or the chain of the parent. *)
Lemma pop_back_prefixes (p : pointer) :
  pop_back (prefixes p) = [] \/
  exists q s, p = q ++ [s] /\ pop_back (prefixes p) = prefixes q.
Proof.
  destruct (exists_last_or_nil p) as [-> | [q [s ->]]]; [left; reflexivity|].
  right. exists q, s. split; [reflexivity|].
  rewrite prefixes_snoc. apply pop_back_push_back.
Qed.

Lemma deref_app (root : Node) (p q : pointer) :
  deref root (p ++ q) =
  match deref root p with Some n => deref n q | None => None end.
Proof.
  revert root. induction p as [|s p IH]; intros root; simpl; [reflexivity|].
  destruct s as [i|key], root; try reflexivity.
  - destruct (nth_error a i); [apply IH | reflexivity].
  - destruct (Map.find key d); [apply IH | reflexivity].
Qed.

Lemma nth_error_set_nth (a : list Node) (i : nat) (f : Node -> Node) (n : Node) :
  nth_error a i = Some n -> nth_error (set_nth a i f) i = Some (f n).
Proof.
  revert i. induction a as [|x a IH]; intros [|i]; simpl; try discriminate.
  - now intros [= ->].
  - apply IH.
Qed.

Lemma find_map_at (key : string) (f : Node -> Node) (d : DictT) (n : Node) :
  Map.find key d = Some n -> Map.find key (map_at key f d) = Some (f n).
Proof.
  induction d as [|[k w] d IH]; simpl; [discriminate|].
  destruct (String.eqb key k) eqn:E; simpl; rewrite E.
  - now intros [= ->].
  - apply IH.
Qed.

Lemma set_nth_id (a : list Node) (i : nat) (f : Node -> Node) (n : Node) :
  nth_error a i = Some n -> f n = n -> set_nth a i f = a.
Proof.
  revert i. induction a as [|x a IH]; intros [|i]; simpl; try discriminate.
  - intros [= ->] ->. reflexivity.
  - intros H1 H2. now rewrite (IH i H1 H2).
Qed.

Lemma map_at_id (key : string) (f : Node -> Node) (d : DictT) (n : Node) :
  Map.find key d = Some n -> f n = n -> map_at key f d = d.
Proof.
  induction d as [|[k w] d IH]; simpl; [discriminate|].
  destruct (String.eqb key k) eqn:E.
  - intros [= ->] ->. reflexivity.
  - intros H1 H2. now rewrite (IH H1 H2).
Qed.

(** Reading back what was written through a valid pointer *)
Lemma deref_store (root : Node) (p : pointer) (v x : Node) :
  deref root p = Some x -> deref (store root p v) p = Some v.
Proof.
  revert root. induction p as [|s p IH]; intros root; simpl; [reflexivity|].
  destruct s as [i|key], root; try discriminate.
  - destruct (nth_error a i) as [n|] eqn:E; [|discriminate].
    intros H. rewrite (nth_error_set_nth _ _ _ _ E). now apply IH.
  - destruct (Map.find key d) as [n|] eqn:E; [|discriminate].
    intros H. rewrite (find_map_at _ _ _ _ E). now apply IH.
Qed.

(** Writing the value that is already there changes nothing *)
Lemma store_same (root : Node) (p : pointer) (x : Node) :
  deref root p = Some x -> store root p x = root.
Proof.
  revert root. induction p as [|s p IH]; intros root; simpl.
  - now intros [= ->].
  - destruct s as [i|key], root; try discriminate.
    + destruct (nth_error a i) as [n|] eqn:E; [|discriminate].
      intros H. f_equal. apply (set_nth_id _ _ _ _ E). now apply IH.
    + destruct (Map.find key d) as [n|] eqn:E; [|discriminate].
      intros H. f_equal. apply (map_at_id _ _ _ _ E). now apply IH.
Qed.

Lemma find_insert_sorted (key : string) (v : Node) (d : DictT) :
  Map.find key d = None -> Map.find key (Map.insert_sorted key v d) = Some v.
Proof.
  induction d as [|[k w] d IH]; simpl.
  - now rewrite String.eqb_refl.
  - destruct (String.eqb key k) eqn:E; [discriminate|]. intros H.
    destruct (String.compare key k); simpl;
      rewrite ?String.eqb_refl, ?E; auto.
Qed.

(** After [operator[]] the key is present: with its old node, or with a
    null node when it is new. *)
Lemma find_subscript (key : string) (d : DictT) :
  Map.find key (Map.subscript key d) =
  Some match Map.find key d with Some x => x | None => Null end.
Proof.
  unfold Map.subscript, Map.emplace.
  destruct (Map.find key d) as [x|] eqn:E; [exact E|].
  now apply find_insert_sorted.
Qed.

Lemma stack_ok_create : stack_ok create.
Proof. right. exists []. split; [reflexivity | discriminate]. Qed.

Lemma GetCurValue_ok (b : Builder) :
  stack_ok b ->
  (nodes_stack_ b = [] /\
   GetCurValue b = LogicError "Cannot modify - JSON object is already finished")
  \/ exists p v, nodes_stack_ b = prefixes p /\ deref (root_ b) p = Some v
                 /\ GetCurValue b = Done (p, v).
Proof.
  intros [H | [p [H1 H2]]]; unfold GetCurValue.
  - left. rewrite H. split; reflexivity.
  - right. destruct (deref (root_ b) p) as [v|] eqn:E; [|congruence].
    exists p, v. rewrite H1, back_prefixes, E. repeat split; reflexivity.
Qed.

Lemma stack_ok_pop (b : Builder) (p : pointer) (v : Node) (root' : Node) :
  nodes_stack_ b = prefixes p ->
  (forall q s, p = q ++ [s] -> deref root' q <> None) ->
  stack_ok {| root_ := root'; nodes_stack_ := pop_back (nodes_stack_ b) |}.
Proof.
  intros H1 H2. rewrite H1.
  destruct (pop_back_prefixes p) as [E | [q [s [-> E]]]]; rewrite E.
  - left. reflexivity.
  - right. exists q. split; [reflexivity|]. now apply (H2 q s).
Qed.

Lemma deref_prefix (root : Node) (q : pointer) (s : step) :
  deref root (q ++ [s]) <> None -> deref root q <> None.
Proof. rewrite deref_app. destruct (deref root q); congruence. Qed.

(** Every successful call keeps the stack well formed. *)
Lemma stack_ok_perform (c : call) (b b' : Builder) :
  stack_ok b -> perform c b = Done b' -> stack_ok b'.
Proof.
  intros Hok.
  destruct (GetCurValue_ok b Hok) as [[_ E] | [p [v [Hst [Hd E]]]]];
    destruct c; simpl;
    unfold Key, Value, StartDict, EndDict, StartArray, EndArray, AddObject;
    rewrite E; try discriminate.
  - (* Key *)
    destruct v; try discriminate. intros [= <-]. right.
    exists (p ++ [AtKey key]). simpl. rewrite Hst, prefixes_snoc.
    split; [reflexivity|].
    rewrite deref_app, (deref_store _ _ _ _ Hd). simpl.
    rewrite find_subscript. discriminate.
  - (* Value *)
    destruct v; try discriminate; intros [= <-].
    + apply stack_ok_pop with (p := p) (v := value); [exact Hst|].
      intros q s ->. rewrite deref_app in Hd.
      destruct (deref (root_ b) q) as [n|] eqn:Eq; [|discriminate].
      generalize (deref_store (root_ b) (q ++ [s]) value Null).
      rewrite deref_app, Eq. intros H. specialize (H Hd).
      apply deref_prefix with (s := s). congruence.
    + right. exists p. simpl. split; [exact Hst|].
      rewrite (deref_store _ _ _ _ Hd). discriminate.
  - (* StartDict *)
    destruct v; try discriminate; intros [= <-]; right.
    + exists p. simpl. split; [exact Hst|].
      rewrite (deref_store _ _ _ _ Hd). discriminate.
    + exists (p ++ [AtIndex (List.length a)]). simpl.
      rewrite Hst, prefixes_snoc. split; [reflexivity|].
      rewrite deref_app, (deref_store _ _ _ _ Hd). simpl.
      rewrite nth_error_app2, Nat.sub_diag by lia. discriminate.
  - (* EndDict *)
    destruct v; try discriminate. intros [= <-].
    apply stack_ok_pop with (p := p) (v := Dict d); [exact Hst|].
    intros q s ->. apply deref_prefix with (s := s). congruence.
  - (* StartArray *)
    destruct v; try discriminate; intros [= <-]; right.
    + exists p. simpl. split; [exact Hst|].
      rewrite (deref_store _ _ _ _ Hd). discriminate.
    + exists (p ++ [AtIndex (List.length a)]). simpl.
      rewrite Hst, prefixes_snoc. split; [reflexivity|].
      rewrite deref_app, (deref_store _ _ _ _ Hd). simpl.
      rewrite nth_error_app2, Nat.sub_diag by lia. discriminate.
  - (* EndArray *)
    destruct v; try discriminate. intros [= <-].
    apply stack_ok_pop with (p := p) (v := Arr a); [exact Hst|].
    intros q s ->. apply deref_prefix with (s := s). congruence.
Qed.

Lemma stack_ok_run (calls : list call) (b b' : Builder) :
  stack_ok b -> run calls b = Done b' -> stack_ok b'.
Proof.
  revert b. induction calls as [|c calls IH]; intros b Hok; simpl.
  - now intros [= <-].
  - destruct (perform c b) as [b1| |] eqn:E; simpl; try discriminate.
    apply IH. now apply (stack_ok_perform c b).
Qed.

(** C9: from a fresh builder the calls [StartArray], [Value(1)],
    [Value(2)], [EndArray], [Build] succeed and give the array of 1 and 2,
    in the order of the calls. *)
Theorem C9_array_of_two_values :
  andThen
    (run [CallStartArray; CallValue (Int 1); CallValue (Int 2); CallEndArray] create)
    Build
  = Done (Arr [Int 1; Int 2]).
Proof. reflexivity. Qed.

End BuilderFacts.

Section BuilderProtocol.
Import Builder Calls NodeOps.
#[local] Open Scope list_scope.

(** C8: in every state a chain of calls can reach, the illegal calls throw
    and no builder state results: [Key] unless the top of the stack is a
    dictionary, [EndArray] unless it is an array, [EndDict] unless it is a
    dictionary, [Build] while the stack is not empty, and every mutating
    call once the stack is empty.  [Value], [StartDict] and [StartArray]
    throw unless the top of the stack is null or an array, so that each of
    them throws in a dictionary that awaits a key. *)
Theorem C8_illegal_calls_throw (calls : list call) (b : Builder) :
  run calls create = Done b ->
  (forall key, (forall p d, GetCurValue b <> Done (p, Dict d)) ->
     Key key b = LogicError "Cannot use Key() - current object is not a dictionary"
     \/ Key key b = LogicError "Cannot modify - JSON object is already finished")
  /\ ((forall p a, GetCurValue b <> Done (p, Arr a)) ->
     EndArray b = LogicError "Cannot end array - current value is not an array"
     \/ EndArray b = LogicError "Cannot modify - JSON object is already finished")
  /\ ((forall p d, GetCurValue b <> Done (p, Dict d)) ->
     EndDict b = LogicError "Cannot end dict - current value is not a dictionary"
     \/ EndDict b = LogicError "Cannot modify - JSON object is already finished")
  /\ (nodes_stack_ b <> [] ->
     Build b = LogicError "Cannot build JSON - object is not finished")
  /\ (nodes_stack_ b = [] ->
     forall c, perform c b
               = LogicError "Cannot modify - JSON object is already finished")
  /\ ((forall p, GetCurValue b <> Done (p, Null)) ->
      (forall p a, GetCurValue b <> Done (p, Arr a)) ->
      forall c,
        c = CallStartDict \/ c = CallStartArray \/ (exists value, c = CallValue value) ->
        perform c b = LogicError "Cannot set value - current object is not empty"
        \/ perform c b = LogicError "Cannot modify - JSON object is already finished")
  /\ (forall p d,
        GetCurValue b = Done (p, Dict d) ->
        (forall value,
           Value value b = LogicError "Cannot set value - current object is not empty")
        /\ StartDict b = LogicError "Cannot set value - current object is not empty"
        /\ StartArray b = LogicError "Cannot set value - current object is not empty").
Proof.
  intros Hrun.
  assert (Hok : stack_ok b) by (apply (stack_ok_run calls create); [apply stack_ok_create | exact Hrun]).
  assert (Hadd : forall value single p d,
            GetCurValue b = Done (p, Dict d) ->
            AddObject value single b
            = LogicError "Cannot set value - current object is not empty").
  { intros value single p d E. unfold AddObject. now rewrite E. }
  destruct (GetCurValue_ok b Hok) as [[Hnil E] | [p [v [Hst [Hd E]]]]].
  - split; [|split; [|split; [|split; [|split; [|split]]]]]; intros.
    + right. unfold Key. now rewrite E.
    + right. unfold EndArray. now rewrite E.
    + right. unfold EndDict. now rewrite E.
    + contradiction.
    + destruct c; simpl;
        unfold Key, Value, StartDict, EndDict, StartArray, EndArray, AddObject;
        now rewrite E.
    + right. destruct c; simpl;
        unfold Key, Value, StartDict, EndDict, StartArray, EndArray, AddObject;
        now rewrite E.
    + rewrite E in *. discriminate.
  - assert (Hne : nodes_stack_ b <> []).
    { rewrite Hst. destruct p; discriminate. }
    split; [|split; [|split; [|split; [|split; [|split]]]]].
    + intros key H. left. unfold Key. rewrite E.
      destruct v; try reflexivity. now destruct (H p d).
    + intros H. left. unfold EndArray. rewrite E.
      destruct v; try reflexivity. now destruct (H p a).
    + intros H. left. unfold EndDict. rewrite E.
      destruct v; try reflexivity. now destruct (H p d).
    + intros _. unfold Build. destruct (nodes_stack_ b); [contradiction | reflexivity].
    + intros H. contradiction.
    + intros HN HA c Hc. left.
      assert (Hv : forall value single,
                AddObject value single b
                = LogicError "Cannot set value - current object is not empty").
      { intros value single. unfold AddObject. rewrite E.
        destruct v; try reflexivity; [now destruct (HN p) | now destruct (HA p a)]. }
      destruct Hc as [-> | [-> | [value ->]]]; simpl;
        unfold Value, StartDict, StartArray; apply Hv.
    + intros q d Eq. unfold Value, StartDict, StartArray.
      split; [intros value|split]; apply (Hadd _ _ q d Eq).
Qed.

(** The state after [StartArray] on a fresh builder: [Key] and [Build]
    throw there.  The state after [StartDict]: [Value], [StartDict] and
    [StartArray] throw there. *)
Lemma C8_illegal_calls_throw_witness :
  let b := {| root_ := Arr []; nodes_stack_ := [ [] ] |} in
  let b' := {| root_ := Dict []; nodes_stack_ := [ [] ] |} in
  run [CallStartArray] create = Done b
  /\ Key "x" b = LogicError "Cannot use Key() - current object is not a dictionary"
  /\ Build b = LogicError "Cannot build JSON - object is not finished"
  /\ run [CallStartDict] create = Done b'
  /\ Value (Int 1) b' = LogicError "Cannot set value - current object is not empty"
  /\ StartDict b' = LogicError "Cannot set value - current object is not empty"
  /\ StartArray b' = LogicError "Cannot set value - current object is not empty".
Proof.
  intros b b'. split; [reflexivity|].
  destruct (C8_illegal_calls_throw [CallStartArray] b eq_refl)
    as (HK & _ & _ & HB & _).
  destruct (C8_illegal_calls_throw [CallStartDict] b' eq_refl)
    as (_ & _ & _ & _ & _ & _ & HV).
  destruct (HV [] [] eq_refl) as (H1 & H2 & H3).
  split; [|split; [|split; [|split; [|split]]]].
  - destruct (HK "x") as [H | H]; [discriminate | exact H | discriminate H].
  - apply HB. discriminate.
  - reflexivity.
  - apply H1.
  - exact H2.
  - exact H3.
Defined.

(** C4 (what the code does instead): [Key] with a name that the open
    dictionary already holds does not throw; the tree is unchanged and the
    address of the existing entry is pushed.  A following [Value] call
    throws when that entry holds anything but null or an array. *)
Theorem C4_Key_on_present_name (b : Builder) (p : pointer) (d : DictT)
    (key : string) (x : Node) :
  GetCurValue b = Done (p, Dict d) ->
  Map.find key d = Some x ->
  exists b',
    Key key b = Done b'
    /\ root_ b' = root_ b
    /\ nodes_stack_ b' = push_back (nodes_stack_ b) (p ++ [AtKey key])
    /\ GetCurValue b' = Done (p ++ [AtKey key], x)
    /\ (IsNull x = false -> IsArray x = false ->
        forall value,
          Value value b'
          = LogicError "Cannot set value - current object is not empty").
Proof.
  intros E Hfind.
  assert (Hd : deref (root_ b) p = Some (Dict d)).
  { unfold GetCurValue in E. destruct (back (nodes_stack_ b)); [|discriminate].
    destruct (deref (root_ b) p0) eqn:E'; [|discriminate].
    now injection E as -> ->. }
  assert (Hsub : Map.subscript key d = d).
  { unfold Map.subscript, Map.emplace. now rewrite Hfind. }
  assert (Hcur : GetCurValue
            {| root_ := root_ b;
               nodes_stack_ := push_back (nodes_stack_ b) (p ++ [AtKey key]) |}
          = Done (p ++ [AtKey key], x)).
  { unfold GetCurValue. simpl. rewrite back_push_back, deref_app, Hd. simpl.
    now rewrite Hfind. }
  eexists. unfold Key. rewrite E, Hsub, (store_same _ _ _ Hd).
  split; [reflexivity|]. split; [reflexivity|]. split; [reflexivity|].
  split; [exact Hcur|].
  intros Hn Ha value. unfold Value, AddObject. rewrite Hcur.
  destruct x; try reflexivity; discriminate.
Qed.

(** [StartDict], [Key("a")], [Value(1)]: the second [Key("a")] pushes the
    entry of "a", and [Value(2)] is the call that throws. *)
Lemma C4_Key_on_present_name_witness :
  let b := {| root_ := Dict [("a"%string, Int 1)]; nodes_stack_ := [ [] ] |} in
  exists b',
    Key "a" b = Done b'
    /\ root_ b' = root_ b
    /\ nodes_stack_ b' = [ []; [AtKey "a"] ]
    /\ GetCurValue b' = Done ([AtKey "a"], Int 1)
    /\ Value (Int 2) b'
       = LogicError "Cannot set value - current object is not empty".
Proof.
  intros b.
  destruct (C4_Key_on_present_name b [] [("a"%string, Int 1)] "a" (Int 1)
              eq_refl eq_refl) as (b' & H1 & H2 & H3 & H4 & H5).
  exists b'. repeat split; try assumption.
  apply H5; reflexivity.
Defined.

(** C4 as stated fails: after [StartDict], [Key("a")], [Value(1)] on a
    fresh builder the second [Key("a")] returns normally. *)
Lemma C4_second_Key_does_not_throw :
  exists b,
    run [CallStartDict; CallKey "a"; CallValue (Int 1)] create = Done b
    /\ Key "a" b
       = Done {| root_ := Dict [("a"%string, Int 1)];
                 nodes_stack_ := [ []; [AtKey "a"] ] |}
    /\ forall msg, Key "a" b <> LogicError msg.
Proof.
  eexists. split; [reflexivity|]. split; [reflexivity|].
  intros msg. discriminate.
Qed.

End BuilderProtocol.

(** ** Reading strings *)

Section ReadingStrings.
Import Parser Printer StringSpec.

Ltac char_cases :=
  repeat match goal with
  | |- context [Ascii.eqb ?c ?d] =>
      lazymatch c with
      | Ascii _ _ _ _ _ _ _ _ => fail
      | _ => destruct (Ascii.eqb_spec c d); [subst c|]
      end
  | H : context [Ascii.eqb ?c ?d] |- _ =>
      lazymatch c with
      | Ascii _ _ _ _ _ _ _ _ => fail
      | _ => destruct (Ascii.eqb_spec c d); [subst c|]
      end
  end.

(** The loop of [LoadString] on a well-formed body continues behind it
    with the decoded text appended. *)
Lemma LoadString_loop_decode_le (n : nat) :
  forall body s, (String.length body <= n)%nat ->
  decode body = Some s ->
  forall acc tail,
    LoadString_loop acc (body ++ tail) = LoadString_loop (acc ++ s) tail.
Proof.
  induction n as [|n IH]; intros body s Hlen H acc tail.
  - destruct body; [|simpl in Hlen; lia].
    injection H as <-. now rewrite append_nil_r.
  - destruct body as [|c rest]; simpl in H.
    + injection H as <-. now rewrite append_nil_r.
    + simpl in Hlen. destruct (Ascii.eqb_spec c BACKSLASH) as [-> | Hb].
      * destruct rest as [|e rest']; [discriminate|].
        destruct (unescape e) as [c'|] eqn:Eu; [|discriminate].
        destruct (decode rest') as [s'|] eqn:Ed; [|discriminate].
        injection H as <-. simpl in Hlen.
        assert (IH' := IH rest' s' ltac:(lia) Ed).
        unfold unescape in Eu. simpl.
        char_cases; try discriminate; injection Eu as <-;
          rewrite IH', append_assoc; reflexivity.
      * unfold plain in H.
        destruct (decode rest) as [s'|] eqn:Ed.
        2:{ destruct (negb _); discriminate. }
        assert (IH' := IH rest s' ltac:(lia) Ed).
        simpl. char_cases; simpl in H; try discriminate; try contradiction.
        injection H as <-. rewrite IH', append_assoc. reflexivity.
Qed.

Lemma LoadString_loop_decode (body s : string) :
  decode body = Some s ->
  forall acc tail,
    LoadString_loop acc (body ++ tail) = LoadString_loop (acc ++ s) tail.
Proof. apply (LoadString_loop_decode_le (String.length body)). lia. Qed.

(** The writer's escaping is a well-formed body of the text it escapes. *)
Lemma decode_escape (value : string) : decode (escape value) = Some value.
Proof.
  induction value as [|c value IH]; [reflexivity|].
  simpl. char_cases; simpl; rewrite ?IH; try reflexivity.
  unfold plain.
  repeat match goal with
  | H : ?c <> ?d |- context [Ascii.eqb ?c ?d] =>
      rewrite (proj2 (Ascii.eqb_neq c d) H)
  end.
  reflexivity.
Qed.

(** C7: inside a string literal the escapes of n, t, r, the quote and the
    backslash give their one-character forms and plain characters stand
    for themselves, up to the closing quote; any other escape, a raw line
    feed or carriage return, and the end of the input before the closing
    quote throw. *)
Theorem C7_string_literal (body s rest : string) :
  decode body = Some s ->
  LoadString (body ++ String QUOTE rest) = Ok (Str s, rest)
  /\ (forall e, unescape e = None ->
        LoadString (body ++ String BACKSLASH (String e rest))
        = Throw ("Unrecognized escape sequence \" ++ chr e))
  /\ LoadString (body ++ String LF rest) = Throw "Unexpected end of line"
  /\ LoadString (body ++ String CR rest) = Throw "Unexpected end of line"
  /\ LoadString body = Throw "String parsing error"
  /\ LoadString (body ++ chr BACKSLASH) = Throw "String parsing error".
Proof.
  intros H. unfold LoadString.
  repeat split; intros.
  - now rewrite (LoadString_loop_decode body s H).
  - rewrite (LoadString_loop_decode body s H). simpl.
    unfold unescape in H0. char_cases; try discriminate. reflexivity.
  - now rewrite (LoadString_loop_decode body s H).
  - now rewrite (LoadString_loop_decode body s H).
  - rewrite <- (append_nil_r body) at 1.
    now rewrite (LoadString_loop_decode body s H).
  - now rewrite (LoadString_loop_decode body s H).
Qed.

(** A body with three escapes and a raw tab decodes to seven characters. *)
Lemma C7_string_literal_witness :
  let body := "a\nb\t\" ++ chr QUOTE ++ "c" ++ chr TAB in
  let s := "a" ++ chr LF ++ "b" ++ chr TAB ++ chr QUOTE ++ "c" ++ chr TAB in
  decode body = Some s
  /\ LoadString (body ++ String QUOTE ", 1]") = Ok (Str s, ", 1]")
  /\ LoadString (body ++ String BACKSLASH (String "u" ", 1]"))
     = Throw "Unrecognized escape sequence \u"
  /\ LoadString body = Throw "String parsing error".
Proof.
  intros body s.
  destruct (C7_string_literal body s ", 1]" eq_refl) as (H1 & H2 & _ & _ & H5 & _).
  split; [reflexivity|]. split; [exact H1|]. split; [|exact H5].
  apply (H2 "u"%char). reflexivity.
Defined.

End ReadingStrings.

(** ** Reading numbers, arrays and dictionaries *)

Section ReadingContainers.
Import Parser Printer Text.

Lemma isdigit_neq (c d : ascii) :
  isdigit c = true -> isdigit d = false -> Ascii.eqb c d = false.
Proof.
  intros Hc Hd. destruct (Ascii.eqb_spec c d) as [-> | _]; [congruence | reflexivity].
Qed.

Lemma isdigit_not_space (c : ascii) : isdigit c = true -> isspace c = false.
Proof.
  unfold isdigit, isspace. intros H.
  apply andb_true_iff in H. destruct H as [H1 H2].
  apply N.leb_le in H1, H2.
  destruct (N.eqb_spec (code c) 32); [lia|].
  destruct (N.leb_spec 9 (code c)), (N.leb_spec (code c) 13); simpl; try reflexivity; lia.
Qed.

Lemma Load_fuel (input : string) :
  (2 * String.length input + 1 = S (2 * String.length input))%nat.
Proof. lia. Qed.

(** C5 (what the code does instead): a literal that begins with the digit
    0 followed by more digits is not rejected; [LoadNumber] reads the
    single digit 0, gives [Int 0] and leaves the following digits in the
    stream, so that the text is never read as one number. *)
Theorem C5_zero_then_digits (c : ascii) (rest : string) :
  isdigit c = true ->
  LoadNumber (String "0" (String c rest)) = Ok (Int 0, String c rest)
  /\ LoadNumber (String "-" (String "0" (String c rest))) = Ok (Int 0, String c rest)
  /\ Load (String "0" (String c rest)) = Ok (Int 0).
Proof.
  intros Hc.
  assert (H1 : Ascii.eqb c "." = false) by (now apply isdigit_neq).
  assert (H2 : Ascii.eqb c "e" = false) by (now apply isdigit_neq).
  assert (H3 : Ascii.eqb c "E" = false) by (now apply isdigit_neq).
  assert (L1 : LoadNumber (String "0" (String c rest)) = Ok (Int 0, String c rest)).
  { unfold LoadNumber, lex_number, read_sign, read_integer_part,
      read_fraction_part, read_exponent_part.
    simpl. rewrite H1. simpl. rewrite H2, H3. reflexivity. }
  split; [exact L1|]. split.
  - unfold LoadNumber, lex_number, read_sign, read_integer_part,
      read_fraction_part, read_exponent_part.
    simpl. rewrite H1. simpl. rewrite H2, H3. reflexivity.
  - unfold Load. rewrite Load_fuel.
    change (LoadNode (S ?f) (String "0" ?r)) with (LoadNumber (String "0" r)).
    now rewrite L1.
Qed.

Lemma C5_zero_then_digits_witness :
  LoadNumber "0123, 4" = Ok (Int 0, "123, 4"%string)
  /\ LoadNumber "-0123, 4" = Ok (Int 0, "123, 4"%string)
  /\ Load "0123, 4" = Ok (Int 0).
Proof. apply (C5_zero_then_digits "1" "23, 4"). reflexivity. Defined.

(** C5 as stated fails: the input 01 is not rejected, it reads as the
    integer 0 (and as the two elements 0 and 1 inside an array). *)
Lemma C5_leading_zero_not_rejected :
  Load "01" = Ok (Int 0)
  /\ (forall msg, Load "01" <> Throw msg)
  /\ Load "[01]" = Ok (Arr [Int 0; Int 1]).
Proof. split; [reflexivity|]. split; [discriminate | reflexivity]. Qed.

Lemma find_emplace_same (key : string) (node : Node) (dict : DictT) :
  Map.find key (Map.emplace key node dict) <> None.
Proof.
  unfold Map.emplace. destruct (Map.find key dict) eqn:E; [congruence|].
  rewrite find_insert_sorted; [discriminate | exact E].
Qed.

Lemma find_insert_sorted_other (key k : string) (node : Node) (dict : DictT) :
  Map.find key dict <> None -> Map.find key (Map.insert_sorted k node dict) <> None.
Proof.
  induction dict as [|[k' w] dict IH]; simpl; [congruence|].
  intros H.
  destruct (String.compare k k'); simpl;
    destruct (String.eqb key k); try discriminate;
    destruct (String.eqb key k'); try discriminate; auto.
Qed.

Lemma find_emplace_other (key k : string) (node : Node) (dict : DictT) :
  Map.find key dict <> None -> Map.find key (Map.emplace k node dict) <> None.
Proof.
  unfold Map.emplace. destruct (Map.find k dict); [auto|].
  apply find_insert_sorted_other.
Qed.

Lemma extract_skip (input : string) (c : ascii) (rest : string) :
  extract input = Some (c, rest) -> Num.skip_space input = String c rest.
Proof.
  unfold extract. destruct (Num.skip_space input); [discriminate|].
  now intros [= -> ->].
Qed.

Lemma skip_space_idem (input : string) :
  Num.skip_space (Num.skip_space input) = Num.skip_space input.
Proof.
  induction input as [|c input IH]; [reflexivity|].
  simpl. destruct (isspace c) eqn:E; [exact IH|]. simpl. now rewrite E.
Qed.

(** [LoadNode] starts by skipping white space. *)
Lemma LoadNode_skip_space (fuel : nat) (input : string) :
  LoadNode fuel (Num.skip_space input) = LoadNode fuel input.
Proof.
  destruct fuel; [reflexivity|]. simpl. unfold extract.
  now rewrite skip_space_idem.
Qed.




End ReadingContainers.

(** ** Decimal text *)

Section DecimalText.
Import NumberSpec.

Ltac digit_case D :=
  exists D; split; [reflexivity|]; split; [reflexivity|];
  split; [|cbv; split; discriminate];
  intros d; unfold rev; simpl revapp;
  rewrite Unsigned.of_lu_revapp; reflexivity.

Lemma isdigit_cases (c : ascii) :
  isdigit c = true ->
  exists k : uint -> uint,
    (forall d, NilEmpty.string_of_uint (k d) = String c (NilEmpty.string_of_uint d))
    /\ (forall d, nb_digits (k d) = S (nb_digits d))
    /\ (forall d, Unsigned.of_lu (rev (k d))
                  = (Unsigned.of_lu (rev d)
                     + Z.to_N (digit_value c) * 10 ^ Unsigned.usize d)%N)
    /\ 0 <= digit_value c <= 9.
Proof.
  destruct c as [[] [] [] [] [] [] [] []]; try discriminate; intros _;
    first [ digit_case D0 | digit_case D1 | digit_case D2 | digit_case D3
          | digit_case D4 | digit_case D5 | digit_case D6 | digit_case D7
          | digit_case D8 | digit_case D9 ].
Qed.

Lemma usize_nb_digits (d : uint) : Unsigned.usize d = N.of_nat (nb_digits d).
Proof.
  induction d; cbn [Unsigned.usize nb_digits];
    rewrite ?Nat2N.inj_succ, ?IHd; reflexivity.
Qed.

Lemma all_digits_uint (ds : string) :
  all_digits ds = true ->
  exists d, ds = NilEmpty.string_of_uint d /\ nb_digits d = String.length ds.
Proof.
  induction ds as [|c ds IH]; simpl.
  - intros _. exists Nil. split; reflexivity.
  - intros H. apply andb_true_iff in H. destruct H as [Hc Hs].
    destruct (IH Hs) as [d [-> Hn]].
    destruct (isdigit_cases c Hc) as [k [K1 [K2 _]]].
    exists (k d). rewrite K1, K2, Hn. split; reflexivity.
Qed.

Lemma scan_digits_stop (acc : Z) (n : nat) (rest : string) :
  peek_isdigit rest = false -> Num.scan_digits acc n rest = (acc, n, rest).
Proof. destruct rest as [|c rest]; simpl; [reflexivity|]. now intros ->. Qed.

Lemma of_lu_rev_digit (k : uint -> uint) (v : N) (d : uint) :
  (forall x, revapp (k Nil) x = k x) ->
  (forall x y, revapp (k x) y = revapp x (k y)) ->
  Unsigned.of_lu (k Nil) = v ->
  Unsigned.of_lu (rev (k d))
  = (Unsigned.of_lu (rev d) + v * 10 ^ Unsigned.usize d)%N.
Proof.
  intros H1 H2 H3. unfold rev. rewrite H2, Unsigned.of_lu_revapp, H3.
  reflexivity.
Qed.

(** [scan_digits] on the decimal text of [d] reads the number [d]. *)
Lemma scan_digits_uint (d : uint) :
  forall acc n rest,
    peek_isdigit rest = false ->
    Num.scan_digits acc n (NilEmpty.string_of_uint d ++ rest)
    = (acc * 10 ^ Z.of_nat (nb_digits d) + Z.of_N (Unsigned.of_lu (rev d)),
       (n + nb_digits d)%nat, rest).
Proof.
  induction d; intros acc n rest Hrest.
  1:{ simpl; rewrite (scan_digits_stop _ _ _ Hrest).
      apply (f_equal2 pair); [apply (f_equal2 pair); [ring | lia] | reflexivity]. }
  all: simpl NilEmpty.string_of_uint; simpl append;
    cbn [Num.scan_digits]; simpl isdigit; cbv iota;
    rewrite (IHd _ _ _ Hrest);
    match goal with
    | |- context [rev (?k ?x)] =>
        rewrite (of_lu_rev_digit k (Z.to_N (digit_value
                   match NilEmpty.string_of_uint (k Nil) with
                   | String c _ => c | EmptyString => "0"%char end)) x)
          by reflexivity
    end;
    rewrite usize_nb_digits; simpl nb_digits;
    rewrite Nat2Z.inj_succ, Z.pow_succ_r by lia;
    rewrite N2Z.inj_add, N2Z.inj_mul, N2Z.inj_pow, nat_N_Z;
    match goal with
    | |- context [isdigit ?c] => change (isdigit c) with true
    end; cbv iota;
    repeat match goal with
    | |- context [Z.of_N (Z.to_N ?v)] =>
        let w := eval vm_compute in (Z.of_N (Z.to_N v)) in
        change (Z.of_N (Z.to_N v)) with w
    | |- context [digit_value ?c] =>
        let w := eval vm_compute in (digit_value c) in
        change (digit_value c) with w
    end;
    change (Z.of_N 10) with 10;
    (apply (f_equal2 pair); [apply (f_equal2 pair); [|lia] | reflexivity]);
    generalize (10 ^ Z.of_nat (nb_digits d));
    generalize (Z.of_N (Unsigned.of_lu (rev d)));
    intros; ring.
Qed.

End DecimalText.

(** ** Reading numbers *)

Section ReadingNumbers.
Import Parser NumberSpec.

Lemma read_digits_loop_spec (input : string) :
  forall parsed_num,
  exists ds rest,
    input = ds ++ rest /\ all_digits ds = true /\ peek_isdigit rest = false
    /\ read_digits_loop parsed_num input = (parsed_num ++ ds, rest).
Proof.
  induction input as [|c input IH]; intros p.
  - exists EmptyString, EmptyString. simpl. now rewrite append_nil_r.
  - simpl. destruct (isdigit c) eqn:Ec.
    + destruct (IH (p ++ chr c)) as (ds & rest & -> & H1 & H2 & H3).
      exists (String c ds), rest. simpl. rewrite Ec, H1, H3, append_assoc.
      repeat split; auto.
    + exists EmptyString, (String c input). simpl. rewrite Ec, append_nil_r.
      repeat split; auto.
Qed.

Lemma has_fraction_or_exponent_app (a b : string) :
  has_fraction_or_exponent (a ++ b)
  = has_fraction_or_exponent a || has_fraction_or_exponent b.
Proof.
  induction a as [|c a IH]; simpl; [reflexivity|].
  rewrite IH. now rewrite orb_assoc.
Qed.

Lemma all_digits_no_mark (ds : string) :
  all_digits ds = true -> has_fraction_or_exponent ds = false.
Proof.
  induction ds as [|c ds IH]; simpl; [reflexivity|].
  intros H. apply andb_true_iff in H. destruct H as [Hc Hs].
  rewrite (IH Hs), !(isdigit_neq c) by (exact Hc || reflexivity).
  reflexivity.
Qed.

Lemma peek_is_true (c : ascii) (input : string) :
  peek_is c input = true -> exists rest, input = String c rest.
Proof.
  destruct input as [|c' rest]; simpl; [discriminate|].
  intros H. apply Ascii.eqb_eq in H. subst c'. now exists rest.
Qed.

Lemma sign_step (p input : string) (st : lexer) :
  read_sign (p, input) = Ok st ->
  exists sg rest,
    (sg = EmptyString \/ sg = "-") /\ input = sg ++ rest /\ st = (p ++ sg, rest).
Proof.
  unfold read_sign. cbn [snd]. destruct (peek_is "-" input) eqn:E.
  - destruct (peek_is_true _ _ E) as [rest ->]. intros [= <-].
    exists "-", rest. repeat split; auto.
  - intros [= <-]. exists EmptyString, input. rewrite append_nil_r.
    repeat split; auto.
Qed.

Lemma read_digits_spec (p input : string) (st : lexer) :
  read_digits (p, input) = Ok st ->
  exists ds rest,
    all_digits ds = true /\ ds <> EmptyString /\ input = ds ++ rest
    /\ peek_isdigit rest = false /\ st = (p ++ ds, rest).
Proof.
  unfold read_digits. destruct (peek_isdigit input) eqn:E; [|discriminate].
  intros [= <-].
  destruct (read_digits_loop_spec input p) as (ds & rest & H1 & H2 & H3 & H4).
  exists ds, rest. repeat split; auto.
  intros ->. simpl in H1. subst rest. congruence.
Qed.

Lemma int_step (p input : string) (st : lexer) :
  read_integer_part (p, input) = Ok st ->
  exists ds rest,
    all_digits ds = true /\ ds <> EmptyString /\ input = ds ++ rest
    /\ st = (p ++ ds, rest).
Proof.
  unfold read_integer_part. cbn [snd]. destruct (peek_is "0" input) eqn:E.
  - destruct (peek_is_true _ _ E) as [rest ->]. intros [= <-].
    exists "0", rest. repeat split; auto. discriminate.
  - intros H. destruct (read_digits_spec _ _ _ H) as (ds & rest & H1 & H2 & H3 & _ & H4).
    exists ds, rest. auto.
Qed.

Lemma frac_step (p input : string) (st : lexer) (b : bool) :
  read_fraction_part (p, input) = Ok (st, b) ->
  exists x rest,
    input = x ++ rest /\ st = (p ++ x, rest)
    /\ (if b then x = EmptyString else has_fraction_or_exponent x = true).
Proof.
  unfold read_fraction_part. cbn [snd]. destruct (peek_is "." input) eqn:E.
  - destruct (peek_is_true _ _ E) as [rest ->]. cbn [read_char bind].
    destruct (read_digits (p ++ chr ".", rest)) as [st'| |] eqn:E'; try discriminate.
    cbn [bind]. intros [= <- <-].
    destruct (read_digits_spec _ _ _ E') as (ds & rest' & _ & _ & -> & _ & ->).
    exists (String "." ds), rest'. rewrite append_assoc. repeat split; auto.
  - intros [= <- <-]. exists EmptyString, input.
    rewrite append_nil_r. repeat split; auto.
Qed.

Lemma exp_finish (p sg rest' : string) (c : ascii) (st : lexer) (b : bool) :
  has_fraction_or_exponent (chr c) = true ->
  (st <- read_digits ((p ++ chr c) ++ sg, rest') ;; Ok (st, false)) = Ok (st, b) ->
  exists x rest,
    String c (sg ++ rest') = x ++ rest /\ st = (p ++ x, rest)
    /\ b = false /\ has_fraction_or_exponent x = true.
Proof.
  intros Hc.
  destruct (read_digits ((p ++ chr c) ++ sg, rest')) as [st'| |] eqn:E';
    try discriminate.
  cbn [bind]. intros [= <- <-].
  destruct (read_digits_spec _ _ _ E') as (ds & rest'' & _ & _ & -> & _ & ->).
  exists (String c (sg ++ ds)), rest''.
  cbn [append]. rewrite !append_assoc. cbn [append chr].
  split; [reflexivity|]. split; [reflexivity|].
  split; [reflexivity|].
  change (String c (sg ++ ds)) with (chr c ++ (sg ++ ds)).
  now rewrite has_fraction_or_exponent_app, Hc.
Qed.

Lemma exp_step (p input : string) (is_int : bool) (st : lexer) (b : bool) :
  read_exponent_part (p, input) is_int = Ok (st, b) ->
  exists x rest,
    input = x ++ rest /\ st = (p ++ x, rest)
    /\ (if b then x = EmptyString /\ is_int = true
        else has_fraction_or_exponent x = true
             \/ (x = EmptyString /\ is_int = false)).
Proof.
  unfold read_exponent_part. cbn [snd].
  destruct (peek_is "e" input || peek_is "E" input) eqn:E.
  - assert (Hc : exists c rest, input = String c rest
                  /\ has_fraction_or_exponent (chr c) = true).
    { destruct input as [|c rest]; [discriminate|]. exists c, rest.
      split; [reflexivity|]. simpl in *.
      destruct (Ascii.eqb c "e"), (Ascii.eqb c "E"), (Ascii.eqb c ".");
        simpl in *; congruence. }
    destruct Hc as (c & rest & -> & Hc).
    change (read_char (p, String c rest)) with (Ok (p ++ chr c, rest)).
    cbn [bind snd].
    destruct (peek_is "+" rest) eqn:E1;
      [ destruct (peek_is_true _ _ E1) as [rest' ->]
      | destruct (peek_is "-" rest) eqn:E2;
        [ destruct (peek_is_true _ _ E2) as [rest' ->] | ] ];
      cbn [orb read_char bind]; intros H.
    + destruct (exp_finish _ _ _ _ _ _ Hc H) as (x & r & H1 & H2 & -> & H3).
      exists x, r. auto.
    + destruct (exp_finish _ _ _ _ _ _ Hc H) as (x & r & H1 & H2 & -> & H3).
      exists x, r. auto.
    + rewrite <- (append_nil_r (p ++ chr c)) in H.
      destruct (exp_finish _ _ _ _ _ _ Hc H) as (x & r & H1 & H2 & -> & H3).
      exists x, r. auto.
  - intros [= <- <-]. exists EmptyString, input. rewrite append_nil_r.
    split; [reflexivity|]. split; [reflexivity|].
    destruct is_int; auto.
Qed.

(** What [lex_number] reads: a prefix of the input that starts with an
    optional minus sign and digits; nothing follows them when the literal
    is flagged as an integer, and otherwise what follows holds a point or
    an exponent letter. *)
Lemma lex_number_shape (input text rest : string) (is_int : bool) :
  lex_number input = Ok (text, is_int, rest) ->
  input = text ++ rest
  /\ exists sg ds x,
       (sg = EmptyString \/ sg = "-") /\ all_digits ds = true
       /\ ds <> EmptyString /\ text = sg ++ ds ++ x
       /\ (if is_int then x = EmptyString
           else has_fraction_or_exponent x = true).
Proof.
  unfold lex_number. intros H.
  match type of H with
  | bind ?e _ = _ => destruct e as [st1| |] eqn:E1; cbn [bind] in H; try discriminate
  end.
  destruct (sign_step _ _ _ E1) as (sg & r1 & Hsg & -> & ->).
  match type of H with
  | bind ?e _ = _ => destruct e as [st2| |] eqn:E2; cbn [bind] in H; try discriminate
  end.
  destruct (int_step _ _ _ E2) as (ds & r2 & Hds & Hne & -> & ->).
  match type of H with
  | bind ?e _ = _ => destruct e as [[st3 b3]| |] eqn:E3; cbn [bind] in H; try discriminate
  end.
  destruct (frac_step _ _ _ _ E3) as (x3 & r3 & -> & -> & H3).
  match type of H with
  | bind ?e _ = _ => destruct e as [[st4 b4]| |] eqn:E4; cbn [bind] in H; try discriminate
  end.
  destruct (exp_step _ _ _ _ _ E4) as (x4 & r4 & -> & -> & H4).
  cbn [fst snd] in H. injection H as <- <- <-.
  split; [now rewrite !append_assoc|].
  exists sg, ds, (x3 ++ x4). cbn [append]. rewrite !append_assoc.
  repeat (split; [assumption || reflexivity|]).
  destruct b4.
  - destruct H4 as [-> ->]. subst x3. reflexivity.
  - rewrite has_fraction_or_exponent_app.
    destruct H4 as [-> | [-> ->]]; [now rewrite orb_true_r|].
    now rewrite H3.
Qed.

End ReadingNumbers.

Section NumberClassification.
Import Parser NumberSpec.

Lemma skip_space_nonspace (c : ascii) (s : string) :
  isspace c = false -> Num.skip_space (String c s) = String c s.
Proof. simpl. now intros ->. Qed.

(** The three conversions on an integer-shaped literal: the digits are
    scanned to the value the text denotes. *)
Lemma int_shaped_scan (sg ds : string) :
  (sg = EmptyString \/ sg = "-") -> all_digits ds = true -> ds <> EmptyString ->
  exists n,
    Num.scan_sign (Num.skip_space (sg ++ ds))
    = (match sg with EmptyString => false | _ => true end, ds)
    /\ Num.scan_digits 0 0 ds = (Z.abs (literal_value (sg ++ ds)), S n, EmptyString)
    /\ literal_value (sg ++ ds)
       = (if match sg with EmptyString => false | _ => true end
          then - Z.abs (literal_value (sg ++ ds))
          else Z.abs (literal_value (sg ++ ds))).
Proof.
  intros Hsg Hds Hne.
  destruct (all_digits_uint ds Hds) as [u [Hu Hn]].
  destruct ds as [|c ds']; [congruence|].
  assert (Hc : isdigit c = true) by (simpl in Hds; now apply andb_true_iff in Hds).
  assert (Hscan : Num.scan_digits 0 0 (String c ds')
                  = (Z.of_uint u, S (String.length ds'), EmptyString)).
  { rewrite <- (append_nil_r (String c ds')), Hu.
    rewrite scan_digits_uint by reflexivity.
    rewrite Hn. unfold Z.of_uint. rewrite Unsigned.of_uint_alt. reflexivity. }
  assert (Hu' : NilZero.uint_of_string (String c ds') = Some u).
  { change (NilEmpty.uint_of_string (String c ds') = Some u).
    rewrite Hu. apply NilEmpty.usu. }
  assert (Hpos : 0 <= Z.of_uint u) by (unfold Z.of_uint; lia).
  exists (String.length ds').
  destruct Hsg as [-> | ->].
  - assert (Hlit : literal_value (String c ds') = Z.of_uint u).
    { unfold literal_value, NilZero.int_of_string.
      rewrite (isdigit_neq c "-" Hc eq_refl), Hu'. reflexivity. }
    cbn [append]. rewrite Hlit, Z.abs_eq by exact Hpos.
    rewrite skip_space_nonspace by (now apply isdigit_not_space).
    unfold Num.scan_sign.
    rewrite (isdigit_neq c "-" Hc eq_refl), (isdigit_neq c "+" Hc eq_refl).
    auto.
  - assert (Hlit : literal_value (String "-" (String c ds')) = - Z.of_uint u).
    { unfold literal_value, NilZero.int_of_string.
      change (Ascii.eqb "-" "-") with true. cbv iota. rewrite Hu'. reflexivity. }
    cbn [append]. rewrite Hlit, Z.abs_opp, Z.abs_eq by exact Hpos.
    auto.
Qed.

Lemma stoi_int_shaped (sg ds : string) :
  (sg = EmptyString \/ sg = "-") -> all_digits ds = true -> ds <> EmptyString ->
  Num.stoi (sg ++ ds)
  = if in_int_range (literal_value (sg ++ ds))
    then Some (literal_value (sg ++ ds)) else None.
Proof.
  intros Hsg Hds Hne.
  destruct (int_shaped_scan sg ds Hsg Hds Hne) as (n & H1 & H2 & H3).
  unfold Num.stoi. rewrite H1, H2, <- H3. reflexivity.
Qed.

Lemma stod_int_shaped (sg ds : string) (d : spec_float) :
  (sg = EmptyString \/ sg = "-") -> all_digits ds = true -> ds <> EmptyString ->
  literal_value (sg ++ ds) <> 0 ->
  Num.stod (sg ++ ds) = Some d ->
  d = nearest_double (literal_value (sg ++ ds)).
Proof.
  intros Hsg Hds Hne Hz.
  destruct (int_shaped_scan sg ds Hsg Hds Hne) as (n & H1 & H2 & H3).
  unfold Num.stod. rewrite H1, H2. cbn [Nat.add Z.of_nat Z.sub].
  set (neg := match sg with EmptyString => false | _ => true end) in *.
  destruct (Z.abs (literal_value (sg ++ ds))) as [|p|p] eqn:Ea; [lia| |lia].
  unfold Num.decimal_to_double. rewrite Z.sub_0_r. cbn [Z.leb Z.compare].
  change (Z.to_pos (10 ^ 0)) with 1%positive. rewrite Pos.mul_1_r.
  unfold nearest_double. rewrite H3.
  assert (Hn : binary_normalize prec emax (if neg then - Z.pos p else Z.pos p) 0 false
               = binary_round prec emax neg p 0) by (now destruct neg).
  rewrite Hn.
  destruct (binary_round prec emax neg p 0); try discriminate.
  destruct (_ && _); [discriminate|]. now intros [= <-].
Qed.

(** C3 (with the width of [int]): a literal that [LoadNumber] accepts
    gives a [Double] when it has a fraction or an exponent part; an
    integer-shaped one gives the [Int] of its value when the value fits in
    32 bits, and otherwise the [Double] nearest to its value.  The digit
    string one above the largest signed 64-bit integer gives the double
    2 ^ 63. *)
Theorem C3_number_classification (input rest : string) (v : Node) :
  LoadNumber input = Ok (v, rest) ->
  exists text,
    input = text ++ rest
    /\ (has_fraction_or_exponent text = true -> exists d, v = Double d)
    /\ (has_fraction_or_exponent text = false ->
        (in_int_range (literal_value text) = true -> v = Int (literal_value text))
        /\ (in_int_range (literal_value text) = false ->
            v = Double (nearest_double (literal_value text)))).
Proof.
  unfold LoadNumber. intros H.
  destruct (lex_number input) as [[[text is_int] rest']| |] eqn:E;
    cbn [bind] in H; try discriminate.
  destruct (convert_number text is_int) as [v'| |] eqn:Ec;
    cbn [bind] in H; try discriminate.
  injection H as -> ->.
  destruct (lex_number_shape _ _ _ _ E) as [Hin Hshape].
  exists text. split; [exact Hin|].
  unfold convert_number in Ec.
  destruct Hshape as (sg & ds & x & Hsg & Hds & Hne & -> & Hx).
  destruct is_int.
  - subst x. rewrite append_nil_r in *.
    assert (Hfe : has_fraction_or_exponent (sg ++ ds) = false).
    { rewrite has_fraction_or_exponent_app, (all_digits_no_mark ds Hds).
      now destruct Hsg as [-> | ->]. }
    rewrite Hfe. split; [discriminate|]. intros _.
    rewrite (stoi_int_shaped sg ds Hsg Hds Hne) in Ec.
    destruct (in_int_range (literal_value (sg ++ ds))) eqn:Er.
    + split; [|discriminate]. intros _. now injection Ec as <-.
    + split; [discriminate|]. intros _.
      destruct (Num.stod (sg ++ ds)) as [d|] eqn:Ed; [|discriminate].
      injection Ec as <-. f_equal.
      apply (stod_int_shaped sg ds d Hsg Hds Hne); [|exact Ed].
      intros Hz. rewrite Hz in Er. discriminate.
  - rewrite !has_fraction_or_exponent_app, Hx, !orb_true_r.
    split; [|discriminate]. intros _.
    destruct (Num.stod (sg ++ ds ++ x)) as [d|]; [|discriminate].
    injection Ec as <-. now exists d.
Qed.

Lemma C3_number_classification_witness :
  LoadNumber "9223372036854775808, 3e2]"
  = Ok (Double (S754_finite false 4503599627370496 11), ", 3e2]"%string)
  /\ literal_value "9223372036854775808" = 2 ^ 63
  /\ nearest_double (2 ^ 63) = S754_finite false 4503599627370496 11
  /\ 4503599627370496 * 2 ^ 11 = 2 ^ 63
  /\ exists text,
       "9223372036854775808, 3e2]"%string = text ++ ", 3e2]"
       /\ (has_fraction_or_exponent text = false ->
           in_int_range (literal_value text) = false ->
           Double (S754_finite false 4503599627370496 11)
           = Double (nearest_double (literal_value text))).
Proof.
  split; [reflexivity|]. split; [reflexivity|]. split; [reflexivity|].
  split; [reflexivity|].
  destruct (C3_number_classification "9223372036854775808, 3e2]" ", 3e2]"
              (Double (S754_finite false 4503599627370496 11)) eq_refl)
    as (text & H1 & _ & H3).
  exists text. split; [exact H1|]. intros Hfe. apply (H3 Hfe).
Defined.

(** C3 as stated fails: 2147483648 fits in the signed 64-bit range and is
    read as a [Double]. *)
Lemma C3_int64_literal_is_double :
  LoadNumber "2147483648"
  = Ok (Double (S754_finite false 4503599627370496 (-21)), EmptyString)
  /\ has_fraction_or_exponent "2147483648" = false
  /\ - 2 ^ 63 <= literal_value "2147483648" <= 2 ^ 63 - 1
  /\ forall i, LoadNumber "2147483648" <> Ok (Int i, EmptyString).
Proof.
  split; [reflexivity|]. split; [reflexivity|].
  split; [cbv; split; discriminate|].
  intros i. discriminate.
Qed.

End NumberClassification.

(** ** Decimal text, continued: the value of a run of digits *)

Section DigitRuns.
Import NumberSpec.

Lemma isdigit_value (c : ascii) :
  isdigit c = true ->
  0 <= digit_value c <= 9 /\ (c <> "0"%char -> 1 <= digit_value c).
Proof.
  destruct c as [[] [] [] [] [] [] [] []]; try discriminate; intros _;
    (split; [cbv; split; discriminate|]); intros H;
    solve [cbv; discriminate | now contradiction H].
Qed.

Lemma scan_digits_app (ds : string) :
  all_digits ds = true ->
  forall acc n rest,
    Num.scan_digits acc n (ds ++ rest)
    = Num.scan_digits (acc * 10 ^ Z.of_nat (String.length ds) + digits_value ds)
        (n + String.length ds) rest.
Proof.
  induction ds as [|c ds IH]; intros H acc n rest.
  - cbn [append String.length]. change (digits_value EmptyString) with 0.
    f_equal; [simpl; ring | lia].
  - simpl in H. apply andb_true_iff in H. destruct H as [Hc Hs].
    specialize (IH Hs).
    assert (Hv : digits_value (String c ds)
                 = digit_value c * 10 ^ Z.of_nat (String.length ds) + digits_value ds).
    { unfold digits_value at 1. simpl Num.scan_digits. rewrite Hc.
      rewrite <- (append_nil_r ds) at 1. rewrite IH. simpl. f_equal. }
    rewrite Hv. cbn [append Num.scan_digits String.length]. rewrite Hc, IH.
    rewrite Nat2Z.inj_succ, Z.pow_succ_r by lia.
    f_equal; [ring | lia].
Qed.

Lemma digits_value_cons (c : ascii) (ds : string) :
  isdigit c = true -> all_digits ds = true ->
  digits_value (String c ds)
  = digit_value c * 10 ^ Z.of_nat (String.length ds) + digits_value ds.
Proof.
  intros Hc Hs. unfold digits_value at 1. simpl Num.scan_digits. rewrite Hc.
  rewrite <- (append_nil_r ds) at 1. rewrite (scan_digits_app ds Hs).
  simpl. f_equal.
Qed.

Lemma digits_value_bounds (ds : string) :
  all_digits ds = true ->
  0 <= digits_value ds < 10 ^ Z.of_nat (String.length ds).
Proof.
  induction ds as [|c ds IH]; intros H.
  - cbv. split; [discriminate | reflexivity].
  - simpl in H. apply andb_true_iff in H. destruct H as [Hc Hs].
    rewrite (digits_value_cons c ds Hc Hs).
    destruct (isdigit_value c Hc) as [Hv _]. specialize (IH Hs).
    cbn [String.length]. rewrite Nat2Z.inj_succ, Z.pow_succ_r by lia.
    nia.
Qed.

Lemma digits_value_lower (c : ascii) (ds : string) :
  isdigit c = true -> all_digits ds = true -> c <> "0"%char ->
  10 ^ Z.of_nat (String.length ds) <= digits_value (String c ds).
Proof.
  intros Hc Hs H0. rewrite (digits_value_cons c ds Hc Hs).
  destruct (isdigit_value c Hc) as [_ Hv]. specialize (Hv H0).
  pose proof (digits_value_bounds ds Hs).
  assert (0 < 10 ^ Z.of_nat (String.length ds)) by (apply Z.pow_pos_nonneg; lia).
  nia.
Qed.

Lemma all_digits_app (a b : string) :
  all_digits (a ++ b) = all_digits a && all_digits b.
Proof.
  induction a as [|c a IH]; simpl; [reflexivity|].
  now rewrite IH, andb_assoc.
Qed.

Lemma all_digits_zeros (j : nat) : all_digits (Num.zeros j) = true.
Proof. induction j; simpl; auto. Qed.

Lemma length_zeros (j : nat) : String.length (Num.zeros j) = j.
Proof. induction j; simpl; auto. Qed.

Lemma digits_value_zeros (j : nat) : digits_value (Num.zeros j) = 0.
Proof.
  induction j as [|j IH]; [reflexivity|].
  change (Num.zeros (S j)) with (String "0" (Num.zeros j)).
  rewrite digits_value_cons, IH by (reflexivity || apply all_digits_zeros).
  reflexivity.
Qed.

Lemma string_of_uint_all_digits (u : uint) :
  all_digits (NilEmpty.string_of_uint u) = true.
Proof. induction u; simpl; auto. Qed.

Lemma length_string_of_uint (u : uint) :
  String.length (NilEmpty.string_of_uint u) = nb_digits u.
Proof. induction u; simpl; auto. Qed.

Lemma digits_value_uint (u : uint) :
  digits_value (NilEmpty.string_of_uint u) = Z.of_uint u.
Proof.
  unfold digits_value.
  rewrite <- (append_nil_r (NilEmpty.string_of_uint u)).
  rewrite scan_digits_uint by reflexivity. simpl.
  unfold Z.of_uint. now rewrite Unsigned.of_uint_alt.
Qed.

Lemma NilZero_NilEmpty (u : uint) :
  u <> Nil -> NilZero.string_of_uint u = NilEmpty.string_of_uint u.
Proof. destruct u; congruence || reflexivity. Qed.

Lemma to_uint_nonnil (n : N) : N.to_uint n <> Nil.
Proof.
  destruct n; [discriminate|]. apply Unsigned.to_uint_nonnil.
Qed.

Lemma to_uint_unorm (n : N) : unorm (N.to_uint n) = N.to_uint n.
Proof.
  rewrite <- DecimalN.Unsigned.to_of. now rewrite DecimalN.Unsigned.of_to.
Qed.

(** The text of a natural number: digits that denote it, with no zero in
    front when the number is positive. *)
Lemma print_uint_spec (z : Z) :
  0 <= z ->
  all_digits (Num.print_uint z) = true
  /\ digits_value (Num.print_uint z) = z
  /\ exists c r, Num.print_uint z = String c r
                 /\ (0 < z -> c <> "0"%char).
Proof.
  intros Hz. unfold Num.print_uint.
  set (u := N.to_uint (Z.to_N z)).
  assert (Hu : u <> Nil) by apply to_uint_nonnil.
  rewrite (NilZero_NilEmpty u Hu).
  split; [apply string_of_uint_all_digits|].
  split.
  - rewrite digits_value_uint. unfold Z.of_uint, u.
    change (Pos.of_uint (N.to_uint (Z.to_N z))) with (N.of_uint (N.to_uint (Z.to_N z))).
    rewrite DecimalN.Unsigned.of_to. lia.
  - assert (Hn : unorm u = u) by apply to_uint_unorm.
    assert (Hval : Z.of_uint u = z).
    { unfold Z.of_uint, u.
      change (Pos.of_uint (N.to_uint (Z.to_N z))) with (N.of_uint (N.to_uint (Z.to_N z))).
      rewrite DecimalN.Unsigned.of_to. lia. }
    destruct u as [|u'|u'|u'|u'|u'|u'|u'|u'|u'|u'] eqn:Eu; [congruence|..];
      simpl; eexists _, _; (split; [reflexivity|]); try discriminate.
    intros Hpos Hc. clear Hc.
    unfold unorm in Hn. simpl nzhead in Hn.
    destruct (nzhead u') eqn:En.
    + injection Hn as <-. cbv in Hval. lia.
    + exfalso. apply (nzhead_nonzero u' u0). congruence.
    + discriminate. + discriminate. + discriminate. + discriminate.
    + discriminate. + discriminate. + discriminate. + discriminate.
    + discriminate.
Qed.

(** The text of a number is the only run of digits that denotes it and
    does not start with a zero. *)
Lemma print_uint_unique (c : ascii) (r : string) (z : Z) :
  all_digits (String c r) = true -> c <> "0"%char ->
  digits_value (String c r) = z ->
  Num.print_uint z = String c r.
Proof.
  intros Hd Hc Hv.
  destruct (all_digits_uint _ Hd) as [u [Hu _]].
  assert (Hval : Z.of_uint u = z) by (now rewrite <- digits_value_uint, <- Hu).
  assert (Hn : unorm u = u).
  { destruct u; simpl in Hu; try reflexivity; try discriminate.
    injection Hu as Hu _. congruence. }
  unfold Num.print_uint. rewrite <- Hval. unfold Z.of_uint.
  rewrite N2Z.id.
  change (Pos.of_uint u) with (N.of_uint u).
  rewrite DecimalN.Unsigned.to_of, Hn.
  rewrite NilZero_NilEmpty; [now symmetry|].
  intros ->. discriminate.
Qed.

Lemma print_uint_shift (z : Z) (j : nat) :
  0 < z ->
  Num.print_uint (z * 10 ^ Z.of_nat j) = Num.print_uint z ++ Num.zeros j.
Proof.
  intros Hz.
  destruct (print_uint_spec z ltac:(lia)) as (Hd & Hv & c & r & E & Hc).
  rewrite E. cbn [append]. apply print_uint_unique.
  - change (String c (r ++ Num.zeros j)) with (String c r ++ Num.zeros j).
    rewrite all_digits_app, <- E, Hd. apply all_digits_zeros.
  - now apply Hc.
  - change (String c (r ++ Num.zeros j)) with (String c r ++ Num.zeros j).
    unfold digits_value. rewrite <- E.
    rewrite (scan_digits_app _ Hd).
    rewrite <- (append_nil_r (Num.zeros j)).
    rewrite (scan_digits_app _ (all_digits_zeros j)).
    simpl. rewrite Hv, digits_value_zeros, length_zeros. ring.
Qed.

Lemma print_uint_length (z : Z) (k : nat) :
  0 < z < 10 ^ Z.of_nat k ->
  (1 <= String.length (Num.print_uint z) <= k)%nat
  /\ z < 10 ^ Z.of_nat (String.length (Num.print_uint z)).
Proof.
  intros Hz.
  destruct (print_uint_spec z ltac:(lia)) as (Hd & Hv & c & r & E & Hc).
  pose proof (digits_value_bounds _ Hd) as Hb. rewrite Hv in Hb.
  split; [|lia].
  rewrite E in *. cbn [String.length]. split; [lia|].
  simpl in Hd. apply andb_true_iff in Hd. destruct Hd as [Hdc Hdr].
  pose proof (digits_value_lower c r Hdc Hdr (Hc ltac:(lia))) as Hl.
  rewrite Hv in Hl.
  assert (Z.of_nat (String.length r) < Z.of_nat k); [|lia].
  apply (Z.pow_lt_mono_r_iff 10); lia.
Qed.

End DigitRuns.

(** ** Writing numbers *)

Section WritingNumbers.
Import NumberSpec Printer.

Lemma substring_prefix (a b : string) :
  substring 0 (String.length a) (a ++ b) = a.
Proof. induction a as [|c a IH]; simpl; [now destruct b | now rewrite IH]. Qed.

Lemma substring_all (b : string) : substring 0 (String.length b) b = b.
Proof. induction b as [|c b IH]; simpl; [reflexivity | now rewrite IH]. Qed.

Lemma substring_suffix (a b : string) :
  substring (String.length a) (String.length b) (a ++ b) = b.
Proof. induction a as [|c a IH]; simpl; [apply substring_all | exact IH]. Qed.

Lemma strip_zeros_zeros (j : nat) : Num.strip_zeros (Num.zeros j) = EmptyString.
Proof. induction j as [|j IH]; simpl; [reflexivity | now rewrite IH]. Qed.

Lemma round_half_even_exact (a b : Z) :
  0 < b -> Num.round_half_even (a * b) b = a.
Proof.
  intros Hb. unfold Num.round_half_even.
  rewrite Z.mod_mul, Z.div_mul by lia.
  change (2 * 0) with 0. now rewrite (proj2 (Z.compare_lt_iff 0 b) Hb).
Qed.

Lemma print_int_sign (z : Z) :
  Num.print_int z
  = (if z <? 0 then "-" else EmptyString) ++ Num.print_uint (Z.abs z).
Proof. destruct z; reflexivity. Qed.

Lemma nb_digits_print_uint (z : Z) :
  nb_digits (N.to_uint (Z.to_N z)) = String.length (Num.print_uint z).
Proof.
  unfold Num.print_uint.
  rewrite NilZero_NilEmpty by apply to_uint_nonnil.
  now rewrite length_string_of_uint.
Qed.

(** The six-digit conversion of an integer below a million is the text
    of the integer. *)
Lemma format_g_integral (m : positive) (e z : Z) :
  0 < z < 10 ^ 6 -> mantissa_is_integer m e z ->
  Num.format_g m e = Num.print_uint z.
Proof.
  intros Hz Hm. unfold Num.format_g.
  set (num := if 0 <=? e then Z.pos m * 2 ^ e else Z.pos m).
  set (den := if 0 <=? e then 1 else 2 ^ (- e)).
  assert (Hden : 0 < den).
  { unfold den. destruct (0 <=? e) eqn:E; [lia|].
    apply Z.pow_pos_nonneg; lia. }
  assert (Hnum : num = z * den).
  { unfold num, den, mantissa_is_integer in *.
    destruct (0 <=? e); lia. }
  destruct (print_uint_length z 6 Hz) as [[Hk1 Hk6] Hup].
  set (k := String.length (Num.print_uint z)) in *.
  assert (HX : Num.floor_log10 num den = Z.of_nat k - 1).
  { unfold Num.floor_log10.
    rewrite (proj2 (Z.leb_le den num)) by nia.
    rewrite Hnum, Z.div_mul by lia. now rewrite nb_digits_print_uint. }
  rewrite HX.
  rewrite (proj2 (Z.leb_le (Z.of_nat k - 1) 5)) by lia.
  replace (5 - (Z.of_nat k - 1)) with (Z.of_nat (6 - k)) by lia.
  rewrite Hnum.
  replace (z * den * 10 ^ Z.of_nat (6 - k)) with (z * 10 ^ Z.of_nat (6 - k) * den) by ring.
  rewrite round_half_even_exact by exact Hden.
  assert (Hlt : z * 10 ^ Z.of_nat (6 - k) < 10 ^ 6).
  { assert (E6 : 10 ^ 6 = 10 ^ Z.of_nat k * 10 ^ Z.of_nat (6 - k)).
    { rewrite <- Z.pow_add_r by lia. f_equal. lia. }
    rewrite E6.
    apply Z.mul_lt_mono_pos_r; [apply Z.pow_pos_nonneg; lia | exact Hup]. }
  rewrite (proj2 (Z.eqb_neq _ _)) by lia.
  rewrite (proj2 (Z.ltb_ge _ _)) by lia.
  rewrite (proj2 (Z.leb_gt _ _)) by lia.
  rewrite (proj2 (Z.leb_le _ _)) by lia.
  cbn [orb].
  rewrite print_uint_shift by lia.
  replace (Z.to_nat (Z.of_nat k - 1 + 1)) with k by lia.
  replace (Z.to_nat (5 - (Z.of_nat k - 1))) with (String.length (Num.zeros (6 - k)))
    by (rewrite length_zeros; lia).
  unfold k. rewrite substring_prefix, substring_suffix, strip_zeros_zeros.
  reflexivity.
Qed.

(** C2 (what the code does instead): a [Double] is written with the
    default format of the stream, six significant digits without trailing
    zeros or a bare point.  A [Double] that has no fractional part and a
    magnitude below a million is therefore written exactly as the [Int] of
    the same value. *)
Theorem C2_integral_double_prints_as_int
    (s : bool) (m : positive) (e z : Z) (ctx : PrintContext) :
  0 < z < 10 ^ 6 -> mantissa_is_integer m e z ->
  PrintNode (Double (S754_finite s m e)) ctx
  = PrintNode (Int (if s then - z else z)) ctx.
Proof.
  intros Hz Hm. cbn [PrintNode]. unfold Num.print_double.
  rewrite (format_g_integral m e z Hz Hm), print_int_sign.
  destruct s.
  - rewrite (proj2 (Z.ltb_lt (- z) 0)) by lia. now rewrite Z.abs_opp, Z.abs_eq by lia.
  - rewrite (proj2 (Z.ltb_ge z 0)) by lia. now rewrite Z.abs_eq by lia.
Qed.

(** The double 3.0 and the integer 3 are both written as the digit 3. *)
Lemma C2_integral_double_prints_as_int_witness :
  PrintNode (Double (S754_finite false 6755399441055744 (-51)))
            {| indent_step := 4; indent := 0 |}
  = PrintNode (Int 3) {| indent_step := 4; indent := 0 |}.
Proof.
  apply (C2_integral_double_prints_as_int false 6755399441055744 (-51) 3).
  - split; reflexivity.
  - reflexivity.
Defined.

(** C2 as stated fails: the double 3.0, as [Load] gives it for the text
    3.0, is written as the bare integer literal 3. *)
Lemma C2_double_three_prints_as_3 :
  Parser.Load "3.0" = Ok (Double (S754_finite false 6755399441055744 (-51)))
  /\ Print (Double (S754_finite false 6755399441055744 (-51))) = "3"%string
  /\ Print (Int 3) = "3"%string
  /\ all_digits "3" = true.
Proof. repeat split; reflexivity. Qed.

End WritingNumbers.

(** ** A literal followed by more text *)

Section NumberFrames.
Import Parser NumberSpec RoundTrip.

Lemma value_end_peek (rest : string) :
  value_end rest = true ->
  peek_isdigit rest = false
  /\ forall c, c <> ","%char -> c <> LF -> peek_is c rest = false.
Proof.
  destruct rest as [|c' rest]; simpl; [intros _; split; auto|].
  intros H. apply orb_true_iff in H.
  destruct H as [H | H]; apply Ascii.eqb_eq in H; subst c';
    (split; [reflexivity|]); intros c H1 H2; apply Ascii.eqb_neq; congruence.
Qed.

Lemma frame_peek_is (c : ascii) (x rest : string) :
  peek_is c rest = false -> peek_is c (x ++ rest) = peek_is c x.
Proof. destruct x; simpl; auto. Qed.

Lemma frame_read_char (p x rest : string) (st : lexer) :
  read_char (p, x) = Ok st ->
  read_char (p, x ++ rest) = Ok (fst st, snd st ++ rest).
Proof. destruct x; simpl; [discriminate|]. now intros [= <-]. Qed.

Lemma frame_read_digits_loop (x rest : string) :
  peek_isdigit rest = false ->
  forall p,
    read_digits_loop p (x ++ rest)
    = (fst (read_digits_loop p x), snd (read_digits_loop p x) ++ rest).
Proof.
  intros Hr. induction x as [|c x IH]; intros p.
  - simpl. destruct rest as [|c rest]; [reflexivity|].
    simpl in *. now rewrite Hr.
  - simpl. destruct (isdigit c); [apply IH | reflexivity].
Qed.

Lemma frame_read_digits (p x rest : string) (st : lexer) :
  peek_isdigit rest = false ->
  read_digits (p, x) = Ok st ->
  read_digits (p, x ++ rest) = Ok (fst st, snd st ++ rest).
Proof.
  intros Hr. unfold read_digits.
  destruct x as [|c x]; [discriminate|]. cbn [append peek_isdigit].
  destruct (isdigit c) eqn:Ec; [|discriminate]. intros [= <-].
  change (String c (x ++ rest)) with (String c x ++ rest).
  now rewrite frame_read_digits_loop.
Qed.

Section WithRest.
Variable rest : string.
Hypothesis Hrest : value_end rest = true.

Lemma rest_not_digit : peek_isdigit rest = false.
Proof. exact (proj1 (value_end_peek rest Hrest)). Qed.

Lemma peek_rest (c : ascii) :
  Ascii.eqb c "," = false -> Ascii.eqb c LF = false -> peek_is c rest = false.
Proof.
  intros H1 H2. apply (proj2 (value_end_peek rest Hrest));
    now apply Ascii.eqb_neq.
Qed.

Lemma frame_read_sign (p x : string) (st : lexer) :
  read_sign (p, x) = Ok st ->
  read_sign (p, x ++ rest) = Ok (fst st, snd st ++ rest).
Proof.
  unfold read_sign. cbn [snd].
  rewrite frame_peek_is by (now apply peek_rest).
  destruct (peek_is "-" x); [apply frame_read_char | now intros [= <-]].
Qed.

Lemma frame_read_integer_part (p x : string) (st : lexer) :
  read_integer_part (p, x) = Ok st ->
  read_integer_part (p, x ++ rest) = Ok (fst st, snd st ++ rest).
Proof.
  unfold read_integer_part. cbn [snd].
  rewrite frame_peek_is by (now apply peek_rest).
  destruct (peek_is "0" x);
    [apply frame_read_char | apply frame_read_digits, rest_not_digit].
Qed.

Lemma frame_read_fraction_part (p x : string) (st : lexer) (b : bool) :
  read_fraction_part (p, x) = Ok (st, b) ->
  read_fraction_part (p, x ++ rest) = Ok ((fst st, snd st ++ rest), b).
Proof.
  unfold read_fraction_part. cbn [snd].
  rewrite frame_peek_is by (now apply peek_rest).
  destruct (peek_is "." x); [|now intros [= <- <-]].
  destruct (read_char (p, x)) as [[p1 x1]| |] eqn:E1; cbn [bind]; try discriminate.
  rewrite (frame_read_char _ _ _ _ E1). cbn [bind fst snd].
  destruct (read_digits (p1, x1)) as [[p2 x2]| |] eqn:E2; cbn [bind]; try discriminate.
  rewrite (frame_read_digits _ _ _ _ rest_not_digit E2). cbn [bind fst snd].
  now intros [= <- <-].
Qed.

Lemma frame_read_exponent_part (p x : string) (is_int : bool) (st : lexer) (b : bool) :
  read_exponent_part (p, x) is_int = Ok (st, b) ->
  read_exponent_part (p, x ++ rest) is_int = Ok ((fst st, snd st ++ rest), b).
Proof.
  unfold read_exponent_part. cbn [snd].
  rewrite !frame_peek_is by (now apply peek_rest).
  destruct (peek_is "e" x || peek_is "E" x); [|now intros [= <- <-]].
  destruct (read_char (p, x)) as [[p1 x1]| |] eqn:E1; cbn [bind]; try discriminate.
  rewrite (frame_read_char _ _ _ _ E1). cbn [bind fst snd].
  rewrite !frame_peek_is by (now apply peek_rest).
  destruct (peek_is "+" x1 || peek_is "-" x1).
  - destruct (read_char (p1, x1)) as [[p2 x2]| |] eqn:E2; cbn [bind]; try discriminate.
    rewrite (frame_read_char _ _ _ _ E2). cbn [bind fst snd].
    destruct (read_digits (p2, x2)) as [[p3 x3]| |] eqn:E3; cbn [bind]; try discriminate.
    rewrite (frame_read_digits _ _ _ _ rest_not_digit E3). cbn [bind fst snd].
    now intros [= <- <-].
  - cbn [bind].
    destruct (read_digits (p1, x1)) as [[p3 x3]| |] eqn:E3; cbn [bind]; try discriminate.
    rewrite (frame_read_digits _ _ _ _ rest_not_digit E3). cbn [bind fst snd].
    now intros [= <- <-].
Qed.

(** [lex_number] reads the same literal when a comma, a line feed or
    nothing follows it. *)
Lemma frame_lex_number (x text r : string) (b : bool) :
  lex_number x = Ok (text, b, r) ->
  lex_number (x ++ rest) = Ok (text, b, r ++ rest).
Proof.
  unfold lex_number.
  destruct (read_sign (EmptyString, x)) as [[p1 x1]| |] eqn:E1;
    cbn [bind]; try discriminate.
  rewrite (frame_read_sign _ _ _ E1). cbn [bind fst snd].
  destruct (read_integer_part (p1, x1)) as [[p2 x2]| |] eqn:E2;
    cbn [bind]; try discriminate.
  rewrite (frame_read_integer_part _ _ _ E2). cbn [bind fst snd].
  destruct (read_fraction_part (p2, x2)) as [[[p3 x3] b3]| |] eqn:E3;
    cbn [bind]; try discriminate.
  rewrite (frame_read_fraction_part _ _ _ _ E3). cbn [bind fst snd].
  destruct (read_exponent_part (p3, x3) b3) as [[[p4 x4] b4]| |] eqn:E4;
    cbn [bind]; try discriminate.
  rewrite (frame_read_exponent_part _ _ _ _ _ E4). cbn [bind fst snd].
  now intros [= <- <- <-].
Qed.

Lemma frame_LoadNumber (x r : string) (v : Node) :
  LoadNumber x = Ok (v, r) -> LoadNumber (x ++ rest) = Ok (v, r ++ rest).
Proof.
  unfold LoadNumber.
  destruct (lex_number x) as [[[text b] r']| |] eqn:E; cbn [bind]; try discriminate.
  rewrite (frame_lex_number _ _ _ _ E). cbn [bind].
  destruct (convert_number text b); cbn [bind]; try discriminate.
  now intros [= <- <-].
Qed.

End WithRest.

End NumberFrames.

(** ** Reading back what the writer wrote: the leaves *)

Section LeavesReadBack.
Import Parser Printer NumberSpec RoundTrip NodeOps.

Lemma SF_same_eq (x y : spec_float) : SF_same x y = true -> x = y.
Proof.
  destruct x, y; simpl; try discriminate; try reflexivity.
  - intros H. apply Bool.eqb_prop in H. congruence.
  - intros H. apply Bool.eqb_prop in H. congruence.
  - intros H. apply andb_true_iff in H. destruct H as [H H3].
    apply andb_true_iff in H. destruct H as [H1 H2].
    apply Bool.eqb_prop in H1. apply Pos.eqb_eq in H2. apply Z.eqb_eq in H3.
    congruence.
Qed.

(** A text that starts with a minus sign or a digit is read by
    [LoadNumber]. *)
Lemma LoadNode_number (fuel : nat) (c : ascii) (r : string) :
  c = "-"%char \/ isdigit c = true ->
  LoadNode (S fuel) (String c r) = LoadNumber (String c r).
Proof.
  intros Hc.
  assert (Hs : isspace c = false).
  { destruct Hc as [-> | Hc]; [reflexivity | now apply isdigit_not_space]. }
  assert (Hn : forall d, d <> "-"%char -> isdigit d = false -> Ascii.eqb c d = false).
  { intros d H1 H2. destruct Hc as [-> | Hc].
    - apply Ascii.eqb_neq. congruence.
    - now apply isdigit_neq. }
  cbn [LoadNode]. unfold extract. rewrite skip_space_nonspace by exact Hs.
  rewrite !Hn by (discriminate || reflexivity). reflexivity.
Qed.

Lemma LoadLiteral_stop (rest : string) :
  value_end rest = true -> LoadLiteral rest = (EmptyString, rest).
Proof.
  destruct rest as [|c rest]; simpl; [reflexivity|].
  intros H. apply orb_true_iff in H.
  destruct H as [H | H]; apply Ascii.eqb_eq in H; subst c; reflexivity.
Qed.

Lemma LoadNode_null (fuel : nat) (rest : string) :
  value_end rest = true ->
  LoadNode (S fuel) ("null" ++ rest) = Ok (Null, rest).
Proof.
  intros H. cbn. unfold LoadNull. cbn. now rewrite (LoadLiteral_stop rest H).
Qed.

Lemma LoadNode_bool (fuel : nat) (b : bool) (rest : string) :
  value_end rest = true ->
  LoadNode (S fuel) ((if b then "true" else "false") ++ rest) = Ok (Bool b, rest).
Proof.
  intros H. destruct b; cbn; unfold LoadBool; cbn;
    now rewrite (LoadLiteral_stop rest H).
Qed.

Lemma LoadNode_string (fuel : nat) (s rest : string) :
  LoadNode (S fuel) (PrintString s ++ rest) = Ok (Str s, rest).
Proof.
  unfold PrintString. rewrite !append_assoc. cbn.
  unfold LoadString.
  rewrite (LoadString_loop_decode _ _ (decode_escape s)). reflexivity.
Qed.

Lemma read_digits_loop_all (ds : string) :
  all_digits ds = true ->
  forall p, read_digits_loop p ds = (p ++ ds, EmptyString).
Proof.
  induction ds as [|c ds IH]; intros H p; simpl.
  - now rewrite append_nil_r.
  - simpl in H. apply andb_true_iff in H. destruct H as [Hc Hs].
    rewrite Hc, (IH Hs), append_assoc. reflexivity.
Qed.

Lemma literal_value_print_int (i : Z) :
  literal_value (Num.print_int i) = i.
Proof.
  unfold literal_value, Num.print_int.
  rewrite NilZero.isi.
  - apply DecimalZ.of_to.
  - destruct i; simpl; try discriminate.
    intros [= H]. now apply (Unsigned.to_uint_nonnil p).
  - destruct i; simpl; try discriminate.
    intros [= H]. now apply (Unsigned.to_uint_nonnil p).
Qed.

(** The text of an [int] is an integer-shaped literal. *)
Lemma print_int_shape (i : Z) :
  exists sg c r,
    Num.print_int i = sg ++ String c r
    /\ (sg = EmptyString \/ sg = "-") /\ all_digits (String c r) = true
    /\ (i <> 0 -> c <> "0"%char).
Proof.
  rewrite print_int_sign.
  destruct (print_uint_spec (Z.abs i) (Z.abs_nonneg i)) as (Hd & _ & c & r & E & Hc).
  exists (if i <? 0 then "-" else EmptyString), c, r. rewrite E in *.
  split; [reflexivity|]. split; [destruct (i <? 0); auto|].
  split; [exact Hd|]. intros Hi. apply Hc. lia.
Qed.

Lemma LoadNumber_print_int (i : Z) :
  in_int_range i = true -> LoadNumber (Num.print_int i) = Ok (Int i, EmptyString).
Proof.
  intros Hi.
  destruct (Z.eq_dec i 0) as [-> | Hnz]; [reflexivity|].
  destruct (print_int_shape i) as (sg & c & r & E & Hsg & Hd & Hc).
  specialize (Hc Hnz).
  assert (Hdc : isdigit c = true) by (simpl in Hd; now apply andb_true_iff in Hd).
  assert (Hlex : lex_number (Num.print_int i) = Ok (Num.print_int i, true, EmptyString)).
  { rewrite E. unfold lex_number.
    assert (E1 : read_sign (EmptyString, sg ++ String c r) = Ok (sg, String c r)).
    { unfold read_sign. destruct Hsg as [-> | ->]; cbn; [|reflexivity].
      now rewrite (isdigit_neq c "-" Hdc eq_refl). }
    rewrite E1. cbn [bind].
    assert (E2 : read_integer_part (sg, String c r) = Ok (sg ++ String c r, EmptyString)).
    { unfold read_integer_part, read_digits. cbn [snd peek_is peek_isdigit].
      rewrite (proj2 (Ascii.eqb_neq c "0") Hc), Hdc.
      now rewrite (read_digits_loop_all _ Hd). }
    rewrite E2. reflexivity. }
  unfold LoadNumber. rewrite Hlex. cbn [bind]. unfold convert_number.
  rewrite E.
  rewrite (stoi_int_shaped sg (String c r) Hsg Hd ltac:(discriminate)).
  rewrite <- E, literal_value_print_int, Hi. reflexivity.
Qed.

Lemma LoadNode_int (fuel : nat) (i : Z) (rest : string) :
  in_int_range i = true -> value_end rest = true ->
  LoadNode (S fuel) (Num.print_int i ++ rest) = Ok (Int i, rest).
Proof.
  intros Hi Hrest.
  destruct (print_int_shape i) as (sg & c & r & E & Hsg & Hd & _).
  assert (Hdc : isdigit c = true) by (simpl in Hd; now apply andb_true_iff in Hd).
  assert (Hhead : exists c' r', Num.print_int i = String c' r'
                                /\ (c' = "-"%char \/ isdigit c' = true)).
  { rewrite E. destruct Hsg as [-> | ->]; [exists c, r | exists "-"%char, (String c r)];
      auto. }
  destruct Hhead as (c' & r' & E' & Hc').
  pose proof (frame_LoadNumber rest Hrest _ _ _ (LoadNumber_print_int i Hi)) as H.
  rewrite E' in *. cbn [append] in *.
  now rewrite LoadNode_number.
Qed.

Lemma skip_space_app (x rest : string) (c : ascii) (r : string) :
  Num.skip_space x = String c r ->
  Num.skip_space (x ++ rest) = String c (r ++ rest).
Proof.
  induction x as [|c' x IH]; simpl; [discriminate|].
  destruct (isspace c'); [exact IH | now intros [= -> ->]].
Qed.

Lemma LoadString_loop_Str_le (n : nat) :
  forall it acc v rest,
    (String.length it <= n)%nat ->
    LoadString_loop acc it = Ok (v, rest) -> exists s, v = Str s.
Proof.
  induction n as [|n IH]; intros it acc v rest Hlen.
  - destruct it; [discriminate | simpl in Hlen; lia].
  - destruct it as [|ch it]; [discriminate|]. simpl in Hlen. cbn [LoadString_loop].
    destruct (Ascii.eqb ch QUOTE); [intros [= <- _]; eauto|].
    destruct (Ascii.eqb ch BACKSLASH).
    + destruct it as [|e it]; [discriminate|]. simpl in Hlen.
      repeat match goal with
      | |- context [if ?b then _ else _] => destruct b
      end; try discriminate; apply IH; lia.
    + destruct (_ || _); [discriminate|]. apply IH. lia.
Qed.

Lemma LoadString_loop_Str (it acc : string) (v : Node) (rest : string) :
  LoadString_loop acc it = Ok (v, rest) -> exists s, v = Str s.
Proof. apply (LoadString_loop_Str_le (String.length it)). lia. Qed.

(** What [double_reads_back] checks: the text starts, after white space
    at most, with a minus sign or a digit and is a literal that
    [LoadNumber] turns into the same double. *)
Lemma double_reads_back_spec (x : spec_float) :
  double_reads_back x = true ->
  exists c r,
    Num.skip_space (Num.print_double x) = String c r
    /\ (c = "-"%char \/ isdigit c = true)
    /\ LoadNumber (String c r) = Ok (Double x, EmptyString).
Proof.
  unfold double_reads_back. cbn [LoadNode]. unfold extract.
  destruct (Num.skip_space (Num.print_double x)) as [|c r]; [discriminate|].
  intros H. exists c, r. split; [reflexivity|].
  assert (Hnum : LoadNumber (String c r) = Ok (Double x, EmptyString)).
  { revert H. unfold putback, LoadString, LoadBool, LoadNull.
    repeat match goal with
    | |- context [if ?b then _ else _] => destruct b
    | |- context [let '(_, _) := ?p in _] => destruct p
    end; try discriminate.
    - destruct (LoadString_loop EmptyString r) as [[v s]| |] eqn:E;
        try discriminate.
      destruct (LoadString_loop_Str _ _ _ _ E) as [s' ->]. discriminate.
    - destruct (LoadNumber (String c r)) as [[v s]| |]; try discriminate.
      destruct v; try discriminate. destruct s; try discriminate.
      intros H. apply SF_same_eq in H. now subst. }
  split; [|exact Hnum].
  unfold LoadNumber in Hnum.
  destruct (lex_number (String c r)) as [[[text b] r']| |] eqn:E;
    cbn [bind] in Hnum; try discriminate.
  destruct (lex_number_shape _ _ _ _ E) as (Hin & sg & ds & y & Hsg & Hds & Hne & -> & _).
  destruct ds as [|c0 ds]; [congruence|].
  simpl in Hds. apply andb_true_iff in Hds. destruct Hds as [Hc0 _].
  destruct Hsg as [-> | ->]; cbn [append] in Hin; injection Hin as -> _; auto.
Qed.

Lemma LoadNode_double (fuel : nat) (x : spec_float) (rest : string) :
  double_reads_back x = true -> value_end rest = true ->
  LoadNode (S fuel) (Num.print_double x ++ rest) = Ok (Double x, rest).
Proof.
  intros Hx Hrest.
  destruct (double_reads_back_spec x Hx) as (c & r & Hs & Hc & Hnum).
  rewrite <- LoadNode_skip_space, (skip_space_app _ rest _ _ Hs).
  rewrite (LoadNode_number fuel c (r ++ rest) Hc).
  apply (frame_LoadNumber rest Hrest _ _ _ Hnum).
Qed.

End LeavesReadBack.

(** ** Reading back what the writer wrote: arrays and dictionaries *)

Section ContainersReadBack.
Import Parser Printer NumberSpec RoundTrip NodeOps.

(** Induction on a value, with the property for every element of an array
    and every entry of a dictionary *)
Lemma Node_induction (P : Node -> Prop) :
  P Null ->
  (forall a, Forall P a -> P (Arr a)) ->
  (forall d, Forall (fun kv => P (snd kv)) d -> P (Dict d)) ->
  (forall b, P (Bool b)) -> (forall i, P (Int i)) ->
  (forall x, P (Double x)) -> (forall s, P (Str s)) ->
  forall v, P v.
Proof.
  intros HN HA HD HB HI HX HS.
  fix IH 1. intros [ |a|d|b|i|x|s].
  - exact HN.
  - apply HA. induction a as [|v a IHa]; constructor; [apply IH | exact IHa].
  - apply HD. induction d as [|[k v] d IHd]; constructor; [apply IH | exact IHd].
  - apply HB.
  - apply HI.
  - apply HX.
  - apply HS.
Qed.

Lemma PrintNode_Arr (nodes : list Node) (ctx : PrintContext) :
  PrintNode (Arr nodes) ctx
  = "[" ++ chr LF ++ PrintArray_items ctx true nodes
    ++ chr LF ++ PrintIndent ctx ++ "]".
Proof.
  cbn [PrintNode]. do 2 f_equal. f_equal.
  match goal with
  | |- ?f true nodes = _ =>
      assert (H : forall first, f first nodes = PrintArray_items ctx first nodes);
      [|apply H]
  end.
  induction nodes as [|n nodes IH]; intros first; [reflexivity|].
  cbn [PrintArray_items]. now rewrite <- IH.
Qed.

Lemma PrintNode_Dict (nodes : list (string * Node)) (ctx : PrintContext) :
  PrintNode (Dict nodes) ctx
  = "{" ++ chr LF ++ PrintDict_items ctx true nodes
    ++ chr LF ++ PrintIndent ctx ++ "}".
Proof.
  cbn [PrintNode]. do 2 f_equal. f_equal.
  match goal with
  | |- ?f true nodes = _ =>
      assert (H : forall first, f first nodes = PrintDict_items ctx first nodes);
      [|apply H]
  end.
  induction nodes as [|[k n] nodes IH]; intros first; [reflexivity|].
  cbn [PrintDict_items]. now rewrite <- IH.
Qed.

Lemma skip_space_spaces (n : nat) (x : string) :
  Num.skip_space (spaces n ++ x) = Num.skip_space x.
Proof. induction n as [|n IH]; [reflexivity | exact IH]. Qed.

Lemma extract_skip_space (x : string) :
  extract (Num.skip_space x) = extract x.
Proof. unfold extract. now rewrite skip_space_idem. Qed.

Lemma LoadArray_loop_skip_space (fuel : nat) (acc : Array) (x : string) :
  LoadArray_loop fuel acc (Num.skip_space x) = LoadArray_loop fuel acc x.
Proof. destruct fuel; [reflexivity|]. cbn [LoadArray_loop]. now rewrite extract_skip_space. Qed.

Lemma LoadDict_loop_skip_space (fuel : nat) (acc : DictT) (x : string) :
  LoadDict_loop fuel acc (Num.skip_space x) = LoadDict_loop fuel acc x.
Proof. destruct fuel; [reflexivity|]. cbn [LoadDict_loop]. now rewrite extract_skip_space. Qed.

(** A text that [LoadNode] reads as a value starts, after white space,
    with a character other than a comma or a closing bracket. *)
Lemma LoadNode_Ok_head (fuel : nat) (x : string) (r : Node * string) :
  LoadNode fuel x = Ok r ->
  exists c s, Num.skip_space x = String c s
              /\ Ascii.eqb c "," = false /\ Ascii.eqb c "]" = false.
Proof.
  destruct fuel as [|fuel]; [discriminate|]. cbn [LoadNode]. unfold extract.
  destruct (Num.skip_space x) as [|c s]; [discriminate|].
  intros H. exists c, s. split; [reflexivity|].
  split; destruct (Ascii.eqb_spec c ","), (Ascii.eqb_spec c "]");
    try reflexivity; subst c; discriminate.
Qed.

Lemma PrintNode_nonempty (v : Node) (ctx : PrintContext) :
  doubles_read_back v = true -> (1 <= String.length (PrintNode v ctx))%nat.
Proof.
  destruct v as [ |a|d|b|i|x|s]; intros H.
  - simpl. lia.
  - rewrite PrintNode_Arr. simpl. lia.
  - rewrite PrintNode_Dict. simpl. lia.
  - destruct b; simpl; lia.
  - cbn [PrintNode]. destruct (print_int_shape i) as (sg & c & r & -> & _).
    rewrite length_append. simpl. lia.
  - cbn [PrintNode]. cbn [doubles_read_back] in H.
    destruct (double_reads_back_spec x H) as (c & r & Hs & _).
    destruct (Num.print_double x); [discriminate | simpl; lia].
  - simpl. lia.
Qed.

Ltac simpl_length :=
  repeat progress (rewrite ?length_append; cbn [String.length chr]).

Lemma value_end_items (ctx : PrintContext) (ns : list Node) (y : string) :
  value_end (PrintArray_items ctx false ns ++ chr LF ++ y) = true.
Proof. destruct ns; reflexivity. Qed.

Lemma value_end_entries (ctx : PrintContext) (ns : list (string * Node)) (y : string) :
  value_end (PrintDict_items ctx false ns ++ chr LF ++ y) = true.
Proof. destruct ns as [|[k n] ns]; reflexivity. Qed.

(** One turn of the loop of [LoadArray] on a written element *)
Lemma LoadArray_loop_item (ctx : PrintContext) (first : bool) (n : Node)
    (acc : Array) (R : string) (f : nat) :
  LoadNode f (PrintNode n (Indented ctx) ++ R) = Ok (n, R) ->
  LoadArray_loop (S f) acc
    (separator first ++ PrintIndent (Indented ctx)
     ++ PrintNode n (Indented ctx) ++ R)
  = LoadArray_loop f (acc ++ [n])%list R.
Proof.
  intros Helem.
  destruct (LoadNode_Ok_head _ _ _ Helem) as (c & s & Hs & Hc1 & Hc2).
  cbn [LoadArray_loop]. destruct first; cbn [separator append chr].
  - unfold extract, PrintIndent. rewrite skip_space_spaces, Hs, Hc2, Hc1.
    unfold putback. rewrite <- Hs, LoadNode_skip_space, Helem. reflexivity.
  - change (extract (String "," ?x)) with (Some (","%char, x)). cbv iota beta.
    change (Ascii.eqb "," "]") with false. change (Ascii.eqb "," ",") with true.
    cbv iota.
    rewrite <- LoadNode_skip_space. unfold PrintIndent.
    change (Num.skip_space (String LF ?x)) with (Num.skip_space x).
    rewrite skip_space_spaces, LoadNode_skip_space, Helem. reflexivity.
Qed.

Lemma LoadArray_items (ctx : PrintContext) (nodes : list Node) :
  Forall reads_back nodes ->
  forallb well_formed nodes = true ->
  forallb doubles_read_back nodes = true ->
  forall first acc rest fuel,
    (String.length (PrintArray_items ctx first nodes
                    ++ chr LF ++ PrintIndent ctx ++ "]") <= fuel)%nat ->
    LoadArray_loop fuel acc
      (PrintArray_items ctx first nodes ++ chr LF ++ PrintIndent ctx ++ "]" ++ rest)
    = Ok (Arr (acc ++ nodes)%list, rest).
Proof.
  induction 1 as [|n ns Hn Hns IH]; intros Hwf Hdb first acc rest fuel Hfuel.
  - cbn [PrintArray_items append] in *.
    destruct fuel as [|f]; [simpl in Hfuel; lia|].
    cbn [LoadArray_loop]. unfold extract, chr, PrintIndent. cbn [append].
    change (Num.skip_space (String LF ?x)) with (Num.skip_space x).
    rewrite skip_space_spaces. cbn. now rewrite List.app_nil_r.
  - cbn [forallb] in Hwf, Hdb.
    apply andb_true_iff in Hwf, Hdb. destruct Hwf as [Hwn Hwns], Hdb as [Hdn Hdns].
    cbn [PrintArray_items] in *. rewrite !append_assoc in *.
    pose proof (PrintNode_nonempty n (Indented ctx) Hdn) as Hne.
    rewrite !length_append in Hfuel. cbn [String.length chr] in Hfuel.
    destruct fuel as [|f]; [lia|].
    rewrite LoadArray_loop_item.
    + replace (acc ++ n :: ns)%list with ((acc ++ [n]) ++ ns)%list
        by (now rewrite <- List.app_assoc).
      apply IH; auto.
      simpl_length. lia.
    + apply Hn; auto; [apply value_end_items | lia].
Qed.

Lemma compare_refl (a : string) : String.compare a a = Eq.
Proof.
  induction a as [|c a IH]; [reflexivity|]. cbn [String.compare].
  unfold Ascii.compare. now rewrite N.compare_refl.
Qed.

Lemma ltb_compare (a b : string) :
  String.ltb a b = true -> String.compare b a = Gt /\ String.eqb b a = false.
Proof.
  unfold String.ltb. destruct (String.compare a b) eqn:E; try discriminate.
  intros _. split.
  - rewrite String.compare_antisym, E. reflexivity.
  - apply String.eqb_neq. intros ->.
    rewrite compare_refl in E. discriminate.
Qed.

(** In a map in key order, the key of an entry is not among the entries
    in front of it, and its place behind them is the last one. *)
Lemma sorted_app_entry (acc : DictT) (k : string) (n : Node) (ns : DictT) :
  Map.sorted (acc ++ (k, n) :: ns)%list = true ->
  Map.find k acc = None /\ Map.emplace k n acc = (acc ++ [(k, n)])%list.
Proof.
  intros H.
  assert (Hf : Map.find k acc = None
               /\ Map.insert_sorted k n acc = (acc ++ [(k, n)])%list).
  { induction acc as [|[k0 v0] acc IH]; [split; reflexivity|].
    cbn [app Map.sorted] in H. apply andb_true_iff in H. destruct H as [H1 H2].
    rewrite forallb_app in H1. apply andb_true_iff in H1. destruct H1 as [_ H1].
    cbn [forallb fst] in H1. apply andb_true_iff in H1. destruct H1 as [H1 _].
    destruct (ltb_compare _ _ H1) as [Hc He].
    destruct (IH H2) as [IH1 IH2].
    cbn [Map.find Map.insert_sorted app]. rewrite He, Hc, IH2. auto. }
  destruct Hf as [Hf1 Hf2]. split; [exact Hf1|].
  unfold Map.emplace. now rewrite Hf1.
Qed.

Lemma well_formed_Dict (d : DictT) :
  well_formed (Dict d)
  = Map.sorted d && forallb (fun kv => well_formed (snd kv)) d.
Proof.
  cbn [well_formed]. f_equal.
  induction d as [|[k n] d IH]; [reflexivity|]. cbn [forallb snd]. now rewrite <- IH.
Qed.

Lemma doubles_read_back_Dict (d : DictT) :
  doubles_read_back (Dict d) = forallb (fun kv => doubles_read_back (snd kv)) d.
Proof.
  cbn [doubles_read_back].
  induction d as [|[k n] d IH]; [reflexivity|]. cbn [forallb snd]. now rewrite <- IH.
Qed.

(** One turn of the loop of [LoadDict] on a written entry whose key is
    new *)
Lemma LoadDict_loop_entry (ctx : PrintContext) (key : string) (n : Node)
    (acc : DictT) (R : string) (f : nat) :
  Map.find key acc = None ->
  LoadNode f (PrintNode n (Indented ctx) ++ R) = Ok (n, R) ->
  LoadDict_loop (S f) acc
    (PrintIndent (Indented ctx) ++ PrintString key ++ ": "
     ++ PrintNode n (Indented ctx) ++ R)
  = LoadDict_loop f (Map.emplace key n acc) R.
Proof.
  intros Hfind Helem.
  unfold PrintString, PrintIndent. rewrite !append_assoc. cbn [append chr].
  set (X := escape key ++ _).
  assert (E1 : extract (spaces (indent (Indented ctx)) ++ String QUOTE X)
               = Some (QUOTE, X)).
  { unfold extract. now rewrite skip_space_spaces. }
  cbn [LoadDict_loop]. rewrite E1. cbv iota beta.
  change (Ascii.eqb QUOTE "}") with false. change (Ascii.eqb QUOTE QUOTE) with true.
  cbv iota. unfold LoadString, X.
  rewrite (LoadString_loop_decode _ _ (decode_escape key)).
  cbn [LoadString_loop append]. change (Ascii.eqb QUOTE QUOTE) with true.
  cbv iota. cbn [bind].
  change (extract (String ":" ?x)) with (Some (":"%char, x)). cbv iota beta.
  change (Ascii.eqb ":" ":") with true. cbv iota. rewrite Hfind.
  rewrite <- LoadNode_skip_space.
  change (Num.skip_space (String " " ?x)) with (Num.skip_space x).
  rewrite LoadNode_skip_space, Helem. reflexivity.
Qed.

(** The loop of [LoadDict] on written entries, followed by a text [T] on
    which the loop, with the entries stored, gives [r] *)
Lemma LoadDict_items_then (ctx : PrintContext) (nodes : list (string * Node)) :
  Forall (fun kv => reads_back (snd kv)) nodes ->
  forallb (fun kv => well_formed (snd kv)) nodes = true ->
  forallb (fun kv => doubles_read_back (snd kv)) nodes = true ->
  forall first acc T k r fuel,
    Map.sorted (acc ++ nodes)%list = true ->
    value_end T = true ->
    (forall f, (k <= f)%nat -> LoadDict_loop f (acc ++ nodes)%list T = r) ->
    (String.length (PrintDict_items ctx first nodes) + k <= fuel)%nat ->
    LoadDict_loop fuel acc (PrintDict_items ctx first nodes ++ T) = r.
Proof.
  induction 1 as [|[key n] ns Hn Hns IH];
    intros Hwf Hdb first acc T k r fuel Hsorted HT Hcont Hfuel.
  - cbn [PrintDict_items append String.length] in *.
    rewrite <- (List.app_nil_r acc). apply Hcont. lia.
  - cbn [forallb snd] in Hwf, Hdb. cbn [snd] in Hn.
    apply andb_true_iff in Hwf, Hdb. destruct Hwf as [Hwn Hwns], Hdb as [Hdn Hdns].
    destruct (sorted_app_entry _ _ _ _ Hsorted) as [Hfind Hemplace].
    cbn [PrintDict_items] in *. rewrite !append_assoc in *.
    pose proof (PrintNode_nonempty n (Indented ctx) Hdn) as Hne.
    rewrite !length_append in Hfuel. cbn [String.length chr] in Hfuel.
    assert (Hend : value_end (PrintDict_items ctx false ns ++ T) = true).
    { destruct ns as [|[k' n'] ns]; [exact HT | reflexivity]. }
    assert (Hturn : forall f,
      (String.length (PrintNode n (Indented ctx)) <= f)%nat ->
      (String.length (PrintDict_items ctx false ns) + k <= f)%nat ->
      LoadDict_loop (S f) acc
        (PrintIndent (Indented ctx) ++ PrintString key ++ ": "
         ++ PrintNode n (Indented ctx) ++ PrintDict_items ctx false ns ++ T)
      = r).
    { intros f Hf1 Hf2. rewrite LoadDict_loop_entry.
      - rewrite Hemplace. apply (IH Hwns Hdns false _ T k r f); auto.
        + now rewrite <- List.app_assoc.
        + intros f' Hf'. rewrite <- List.app_assoc. now apply Hcont.
      - exact Hfind.
      - apply Hn; auto. }
    destruct first; cbn [separator append chr] in *.
    + destruct fuel as [|f]; [lia|]. apply Hturn; lia.
    + cbn [String.length] in Hfuel. destruct fuel as [|f]; [lia|].
      cbn [LoadDict_loop].
      change (extract (String "," ?x)) with (Some (","%char, x)). cbv iota beta.
      change (Ascii.eqb "," "}") with false. change (Ascii.eqb "," QUOTE) with false.
      change (Ascii.eqb "," ",") with true. cbv iota. cbn [negb].
      rewrite <- LoadDict_loop_skip_space.
      change (Num.skip_space (String LF ?x)) with (Num.skip_space x).
      rewrite LoadDict_loop_skip_space.
      destruct f as [|f]; [lia|]. apply Hturn; lia.
Qed.

Lemma LoadDict_items (ctx : PrintContext) (nodes : list (string * Node)) :
  Forall (fun kv => reads_back (snd kv)) nodes ->
  forallb (fun kv => well_formed (snd kv)) nodes = true ->
  forallb (fun kv => doubles_read_back (snd kv)) nodes = true ->
  forall acc rest fuel,
    Map.sorted (acc ++ nodes)%list = true ->
    (String.length (PrintDict_items ctx true nodes
                    ++ chr LF ++ PrintIndent ctx ++ "}") <= fuel)%nat ->
    LoadDict_loop fuel acc
      (PrintDict_items ctx true nodes ++ chr LF ++ PrintIndent ctx ++ "}" ++ rest)
    = Ok (Dict (acc ++ nodes)%list, rest).
Proof.
  intros Hrb Hwf Hdb acc rest fuel Hsorted Hfuel.
  apply (LoadDict_items_then ctx nodes Hrb Hwf Hdb true acc _ 1%nat); auto.
  - intros [|f] Hf; [lia|].
    cbn [LoadDict_loop]. unfold extract, chr, PrintIndent. cbn [append].
    change (Num.skip_space (String LF ?x)) with (Num.skip_space x).
    rewrite skip_space_spaces. reflexivity.
  - revert Hfuel. simpl_length. lia.
Qed.

(** Every value reads back as it was written. *)
Lemma reads_back_all (v : Node) : reads_back v.
Proof.
  induction v as [ |a IH|d IH|b|i|x|s] using Node_induction;
    intros ctx rest fuel Hwf Hdb Hrest Hfuel.
  - destruct fuel; [simpl in Hfuel; lia|]. now apply LoadNode_null.
  - rewrite PrintNode_Arr in *. rewrite !append_assoc.
    rewrite !length_append in Hfuel. cbn [String.length] in Hfuel.
    destruct fuel as [|f]; [lia|].
    cbn [append LoadNode]. change (extract (String "[" ?x)) with (Some ("["%char, x)).
    cbv iota beta. change (Ascii.eqb "[" "[") with true. cbv iota.
    cbn [append chr]. rewrite <- LoadArray_loop_skip_space.
    change (Num.skip_space (String LF ?x)) with (Num.skip_space x).
    rewrite LoadArray_loop_skip_space.
    apply (LoadArray_items ctx a IH); auto.
    simpl_length. cbn [String.length chr] in *. lia.
  - rewrite PrintNode_Dict in *. rewrite !append_assoc.
    rewrite !length_append in Hfuel. cbn [String.length] in Hfuel.
    rewrite well_formed_Dict in Hwf. rewrite doubles_read_back_Dict in Hdb.
    apply andb_true_iff in Hwf. destruct Hwf as [Hsorted Hwf].
    destruct fuel as [|f]; [lia|].
    cbn [append LoadNode]. change (extract (String "{" ?x)) with (Some ("{"%char, x)).
    cbv iota beta. change (Ascii.eqb "{" "[") with false.
    change (Ascii.eqb "{" "{") with true. cbv iota.
    cbn [append chr]. rewrite <- LoadDict_loop_skip_space.
    change (Num.skip_space (String LF ?x)) with (Num.skip_space x).
    rewrite LoadDict_loop_skip_space.
    apply (LoadDict_items ctx d IH); auto.
    simpl_length. cbn [String.length chr] in *. lia.
  - cbn [PrintNode] in *. destruct fuel; [destruct b; simpl in Hfuel; lia|].
    now apply LoadNode_bool.
  - cbn [PrintNode] in *.
    pose proof (PrintNode_nonempty (Int i) ctx eq_refl) as Hne. cbn [PrintNode] in Hne.
    destruct fuel; [lia|]. now apply LoadNode_int.
  - cbn [PrintNode] in *.
    pose proof (PrintNode_nonempty (Double x) ctx Hdb) as Hne. cbn [PrintNode] in Hne.
    destruct fuel; [lia|]. now apply LoadNode_double.
  - cbn [PrintNode] in *. destruct fuel; [simpl in Hfuel; lia|].
    apply LoadNode_string.
Qed.

End ContainersReadBack.

(** ** The round trip *)

Section RoundTripTheorem.
Import Parser Printer NumberSpec RoundTrip NodeOps.

Lemma SFeqb_refl (x : spec_float) : x <> S754_nan -> SFeqb x x = true.
Proof.
  unfold SFeqb, SFcompare. destruct x as [s|s| |s m e]; try congruence; intros _;
    destruct s; rewrite ?Z.compare_refl, ?Pos.compare_cont_refl; reflexivity.
Qed.

(** [operator==] holds between a value without a NaN and itself. *)
Lemma Node_eqb_refl (v : Node) : doubles_read_back v = true -> Node_eqb v v = true.
Proof.
  induction v as [ |a IH|d IH|b|i|x|s] using Node_induction; intros H.
  - reflexivity.
  - cbn [Node_eqb doubles_read_back] in *.
    induction IH as [|v a Hv _ IHa]; [reflexivity|].
    cbn [forallb] in H. apply andb_true_iff in H. destruct H as [H1 H2].
    now rewrite (Hv H1), (IHa H2).
  - rewrite doubles_read_back_Dict in H. cbn [Node_eqb].
    induction IH as [|[k v] d Hv _ IHd]; [reflexivity|].
    cbn [forallb snd] in H. apply andb_true_iff in H. destruct H as [H1 H2].
    cbn [snd] in Hv. now rewrite String.eqb_refl, (Hv H1), (IHd H2).
  - cbn. now destruct b.
  - cbn. apply Z.eqb_refl.
  - cbn [Node_eqb]. apply SFeqb_refl. intros ->. discriminate.
  - cbn. apply String.eqb_refl.
Qed.

(** C1 (for the values whose doubles survive the six-digit format): a
    value whose every [Double] is written as a text that reads back as the
    same [Double] is read back from its written form as the same value;
    the two are equal under [operator==]. *)
Theorem C1_round_trip (v : Node) :
  well_formed v = true -> doubles_read_back v = true ->
  exists v', Load (Print v) = Ok v' /\ v' = v /\ Node_eqb v' v = true.
Proof.
  intros Hwf Hdb. exists v. split; [|split; [reflexivity | now apply Node_eqb_refl]].
  unfold Load, Print.
  set (ctx := {| indent_step := 4; indent := 0 |}).
  rewrite <- (append_nil_r (PrintNode v ctx)) at 2.
  rewrite (reads_back_all v ctx EmptyString _ Hwf Hdb eq_refl); [reflexivity | lia].
Qed.

(** An array with an integer, a string, a nested dictionary and the
    doubles 0.5 and 1e21 survives the round trip. *)
Lemma C1_round_trip_witness :
  let v := Arr [Int (-1); Str "two";
                Dict [("four"%string, Arr [Bool true; Bool false]);
                      ("three"%string, Null)];
                Double (S754_finite false 4503599627370496 (-53));
                Double (S754_finite false 7629394531250000 17)] in
  exists v', Load (Print v) = Ok v' /\ v' = v /\ Node_eqb v' v = true.
Proof.
  intros v. apply (C1_round_trip v); reflexivity.
Defined.

(** C1 as stated fails: the double 3.0, which [Load] gives for the text
    3.0, is written as 3 and read back as the integer 3, a different
    value. *)
Lemma C1_double_three_reads_back_as_int :
  Load "3.0" = Ok (Double (S754_finite false 6755399441055744 (-51)))
  /\ Print (Double (S754_finite false 6755399441055744 (-51))) = "3"%string
  /\ Load (Print (Double (S754_finite false 6755399441055744 (-51)))) = Ok (Int 3)
  /\ Node_eqb (Int 3) (Double (S754_finite false 6755399441055744 (-51))) = false.
Proof. repeat split; reflexivity. Qed.

End RoundTripTheorem.

(** ** The fuel of [Load] *)

Section Fuel.
Import Parser NumberSpec.

Lemma skip_space_length (x : string) :
  (String.length (Num.skip_space x) <= String.length x)%nat.
Proof.
  induction x as [|c x IH]; simpl; [lia|].
  destruct (isspace c); simpl; lia.
Qed.

Lemma extract_shorter (input : string) (c : ascii) (rest : string) :
  extract input = Some (c, rest) ->
  (String.length rest < String.length input)%nat.
Proof.
  intros H. apply extract_skip in H.
  pose proof (skip_space_length input) as Hl. rewrite H in Hl. simpl in Hl. lia.
Qed.

Lemma LoadString_loop_shorter_le (n : nat) :
  forall it acc,
    (String.length it <= n)%nat ->
    LoadString_loop acc it <> OutOfFuel
    /\ forall v rest, LoadString_loop acc it = Ok (v, rest) ->
                      (String.length rest < String.length it)%nat.
Proof.
  induction n as [|n IH]; intros it acc Hlen.
  - destruct it; [|simpl in Hlen; lia]. split; discriminate.
  - destruct it as [|ch it]; [split; discriminate|].
    simpl in Hlen. cbn [LoadString_loop String.length].
    destruct (Ascii.eqb ch QUOTE).
    { split; [discriminate|]. intros v rest [= _ <-]. lia. }
    destruct (Ascii.eqb ch BACKSLASH).
    + destruct it as [|e it]; [split; discriminate|]. simpl in Hlen.
      cbn [String.length].
      repeat match goal with
      | |- context [if ?b then _ else _] => destruct b
      end;
        try (split; discriminate);
        (match goal with
         | |- LoadString_loop ?a it <> _ /\ _ =>
             destruct (IH it a ltac:(lia)) as [H1 H2]
         end;
         split; [exact H1|]; intros v rest H; specialize (H2 v rest H); lia).
    + destruct (_ || _); [split; discriminate|].
      destruct (IH it (acc ++ chr ch) ltac:(lia)) as [H1 H2].
      split; [exact H1|]. intros v rest H. specialize (H2 v rest H). lia.
Qed.

Lemma LoadString_shorter (input : string) :
  LoadString input <> OutOfFuel
  /\ forall v rest, LoadString input = Ok (v, rest) ->
                    (String.length rest < String.length input)%nat.
Proof. apply (LoadString_loop_shorter_le (String.length input)). lia. Qed.

Lemma LoadLiteral_length (input : string) :
  String.length input
  = (String.length (fst (LoadLiteral input)) + String.length (snd (LoadLiteral input)))%nat.
Proof.
  induction input as [|c input IH]; [reflexivity|].
  cbn [LoadLiteral]. destruct (isalpha c); [|reflexivity].
  destruct (LoadLiteral input) as [s r]. cbn [fst snd String.length] in *. lia.
Qed.

Lemma LoadBool_shorter (input : string) :
  LoadBool input <> OutOfFuel
  /\ forall v rest, LoadBool input = Ok (v, rest) ->
                    (String.length rest < String.length input)%nat.
Proof.
  unfold LoadBool. pose proof (LoadLiteral_length input) as Hl.
  destruct (LoadLiteral input) as [s r]. cbn [fst snd] in Hl.
  destruct (String.eqb_spec s "true") as [-> | _];
    [|destruct (String.eqb_spec s "false") as [-> | _]];
    (split; [discriminate|]); intros v rest; try discriminate;
    intros [= _ <-]; simpl in Hl; lia.
Qed.

Lemma LoadNull_shorter (input : string) :
  LoadNull input <> OutOfFuel
  /\ forall v rest, LoadNull input = Ok (v, rest) ->
                    (String.length rest < String.length input)%nat.
Proof.
  unfold LoadNull. pose proof (LoadLiteral_length input) as Hl.
  destruct (LoadLiteral input) as [s r]. cbn [fst snd] in Hl.
  destruct (String.eqb_spec s "null") as [-> | _];
    (split; [discriminate|]); intros v rest; try discriminate;
    intros [= _ <-]; simpl in Hl; lia.
Qed.

Lemma read_digits_fuel (st : lexer) : read_digits st <> OutOfFuel.
Proof. unfold read_digits. destruct st. destruct (peek_isdigit _); discriminate. Qed.

Lemma read_char_fuel (st : lexer) : read_char st <> OutOfFuel.
Proof. unfold read_char. destruct st as [p [|c r]]; discriminate. Qed.

Lemma bind_fuel {A B : Type} (r : result A) (k : A -> result B) :
  r <> OutOfFuel -> (forall a, k a <> OutOfFuel) -> bind r k <> OutOfFuel.
Proof. destruct r; simpl; auto. discriminate. Qed.

Lemma lex_number_fuel (input : string) : lex_number input <> OutOfFuel.
Proof.
  unfold lex_number, read_sign, read_integer_part, read_fraction_part,
    read_exponent_part.
  repeat first
    [ apply bind_fuel; [|intros ?]
    | match goal with
      | |- (let '(_, _) := ?p in _) <> _ => destruct p
      | |- (if ?b then _ else _) <> _ => destruct b
      end
    | apply read_char_fuel | apply read_digits_fuel | discriminate ].
Qed.

Lemma LoadNumber_shorter (input : string) :
  LoadNumber input <> OutOfFuel
  /\ forall v rest, LoadNumber input = Ok (v, rest) ->
                    (String.length rest < String.length input)%nat.
Proof.
  unfold LoadNumber. split.
  - apply bind_fuel; [apply lex_number_fuel|]. intros [[text b] r].
    unfold convert_number.
    destruct (if b then _ else _); [discriminate|].
    destruct (Num.stod text); discriminate.
  - intros v rest H.
    destruct (lex_number input) as [[[text b] r]| |] eqn:E; cbn [bind] in H;
      try discriminate.
    destruct (convert_number text b); cbn [bind] in H; try discriminate.
    injection H as _ ->.
    destruct (lex_number_shape _ _ _ _ E) as (-> & sg & ds & x & _ & _ & Hne & -> & _).
    rewrite !length_append. destruct ds; [congruence | simpl; lia].
Qed.

(** Every successful read consumes some of the input. *)
Lemma Load_consumes (fuel : nat) :
  (forall input v rest,
     LoadNode fuel input = Ok (v, rest) ->
     (String.length rest < String.length input)%nat)
  /\ (forall acc input v rest,
        LoadArray_loop fuel acc input = Ok (v, rest) ->
        (String.length rest < String.length input)%nat)
  /\ (forall acc input v rest,
        LoadDict_loop fuel acc input = Ok (v, rest) ->
        (String.length rest < String.length input)%nat).
Proof.
  induction fuel as [|f (IHn & IHa & IHd)]; [repeat split; discriminate|].
  split; [|split].
  - intros input v rest. cbn [LoadNode].
    destruct (extract input) as [[c input']|] eqn:E; [|discriminate].
    apply extract_shorter in E. unfold putback.
    repeat match goal with
    | |- context [if ?b then _ else _] => destruct b
    end; intros H.
    + apply IHa in H. lia.
    + apply IHd in H. lia.
    + apply (proj2 (LoadString_shorter _)) in H. lia.
    + apply (proj2 (LoadBool_shorter _)) in H. simpl in H. lia.
    + apply (proj2 (LoadNull_shorter _)) in H. simpl in H. lia.
    + apply (proj2 (LoadNumber_shorter _)) in H. simpl in H. lia.
  - intros acc input v rest. cbn [LoadArray_loop].
    destruct (extract input) as [[c input']|] eqn:E; [|discriminate].
    apply extract_shorter in E.
    destruct (Ascii.eqb c "]"); [intros [= _ <-]; lia|].
    destruct (LoadNode f _) as [[node r1]| |] eqn:E1; cbn [bind]; try discriminate.
    apply IHn in E1. intros H. apply IHa in H.
    destruct (Ascii.eqb c ","); unfold putback in E1; simpl in E1; lia.
  - intros acc input v rest. cbn [LoadDict_loop].
    destruct (extract input) as [[c input']|] eqn:E; [|discriminate].
    apply extract_shorter in E.
    destruct (Ascii.eqb c "}"); [intros [= _ <-]; lia|].
    destruct (Ascii.eqb c QUOTE).
    + destruct (LoadString input') as [[k input1]| |] eqn:E1; cbn [bind];
        try discriminate.
      apply (proj2 (LoadString_shorter _)) in E1.
      destruct (extract input1) as [[c' input2]|] eqn:E2; [|discriminate].
      apply extract_shorter in E2.
      destruct (Ascii.eqb c' ":"); [|discriminate].
      destruct (Map.find _ acc); [discriminate|].
      destruct (LoadNode f input2) as [[node r1]| |] eqn:E3; cbn [bind];
        try discriminate.
      apply IHn in E3. intros H. apply IHd in H. lia.
    + destruct (negb _); [discriminate|]. intros H. apply IHd in H. lia.
Qed.

(** With twice the length of the input as fuel, no call runs out. *)
Lemma Load_fuel_suffices (fuel : nat) :
  (forall input,
     (2 * String.length input + 1 <= fuel)%nat ->
     LoadNode fuel input <> OutOfFuel)
  /\ (forall acc input,
        (2 * String.length input + 2 <= fuel)%nat ->
        LoadArray_loop fuel acc input <> OutOfFuel)
  /\ (forall acc input,
        (2 * String.length input + 2 <= fuel)%nat ->
        LoadDict_loop fuel acc input <> OutOfFuel).
Proof.
  induction fuel as [|f (IHn & IHa & IHd)]; [repeat split; intros; lia|].
  destruct (Load_consumes f) as (Cn & Ca & Cd).
  split; [|split].
  - intros input Hf. cbn [LoadNode].
    destruct (extract input) as [[c input']|] eqn:E; [|discriminate].
    apply extract_shorter in E. unfold putback.
    repeat match goal with
    | |- context [if ?b then _ else _] => destruct b
    end.
    + apply IHa. lia.
    + apply IHd. lia.
    + apply LoadString_shorter.
    + apply LoadBool_shorter.
    + apply LoadNull_shorter.
    + apply LoadNumber_shorter.
  - intros acc input Hf. cbn [LoadArray_loop].
    destruct (extract input) as [[c input']|] eqn:E; [|discriminate].
    apply extract_shorter in E.
    destruct (Ascii.eqb c "]"); [discriminate|].
    set (input'' := if Ascii.eqb c "," then input' else putback c input').
    assert (Hl : (String.length input'' <= String.length input)%nat).
    { unfold input'', putback. destruct (Ascii.eqb c ","); simpl; lia. }
    destruct (LoadNode f input'') as [[node r1]| |] eqn:E1; cbn [bind].
    + apply Cn in E1. apply IHa. lia.
    + discriminate.
    + exfalso. apply (IHn input''); [lia | exact E1].
  - intros acc input Hf. cbn [LoadDict_loop].
    destruct (extract input) as [[c input']|] eqn:E; [|discriminate].
    apply extract_shorter in E.
    destruct (Ascii.eqb c "}"); [discriminate|].
    destruct (Ascii.eqb c QUOTE).
    + destruct (LoadString input') as [[k input1]| |] eqn:E1; cbn [bind].
      * apply (proj2 (LoadString_shorter _)) in E1.
        destruct (extract input1) as [[c' input2]|] eqn:E2; [|discriminate].
        apply extract_shorter in E2.
        destruct (Ascii.eqb c' ":"); [|discriminate].
        destruct (Map.find _ acc); [discriminate|].
        destruct (LoadNode f input2) as [[node r1]| |] eqn:E3; cbn [bind].
        -- apply Cn in E3. apply IHd. lia.
        -- discriminate.
        -- exfalso. apply (IHn input2); [lia | exact E3].
      * discriminate.
      * exfalso. now apply (proj1 (LoadString_shorter input')).
    + destruct (negb _); [discriminate|]. apply IHd. lia.
Qed.

(** [Load] gives a document or throws: its fuel never runs out. *)
Lemma Load_fuel_enough (input : string) : Load input <> OutOfFuel.
Proof.
  unfold Load.
  destruct (LoadNode (2 * String.length input + 1) input) as [[root rest]| |] eqn:E;
    cbn [bind]; try discriminate.
  exfalso. apply (proj1 (Load_fuel_suffices _) input (le_n _)). exact E.
Qed.

End Fuel.

(** ** Duplicate keys *)

Section DuplicateKeys.
Import Parser Printer Text RoundTrip.

Lemma Forall_reads_back (nodes : list (string * Node)) :
  Forall (fun kv => reads_back (snd kv)) nodes.
Proof. apply Forall_forall. intros kv _. apply reads_back_all. Qed.

(** C6: the object with the key a twice is rejected with the message that
    names the key.  In general: the written form of any dictionary,
    followed by one more entry whose key is one of its keys, is rejected
    with that message, whatever follows the colon; this is so because in
    any turn of the loop of [LoadDict] a key that the dictionary under
    construction already holds, followed by a colon, throws before any
    value is read, and because a key that was stored stays in the
    dictionary, so that no later entry replaces it. *)
Theorem C6_duplicate_key_rejected :
  Load (json_text "{'a':1,'a':2}") = Throw "Duplicate key 'a' have been found"
  /\ (forall ctx nodes key node rest,
        well_formed (Dict nodes) = true ->
        doubles_read_back (Dict nodes) = true ->
        Map.find key nodes = Some node ->
        Load ("{" ++ chr LF ++ PrintDict_items ctx true nodes
              ++ separator false ++ PrintIndent (Indented ctx)
              ++ PrintString key ++ ": " ++ rest)
        = Throw ("Duplicate key '" ++ key ++ "' have been found"))
  /\ (forall fuel dict input input1 key rest rest2 node,
        extract input = Some (QUOTE, input1) ->
        LoadString input1 = Ok (Str key, rest) ->
        extract rest = Some (":"%char, rest2) ->
        Map.find key dict = Some node ->
        LoadDict_loop (S fuel) dict input
        = Throw ("Duplicate key '" ++ key ++ "' have been found"))
  /\ (forall key node dict, Map.find key (Map.emplace key node dict) <> None)
  /\ (forall key k node dict,
        Map.find key dict <> None ->
        Map.find key (Map.emplace k node dict) <> None).
Proof.
  assert (Hturn : forall fuel dict input input1 key rest rest2 node,
        extract input = Some (QUOTE, input1) ->
        LoadString input1 = Ok (Str key, rest) ->
        extract rest = Some (":"%char, rest2) ->
        Map.find key dict = Some node ->
        LoadDict_loop (S fuel) dict input
        = Throw ("Duplicate key '" ++ key ++ "' have been found")).
  { intros fuel dict input input1 key rest rest2 node H1 H2 H3 H4.
    simpl. rewrite H1. simpl. rewrite H2. simpl. rewrite H3. simpl.
    now rewrite H4. }
  split; [reflexivity|]. split; [|split; [exact Hturn|split]].
  - intros ctx nodes key node rest Hwf Hdb Hfind.
    rewrite well_formed_Dict in Hwf. rewrite doubles_read_back_Dict in Hdb.
    apply andb_true_iff in Hwf. destruct Hwf as [Hsorted Hwf].
    unfold Load. rewrite Load_fuel.
    set (T := separator false ++ PrintIndent (Indented ctx)
              ++ PrintString key ++ ": " ++ rest).
    set (items := PrintDict_items ctx true nodes).
    assert (Hloop : forall f,
      (String.length items + 3 <= f)%nat ->
      LoadDict_loop f [] (items ++ T)
      = Throw ("Duplicate key '" ++ key ++ "' have been found")).
    { intros f Hf.
      apply (LoadDict_items_then ctx nodes (Forall_reads_back nodes) Hwf Hdb
               true [] T 3%nat); auto.
      - intros [|f'] Hf'; [lia|]. unfold T. cbn [separator append chr].
        cbn [LoadDict_loop app].
        change (extract (String "," ?x)) with (Some (","%char, x)). cbv iota beta.
        change (Ascii.eqb "," "}") with false. change (Ascii.eqb "," QUOTE) with false.
        change (Ascii.eqb "," ",") with true. cbv iota. cbn [negb].
        destruct f' as [|f'']; [lia|].
        apply (Hturn f'' nodes _ (escape key ++ String QUOTE (": " ++ rest))
                 key (": " ++ rest) (" " ++ rest) node).
        + unfold extract, PrintIndent, PrintString.
          change (Num.skip_space (String LF ?x)) with (Num.skip_space x).
          rewrite skip_space_spaces, !append_assoc. reflexivity.
        + unfold LoadString.
          rewrite (LoadString_loop_decode _ _ (decode_escape key)). reflexivity.
        + reflexivity.
        + exact Hfind. }
    cbn [append LoadNode].
    change (extract (String "{" ?x)) with (Some ("{"%char, x)). cbv iota beta.
    change (Ascii.eqb "{" "[") with false. change (Ascii.eqb "{" "{") with true.
    cbv iota. cbn [chr append].
    rewrite <- LoadDict_loop_skip_space.
    change (Num.skip_space (String LF ?x)) with (Num.skip_space x).
    rewrite LoadDict_loop_skip_space.
    fold items. fold T. rewrite Hloop; [reflexivity|].
    cbn [String.length]. rewrite !length_append. unfold T.
    rewrite !length_append. cbn [separator String.length append chr]. lia.
  - apply find_emplace_same.
  - apply find_emplace_other.
Qed.

(** The dictionary of a and b, written, and one more entry for a *)
Lemma C6_duplicate_key_rejected_witness :
  Load (json_text "{
    'a': 1,
    'b': [

    ],
    'a': 2}")
  = Throw "Duplicate key 'a' have been found"
  /\ LoadDict_loop 1 [("a"%string, Int 1)] (json_text " 'a' : 2}")
     = Throw "Duplicate key 'a' have been found".
Proof.
  destruct C6_duplicate_key_rejected as (_ & H1 & H2 & _).
  split.
  - apply (H1 {| indent_step := 4; indent := 0 |}
              [("a"%string, Int 1); ("b"%string, Arr [])] "a"%string (Int 1)
              "2}"%string); reflexivity.
  - apply (H2 0%nat [("a"%string, Int 1)] (json_text " 'a' : 2}")
             (json_text "a' : 2}") "a"%string " : 2}"%string " 2}"%string (Int 1));
      reflexivity.
Defined.

End DuplicateKeys.

(** ** Building a value call by call *)

Section BuilderChains.
Import Builder Calls Chains RoundTrip.
#[local] Open Scope list_scope.

Lemma calls_of_Arr (a : list Node) :
  calls_of (Arr a) = CallStartArray :: calls_of_items a ++ [CallEndArray].
Proof. reflexivity. Qed.

Lemma calls_of_Dict (d : list (string * Node)) :
  calls_of (Dict d) = CallStartDict :: calls_of_entries d ++ [CallEndDict].
Proof. reflexivity. Qed.

Lemma run_app (c1 c2 : list call) (b : Builder) :
  run (c1 ++ c2) b = andThen (run c1 b) (run c2).
Proof.
  revert b. induction c1 as [|c c1 IH]; intros b; simpl; [reflexivity|].
  destruct (perform c b); simpl; [apply IH | reflexivity | reflexivity].
Qed.

Lemma GetCurValue_inv (b : Builder) (p : pointer) (x : Node) :
  GetCurValue b = Done (p, x) ->
  back (nodes_stack_ b) = Some p /\ deref (root_ b) p = Some x.
Proof.
  unfold GetCurValue. destruct (back (nodes_stack_ b)) as [q|]; [|discriminate].
  destruct (deref (root_ b) q) eqn:E; [|discriminate].
  intros [= -> ->]. now split.
Qed.

Lemma GetCurValue_intro (b : Builder) (p : pointer) (x : Node) :
  back (nodes_stack_ b) = Some p -> deref (root_ b) p = Some x ->
  GetCurValue b = Done (p, x).
Proof. unfold GetCurValue. now intros -> ->. Qed.

Lemma set_nth_ext (a : list Node) (i : nat) (f g : Node -> Node) :
  (forall n, nth_error a i = Some n -> f n = g n) -> set_nth a i f = set_nth a i g.
Proof.
  revert i. induction a as [|x a IH]; intros [|i] H; simpl; [reflexivity..| |].
  - now rewrite (H x eq_refl).
  - f_equal. apply IH. exact H.
Qed.

Lemma map_at_ext (key : string) (f g : Node -> Node) (d : DictT) :
  (forall n, Map.find key d = Some n -> f n = g n) -> map_at key f d = map_at key g d.
Proof.
  induction d as [|[k w] d IH]; intros H; simpl; [reflexivity|].
  simpl in H. destruct (String.eqb key k).
  - now rewrite (H w eq_refl).
  - f_equal. apply IH. exact H.
Qed.

Lemma set_nth_set_nth (a : list Node) (i : nat) (f g : Node -> Node) :
  set_nth (set_nth a i f) i g = set_nth a i (fun n => g (f n)).
Proof.
  revert i. induction a as [|x a IH]; intros [|i]; simpl; [reflexivity..|].
  now rewrite IH.
Qed.

Lemma map_at_map_at (key : string) (f g : Node -> Node) (d : DictT) :
  map_at key g (map_at key f d) = map_at key (fun n => g (f n)) d.
Proof.
  induction d as [|[k w] d IH]; simpl; [reflexivity|].
  destruct (String.eqb key k) eqn:E; simpl; rewrite E; [reflexivity|].
  now rewrite IH.
Qed.

(** A second write through the same pointer replaces the first. *)
Lemma store_store (root : Node) (p : pointer) (v w : Node) :
  store (store root p v) p w = store root p w.
Proof.
  revert root. induction p as [|s p IH]; intros root; simpl; [reflexivity|].
  destruct s as [i|key], root; simpl; try reflexivity; f_equal.
  - rewrite set_nth_set_nth. apply set_nth_ext. intros n _. apply IH.
  - rewrite map_at_map_at. apply map_at_ext. intros n _. apply IH.
Qed.

(** A write below a node is a write of the changed node. *)
Lemma store_app (root : Node) (p q : pointer) (x v : Node) :
  deref root p = Some x -> store root (p ++ q) v = store root p (store x q v).
Proof.
  revert root. induction p as [|s p IH]; intros root; simpl.
  - now intros [= ->].
  - destruct s as [i|key], root; try discriminate.
    + destruct (nth_error a i) as [n|] eqn:E; [|discriminate]. intros H.
      f_equal. apply set_nth_ext. intros n' Hn'.
      assert (n' = n) by congruence. subst n'. now apply IH.
    + destruct (Map.find key d) as [n|] eqn:E; [|discriminate]. intros H.
      f_equal. apply map_at_ext. intros n' Hn'.
      assert (n' = n) by congruence. subst n'. now apply IH.
Qed.

Lemma set_nth_last (a : list Node) (x : Node) (f : Node -> Node) :
  set_nth (a ++ [x]) (List.length a) f = a ++ [f x].
Proof. induction a as [|y a IH]; simpl; [reflexivity|]. now rewrite IH. Qed.

Lemma nth_error_last (a : list Node) (x : Node) :
  nth_error (a ++ [x]) (List.length a) = Some x.
Proof. rewrite nth_error_app2, Nat.sub_diag by lia. reflexivity. Qed.

(** A new key that is above every key of the map goes to its end. *)
Lemma insert_sorted_last (key : string) (v : Node) (d : DictT) :
  forallb (fun kv => String.ltb (fst kv) key) d = true ->
  Map.insert_sorted key v d = d ++ [(key, v)].
Proof.
  induction d as [|[k w] d IH]; simpl; [reflexivity|].
  intros H. apply andb_prop in H. destruct H as [H1 H2].
  unfold String.ltb in H1. rewrite String.compare_antisym.
  destruct (String.compare k key); try discriminate. simpl.
  now rewrite IH.
Qed.

Lemma find_above (key : string) (d : DictT) :
  forallb (fun kv => String.ltb (fst kv) key) d = true -> Map.find key d = None.
Proof.
  induction d as [|[k w] d IH]; simpl; [reflexivity|].
  intros H. apply andb_prop in H. destruct H as [H1 H2].
  destruct (String.eqb_spec key k) as [-> | _]; [|now apply IH].
  unfold String.ltb in H1. now rewrite compare_refl in H1.
Qed.

Lemma map_at_last (key : string) (f : Node -> Node) (x : Node) (d : DictT) :
  Map.find key d = None -> map_at key f (d ++ [(key, x)]) = d ++ [(key, f x)].
Proof.
  induction d as [|[k w] d IH]; simpl.
  - now rewrite String.eqb_refl.
  - destruct (String.eqb key k); [discriminate|]. intros H. now rewrite IH.
Qed.

(** In a map in key order, the keys in front of an entry are below its key. *)
Lemma sorted_prefix_below (acc : DictT) (k : string) (n : Node) (rest : DictT) :
  Map.sorted (acc ++ (k, n) :: rest) = true ->
  forallb (fun kv => String.ltb (fst kv) k) acc = true.
Proof.
  induction acc as [|[k' w] acc IH]; simpl; [reflexivity|].
  intros H. apply andb_prop in H. destruct H as [H1 H2].
  rewrite forallb_app in H1. apply andb_prop in H1. destruct H1 as [_ H1].
  simpl in H1. apply andb_prop in H1. destruct H1 as [H1 _].
  rewrite H1. simpl. now apply IH.
Qed.

Lemma find_last (key : string) (x : Node) (d : DictT) :
  Map.find key d = None -> Map.find key (d ++ [(key, x)]) = Some x.
Proof.
  induction d as [|[k w] d IH]; simpl.
  - now rewrite String.eqb_refl.
  - destruct (String.eqb key k); [discriminate | exact IH].
Qed.

Lemma Builder_eta (b : Builder) :
  {| root_ := root_ b; nodes_stack_ := nodes_stack_ b |} = b.
Proof. now destruct b. Qed.

(** The items of an array, one chain after the other, go behind the items
    that the current array holds. *)
Lemma run_items (items : list Node) :
  Forall spells items -> forallb well_formed items = true ->
  forall (b : Builder) (p : pointer) (acc : list Node),
    back (nodes_stack_ b) = Some p ->
    deref (root_ b) p = Some (Arr acc) ->
    run (calls_of_items items) b
    = Done {| root_ := store (root_ b) p (Arr (acc ++ items));
              nodes_stack_ := nodes_stack_ b |}.
Proof.
  induction items as [|n items IH]; intros HF Hwf b p acc Hb Hd.
  - simpl. rewrite List.app_nil_r, (store_same _ _ _ Hd). now rewrite Builder_eta.
  - inversion HF as [|? ? Hn HF']; subst.
    simpl in Hwf. apply andb_prop in Hwf. destruct Hwf as [Hwn Hwf].
    cbn [calls_of_items]. rewrite run_app.
    rewrite (proj1 (Hn Hwn b p Hb) acc Hd). cbn [andThen].
    rewrite (IH HF' Hwf _ p (acc ++ [n])); cbn [root_ nodes_stack_].
    + now rewrite store_store, <- List.app_assoc.
    + exact Hb.
    + apply (deref_store _ _ _ _ Hd).
Qed.

(** The entries of a dictionary in key order, each as [Key] and the chain
    of its value, go behind the entries that the current dictionary holds. *)
Lemma run_entries (entries : list (string * Node)) :
  Forall (fun kv => spells (snd kv)) entries ->
  forallb (fun kv => well_formed (snd kv)) entries = true ->
  forall (b : Builder) (p : pointer) (acc : DictT),
    Map.sorted (acc ++ entries) = true ->
    back (nodes_stack_ b) = Some p ->
    deref (root_ b) p = Some (Dict acc) ->
    run (calls_of_entries entries) b
    = Done {| root_ := store (root_ b) p (Dict (acc ++ entries));
              nodes_stack_ := nodes_stack_ b |}.
Proof.
  induction entries as [|[k n] entries IH]; intros HF Hwf b p acc Hs Hb Hd.
  - simpl. rewrite List.app_nil_r, (store_same _ _ _ Hd). now rewrite Builder_eta.
  - inversion HF as [|? ? Hn HF']; subst. cbn [snd] in Hn.
    simpl in Hwf. apply andb_prop in Hwf. destruct Hwf as [Hwn Hwf].
    pose proof (sorted_prefix_below _ _ _ _ Hs) as Hbelow.
    pose proof (find_above _ _ Hbelow) as Hfind.
    cbn [calls_of_entries run perform]. unfold Key.
    rewrite (GetCurValue_intro _ _ _ Hb Hd). cbn [andThen].
    unfold Map.subscript, Map.emplace. rewrite Hfind, (insert_sorted_last _ _ _ Hbelow).
    rewrite run_app.
    set (b1 := {| root_ := store (root_ b) p (Dict (acc ++ [(k, Null)]));
                  nodes_stack_ := push_back (nodes_stack_ b) (p ++ [AtKey k]) |}).
    assert (Hd1 : deref (root_ b1) p = Some (Dict (acc ++ [(k, Null)]))).
    { apply (deref_store _ _ _ _ Hd). }
    assert (Hd1' : deref (root_ b1) (p ++ [AtKey k]) = Some Null).
    { rewrite deref_app, Hd1. simpl. now rewrite (find_last _ _ _ Hfind). }
    rewrite (proj2 (Hn Hwn b1 (p ++ [AtKey k]) (back_push_back _ _)) Hd1').
    cbn [andThen]. unfold b1 at 2. cbn [nodes_stack_]. rewrite pop_back_push_back.
    rewrite (store_app _ _ _ _ _ Hd1). unfold b1. cbn [root_ store].
    rewrite store_store, (map_at_last _ _ _ _ Hfind).
    rewrite (IH HF' Hwf _ p (acc ++ [(k, n)])); cbn [root_ nodes_stack_].
    + now rewrite store_store, <- List.app_assoc.
    + now rewrite <- List.app_assoc.
    + exact Hb.
    + apply (deref_store _ _ _ _ Hd).
Qed.

Lemma spells_scalar (v : Node) :
  calls_of v = [CallValue v] -> spells v.
Proof.
  intros E _ b p Hb. rewrite E. cbn [run perform]. unfold Value, AddObject.
  split; [intros a Hd | intros Hd]; now rewrite (GetCurValue_intro _ _ _ Hb Hd).
Qed.

Lemma spells_all (v : Node) : spells v.
Proof.
  induction v as [ |a IH|d IH|x|i|x|s] using Node_induction;
    try (apply spells_scalar; reflexivity).
  - (* an array *)
    intros Hwf b p Hb. cbn [well_formed] in Hwf.
    rewrite calls_of_Arr. cbn [run perform]. unfold StartArray, AddObject.
    split; [intros a0 Hd | intros Hd]; rewrite (GetCurValue_intro _ _ _ Hb Hd);
      cbn [andThen]; rewrite run_app.
    + set (p1 := p ++ [AtIndex (List.length a0)]).
      set (b1 := {| root_ := store (root_ b) p (Arr (a0 ++ [Arr []]));
                    nodes_stack_ := push_back (nodes_stack_ b) p1 |}).
      assert (Hd1 : deref (root_ b1) p = Some (Arr (a0 ++ [Arr []]))).
      { apply (deref_store _ _ _ _ Hd). }
      assert (Hd1' : deref (root_ b1) p1 = Some (Arr [])).
      { unfold p1. rewrite deref_app, Hd1. simpl. now rewrite nth_error_last. }
      rewrite (run_items a IH Hwf b1 p1 [] (back_push_back _ _) Hd1').
      cbn [andThen run perform app]. unfold EndArray.
      rewrite (GetCurValue_intro _ p1 (Arr a)).
      * cbn [andThen root_ nodes_stack_]. unfold b1 at 2. cbn [nodes_stack_].
        rewrite pop_back_push_back. unfold p1.
        rewrite (store_app _ _ _ _ _ Hd1). unfold b1. cbn [root_ store].
        now rewrite store_store, set_nth_last.
      * apply back_push_back.
      * cbn [root_]. apply (deref_store _ _ _ _ Hd1').
    + set (b1 := {| root_ := store (root_ b) p (Arr []);
                    nodes_stack_ := nodes_stack_ b |}).
      assert (Hd1 : deref (root_ b1) p = Some (Arr [])).
      { apply (deref_store _ _ _ _ Hd). }
      rewrite (run_items a IH Hwf b1 p [] Hb Hd1).
      cbn [andThen run perform app]. unfold EndArray.
      rewrite (GetCurValue_intro _ p (Arr a)).
      * cbn [andThen root_ nodes_stack_]. unfold b1. cbn [root_ nodes_stack_].
        now rewrite store_store.
      * exact Hb.
      * cbn [root_]. apply (deref_store _ _ _ _ Hd1).
  - (* a dictionary *)
    intros Hwf b p Hb. rewrite well_formed_Dict in Hwf.
    apply andb_prop in Hwf. destruct Hwf as [Hs Hwf].
    rewrite calls_of_Dict. cbn [run perform]. unfold StartDict, AddObject.
    split; [intros a0 Hd | intros Hd]; rewrite (GetCurValue_intro _ _ _ Hb Hd);
      cbn [andThen]; rewrite run_app.
    + set (p1 := p ++ [AtIndex (List.length a0)]).
      set (b1 := {| root_ := store (root_ b) p (Arr (a0 ++ [Dict []]));
                    nodes_stack_ := push_back (nodes_stack_ b) p1 |}).
      assert (Hd1 : deref (root_ b1) p = Some (Arr (a0 ++ [Dict []]))).
      { apply (deref_store _ _ _ _ Hd). }
      assert (Hd1' : deref (root_ b1) p1 = Some (Dict [])).
      { unfold p1. rewrite deref_app, Hd1. simpl. now rewrite nth_error_last. }
      rewrite (run_entries d IH Hwf b1 p1 [] Hs (back_push_back _ _) Hd1').
      cbn [andThen run perform app]. unfold EndDict.
      rewrite (GetCurValue_intro _ p1 (Dict d)).
      * cbn [andThen root_ nodes_stack_]. unfold b1 at 2. cbn [nodes_stack_].
        rewrite pop_back_push_back. unfold p1.
        rewrite (store_app _ _ _ _ _ Hd1). unfold b1. cbn [root_ store].
        now rewrite store_store, set_nth_last.
      * apply back_push_back.
      * cbn [root_]. apply (deref_store _ _ _ _ Hd1').
    + set (b1 := {| root_ := store (root_ b) p (Dict []);
                    nodes_stack_ := nodes_stack_ b |}).
      assert (Hd1 : deref (root_ b1) p = Some (Dict [])).
      { apply (deref_store _ _ _ _ Hd). }
      rewrite (run_entries d IH Hwf b1 p [] Hs Hb Hd1).
      cbn [andThen run perform app]. unfold EndDict.
      rewrite (GetCurValue_intro _ p (Dict d)).
      * cbn [andThen root_ nodes_stack_]. unfold b1. cbn [root_ nodes_stack_].
        now rewrite store_store.
      * exact Hb.
      * cbn [root_]. apply (deref_store _ _ _ _ Hd1).
Qed.

(** The first call of a chain adds an object like [Value] does. *)
Lemma calls_of_head (v : Node) :
  exists (c : call) (rest : list call) (x : Node) (single : bool),
    calls_of v = c :: rest /\ forall b, perform c b = AddObject x single b.
Proof.
  destruct v;
    [ exists (CallValue Null), [], Null, true
    | exists CallStartArray, (calls_of_items a ++ [CallEndArray]), (Arr []), false
    | exists CallStartDict, (calls_of_entries d ++ [CallEndDict]), (Dict []), false
    | exists (CallValue (Bool b)), [], (Bool b), true
    | exists (CallValue (Int i)), [], (Int i), true
    | exists (CallValue (Double x)), [], (Double x), true
    | exists (CallValue (Str s)), [], (Str s), true ];
    split; reflexivity.
Qed.

(** X1: for a value of the C++ type (maps in key order), the chain of
    calls that spells it out ([StartArray] or [StartDict], the items in
    order, each entry after its [Key], then [EndArray] or [EndDict]) leaves
    every builder in the state that the single call [Value(v)] leaves it in,
    and throws what that call throws; on a fresh builder the chain followed
    by [Build] returns the value itself. *)
Theorem chain_of_calls_is_Value (v : Node) (b : Builder) :
  well_formed v = true ->
  run (calls_of v) b = Value v b
  /\ andThen (run (calls_of v) create) Build = Done v.
Proof.
  intros Hwf. split.
  - unfold Value, AddObject.
    destruct (GetCurValue b) as [[p x]|msg|] eqn:E.
    + destruct (GetCurValue_inv _ _ _ E) as [Hb Hd].
      destruct x;
        try (destruct (calls_of_head v) as (c & rest & y & single & -> & Hc);
             cbn [run]; rewrite Hc; unfold AddObject; rewrite E; reflexivity).
      * exact (proj2 (spells_all v Hwf b p Hb) Hd).
      * exact (proj1 (spells_all v Hwf b p Hb) a Hd).
    + destruct (calls_of_head v) as (c & rest & y & single & -> & Hc).
      cbn [run]. rewrite Hc. unfold AddObject. now rewrite E.
    + destruct (calls_of_head v) as (c & rest & y & single & -> & Hc).
      cbn [run]. rewrite Hc. unfold AddObject. now rewrite E.
  - rewrite (proj2 (spells_all v Hwf create [] eq_refl) eq_refl). reflexivity.
Qed.

(** A dictionary with a nested array, spelt out inside an open array *)
Lemma chain_of_calls_is_Value_witness :
  let v := Dict [("a"%string, Arr [Int 1; Null]); ("b"%string, Str "x")] in
  let b := {| root_ := Arr [Bool true]; nodes_stack_ := [ [] ] |} in
  run [CallStartDict; CallKey "a"; CallStartArray; CallValue (Int 1);
       CallValue Null; CallEndArray; CallKey "b"; CallValue (Str "x");
       CallEndDict] b
  = Done {| root_ := Arr [Bool true; v]; nodes_stack_ := [ [] ] |}
  /\ andThen (run (calls_of v) create) Build = Done v.
Proof.
  intros v b.
  destruct (chain_of_calls_is_Value v b eq_refl) as [H1 H2].
  split; [exact H1 | exact H2].
Defined.

Lemma perform_not_Dangling (c : call) (b : Builder) :
  stack_ok b -> perform c b <> Dangling.
Proof.
  intros Hok.
  destruct (GetCurValue_ok b Hok) as [[_ E] | [p [v [_ [_ E]]]]];
    destruct c; simpl;
    unfold Key, Value, StartDict, EndDict, StartArray, EndArray, AddObject;
    rewrite E; try discriminate; destruct v; discriminate.
Qed.

(** X2: after any chain of calls on a fresh builder that has not thrown,
    [nodes_stack_] is empty (the document is finished) or it is the chain
    of pointers from the root down to the current node, each of them a node
    of the tree; no call of such a chain goes through a pointer that
    addresses nothing. *)
Theorem stack_is_chain_of_ancestors (calls : list call) :
  run calls create <> Dangling
  /\ forall b, run calls create = Done b -> stack_ok b.
Proof.
  split.
  - assert (H : forall b, stack_ok b -> run calls b <> Dangling).
    { induction calls as [|c calls IH]; intros b Hok; simpl; [discriminate|].
      destruct (perform c b) as [b1| |] eqn:E; simpl.
      - apply IH. now apply (stack_ok_perform c b).
      - discriminate.
      - now destruct (perform_not_Dangling c b Hok). }
    apply H, stack_ok_create.
  - intros b. apply stack_ok_run, stack_ok_create.
Qed.

(** Inside a dictionary inside an array, behind a [Key] call *)
Lemma stack_is_chain_of_ancestors_witness :
  let calls := [CallStartArray; CallStartDict; CallKey "k"] in
  let b := {| root_ := Arr [Dict [("k"%string, Null)]];
              nodes_stack_ := [ []; [AtIndex 0]; [AtIndex 0; AtKey "k"] ] |} in
  run calls create = Done b /\ stack_ok b.
Proof.
  intros calls b. split; [reflexivity|].
  apply (proj2 (stack_is_chain_of_ancestors calls) b). reflexivity.
Defined.

End BuilderChains.

(** ** The reader at any sufficient fuel *)

Section FuelFree.
Import Parser Texts RoundTrip.

(** More fuel does not change a result. *)
Lemma fuel_monotone (f : nat) :
  (forall input f', (f <= f')%nat -> LoadNode f input <> OutOfFuel ->
     LoadNode f' input = LoadNode f input)
  /\ (forall acc input f', (f <= f')%nat -> LoadArray_loop f acc input <> OutOfFuel ->
        LoadArray_loop f' acc input = LoadArray_loop f acc input)
  /\ (forall acc input f', (f <= f')%nat -> LoadDict_loop f acc input <> OutOfFuel ->
        LoadDict_loop f' acc input = LoadDict_loop f acc input).
Proof.
  induction f as [|f (IHn & IHa & IHd)].
  { repeat split; intros; exfalso;
      match goal with H : _ <> OutOfFuel |- _ => apply H; reflexivity end. }
  split; [|split].
  - intros input [|f'] Hle; [lia|]. cbn [LoadNode].
    destruct (extract input) as [[c input']|]; [|reflexivity].
    repeat match goal with
    | |- context [if ?b then _ else _] => destruct b
    end; try reflexivity.
    + apply IHa. lia.
    + apply IHd. lia.
  - intros acc input [|f'] Hle; [lia|]. cbn [LoadArray_loop].
    destruct (extract input) as [[c input']|]; [|reflexivity].
    destruct (Ascii.eqb c "]"); [reflexivity|].
    set (input'' := if Ascii.eqb c "," then input' else putback c input').
    destruct (LoadNode f input'') as [[node r1]| |] eqn:E1; cbn [bind]; intros H;
      try congruence;
      rewrite (IHn input'' f' ltac:(lia)), E1 by congruence; cbn [bind];
      [apply IHa; [lia | exact H] | reflexivity].
  - intros acc input [|f'] Hle; [lia|]. cbn [LoadDict_loop].
    destruct (extract input) as [[c input']|]; [|reflexivity].
    destruct (Ascii.eqb c "}"); [reflexivity|].
    destruct (Ascii.eqb c QUOTE).
    + destruct (LoadString input') as [[k input1]| |]; cbn [bind]; try reflexivity.
      destruct (extract input1) as [[c' input2]|]; [|reflexivity].
      destruct (Ascii.eqb c' ":"); [|reflexivity].
      destruct (Map.find _ acc); [reflexivity|].
      destruct (LoadNode f input2) as [[node r1]| |] eqn:E3; cbn [bind]; intros H;
        try congruence;
        rewrite (IHn input2 f' ltac:(lia)), E3 by congruence; cbn [bind];
        [apply IHd; [lia | exact H] | reflexivity].
    + destruct (negb _); [reflexivity|]. apply IHd. lia.
Qed.

(** [Load] gives what [LoadNode] gives with any fuel that is enough. *)
Lemma Load_LoadNode (fuel : nat) (input : string) :
  LoadNode fuel input <> OutOfFuel ->
  Load input = ('(root, _) <- LoadNode fuel input ;; Ok root).
Proof.
  intros H. unfold Load.
  set (n := (2 * String.length input + 1)%nat).
  assert (Hn : LoadNode n input <> OutOfFuel).
  { apply (proj1 (Load_fuel_suffices n)). unfold n. lia. }
  destruct (Nat.le_ge_cases n fuel) as [Hle | Hle].
  - now rewrite <- (proj1 (fuel_monotone n) input fuel Hle Hn).
  - now rewrite (proj1 (fuel_monotone fuel) input n Hle H).
Qed.

Lemma skip_space_all_space (ws input : string) :
  all_space ws = true -> Num.skip_space (ws ++ input) = Num.skip_space input.
Proof.
  induction ws as [|c ws IH]; simpl; [reflexivity|].
  intros H. apply andb_prop in H. destruct H as [-> H]. now apply IH.
Qed.

(** X3: white space in front of a document is skipped: a text read behind
    any run of spaces, tabs and line breaks gives the same value, or throws
    the same error, as the text alone. *)
Theorem Load_skips_leading_space (ws input : string) :
  all_space ws = true -> Load (ws ++ input) = Load input.
Proof.
  intros Hws.
  set (n := (2 * String.length (ws ++ input) + 1)%nat).
  assert (H1 : LoadNode n (ws ++ input) <> OutOfFuel).
  { apply (proj1 (Load_fuel_suffices n)). unfold n. lia. }
  rewrite (Load_LoadNode n (ws ++ input) H1).
  rewrite <- LoadNode_skip_space, (skip_space_all_space _ _ Hws), LoadNode_skip_space in H1 |- *.
  now rewrite <- (Load_LoadNode n input H1).
Qed.

Lemma Load_skips_leading_space_witness :
  Load (String LF (String TAB " [1]")) = Ok (Arr [Int 1]).
Proof.
  exact (eq_trans
           (Load_skips_leading_space (String LF (String TAB " ")) "[1]" eq_refl)
           eq_refl).
Defined.

End FuelFree.

(** ** The values that the reader returns *)

Section ValuesRead.
Import Parser Texts RoundTrip.
#[local] Open Scope list_scope.

Lemma compare_lt_trans (a b c : string) :
  String.compare a b = Lt -> String.compare b c = Lt -> String.compare a c = Lt.
Proof.
  revert b c. induction a as [|x a IH]; intros [|y b] [|z c]; simpl;
    try discriminate; try reflexivity.
  unfold Ascii.compare.
  destruct (N.compare_spec (N_of_ascii x) (N_of_ascii y)) as [Exy|Lxy|Gxy];
    try discriminate;
    destruct (N.compare_spec (N_of_ascii y) (N_of_ascii z)) as [Eyz|Lyz|Gyz];
    try discriminate;
    destruct (N.compare_spec (N_of_ascii x) (N_of_ascii z)) as [Exz|Lxz|Gxz];
    try lia; try reflexivity.
  apply IH.
Qed.

Lemma ltb_trans (a b c : string) :
  String.ltb a b = true -> String.ltb b c = true -> String.ltb a c = true.
Proof.
  unfold String.ltb. intros H1 H2.
  destruct (String.compare a b) eqn:E1; try discriminate.
  destruct (String.compare b c) eqn:E2; try discriminate.
  now rewrite (compare_lt_trans _ _ _ E1 E2).
Qed.

Lemma forallb_insert_sorted (Q : string * Node -> bool) (key : string) (v : Node)
    (d : DictT) :
  forallb Q (Map.insert_sorted key v d) = Q (key, v) && forallb Q d.
Proof.
  induction d as [|[k w] d IH]; simpl; [reflexivity|].
  destruct (String.compare key k); simpl; try reflexivity.
  rewrite IH. now destruct (Q (k, w)), (Q (key, v)).
Qed.

(** A new key goes to its place: the map stays in key order. *)
Lemma sorted_insert_sorted (key : string) (v : Node) (d : DictT) :
  Map.sorted d = true -> Map.find key d = None ->
  Map.sorted (Map.insert_sorted key v d) = true.
Proof.
  induction d as [|[k w] d IH]; simpl; [reflexivity|].
  intros Hs Hf. apply andb_prop in Hs. destruct Hs as [Hk Hs].
  destruct (String.eqb_spec key k) as [-> | Hne]; [discriminate|].
  destruct (String.compare key k) eqn:E.
  - apply String.compare_eq_iff in E. contradiction.
  - cbn [Map.sorted forallb fst]. unfold String.ltb at 1. rewrite E. cbn [andb].
    rewrite Hk, Hs, andb_true_r.
    apply forallb_forall. intros kv Hin.
    apply (ltb_trans key k); [unfold String.ltb; now rewrite E|].
    now apply (proj1 (forallb_forall _ _) Hk).
  - cbn [Map.sorted]. rewrite forallb_insert_sorted, Hk, (IH Hs Hf), !andb_true_r.
    cbn [fst]. unfold String.ltb. rewrite String.compare_antisym, E. reflexivity.
Qed.

Lemma finite_doubles_Dict (d : DictT) :
  finite_doubles (Dict d) = forallb (fun kv => finite_doubles (snd kv)) d.
Proof.
  cbn [finite_doubles].
  induction d as [|[k n] d IH]; [reflexivity|]. cbn [forallb snd]. now rewrite <- IH.
Qed.

Lemma stoi_in_range (text : string) (i : Z) :
  Num.stoi text = Some i -> in_int_range i = true.
Proof.
  unfold Num.stoi. destruct (Num.scan_sign _) as [neg s].
  destruct (Num.scan_digits 0 0 s) as [[v n] r].
  destruct n; [discriminate|].
  destruct (in_int_range (if neg then - v else v)) eqn:E; [|discriminate].
  now intros [= <-].
Qed.

Lemma decimal_to_double_finite (neg : bool) (m : positive) (e : Z) (x : spec_float) :
  Num.decimal_to_double neg m e = Some x -> finite_doubles (Double x) = true.
Proof.
  unfold Num.decimal_to_double.
  match goal with |- match ?r with _ => _ end = _ -> _ => destruct r end;
    try discriminate.
  destruct (_ && _); [discriminate|]. now intros [= <-].
Qed.

Lemma stod_finite (text : string) (x : spec_float) :
  Num.stod text = Some x -> finite_doubles (Double x) = true.
Proof.
  unfold Num.stod. destruct (Num.scan_sign _) as [neg s].
  destruct (Num.scan_digits 0 0 s) as [[mi ni] s1].
  destruct (match s1 with EmptyString => _ | String _ _ => _ end) as [[m nf] s2].
  destruct (ni + nf)%nat; [discriminate|].
  destruct m; try (now intros [= <-]).
  apply decimal_to_double_finite.
Qed.

Lemma LoadNumber_sound (input : string) (v : Node) (rest : string) :
  LoadNumber input = Ok (v, rest) -> sound v.
Proof.
  unfold LoadNumber.
  destruct (lex_number input) as [[[text b] r]| |]; cbn [bind]; try discriminate.
  unfold convert_number.
  destruct (if b then Num.stoi text else None) as [i|] eqn:Ei; cbn [bind].
  - intros [= <- _]. destruct b; [|discriminate].
    split; [exact (stoi_in_range _ _ Ei) | reflexivity].
  - destruct (Num.stod text) as [x|] eqn:Ex; cbn [bind]; [|discriminate].
    intros [= <- _]. split; [reflexivity | exact (stod_finite _ _ Ex)].
Qed.

Lemma LoadNode_sound (fuel : nat) :
  (forall input v rest, LoadNode fuel input = Ok (v, rest) -> sound v)
  /\ (forall acc input v rest,
        Forall sound acc ->
        LoadArray_loop fuel acc input = Ok (v, rest) -> sound v)
  /\ (forall acc input v rest,
        Map.sorted acc = true -> Forall (fun kv => sound (snd kv)) acc ->
        LoadDict_loop fuel acc input = Ok (v, rest) -> sound v).
Proof.
  induction fuel as [|f (IHn & IHa & IHd)]; [repeat split; discriminate|].
  split; [|split].
  - intros input v rest. cbn [LoadNode].
    destruct (extract input) as [[c input']|]; [|discriminate].
    repeat match goal with
    | |- context [if ?b then _ else _] => destruct b
    end; intros H.
    + apply (IHa [] _ _ _ (Forall_nil _) H).
    + apply (IHd [] _ _ _ eq_refl (Forall_nil _) H).
    + destruct (LoadString_loop_Str _ _ _ _ H) as [s ->]. split; reflexivity.
    + unfold LoadBool in H. destruct (LoadLiteral _) as [s r].
      repeat match type of H with
      | (if ?b then _ else _) = _ => destruct b
      end; try discriminate; injection H as <- _; split; reflexivity.
    + unfold LoadNull in H. destruct (LoadLiteral _) as [s r].
      destruct (String.eqb s "null"); try discriminate.
      injection H as <- _. split; reflexivity.
    + apply (LoadNumber_sound _ _ _ H).
  - intros acc input v rest Hacc. cbn [LoadArray_loop].
    destruct (extract input) as [[c input']|]; [|discriminate].
    destruct (Ascii.eqb c "]").
    + intros [= <- _]. unfold sound. cbn [well_formed finite_doubles].
      rewrite !forallb_forall. rewrite Forall_forall in Hacc.
      split; intros x Hx; apply (Hacc x Hx).
    + destruct (LoadNode f _) as [[node r1]| |] eqn:E1; cbn [bind]; try discriminate.
      apply IHa. apply Forall_app. split; [exact Hacc|].
      constructor; [|constructor]. apply (IHn _ _ _ E1).
  - intros acc input v rest Hs Hacc. cbn [LoadDict_loop].
    destruct (extract input) as [[c input']|]; [|discriminate].
    destruct (Ascii.eqb c "}").
    + intros [= <- _]. unfold sound.
      rewrite well_formed_Dict, finite_doubles_Dict, Hs. cbn [andb].
      rewrite !forallb_forall. rewrite Forall_forall in Hacc.
      split; intros x Hx; apply (Hacc x Hx).
    + destruct (Ascii.eqb c QUOTE).
      * destruct (LoadString input') as [[k input1]| |]; cbn [bind]; try discriminate.
        destruct (extract input1) as [[c' input2]|]; [|discriminate].
        destruct (Ascii.eqb c' ":"); [|discriminate].
        destruct (Map.find _ acc) eqn:Ef; [discriminate|].
        destruct (LoadNode f input2) as [[node r1]| |] eqn:E3; cbn [bind];
          try discriminate.
        unfold Map.emplace. rewrite Ef. apply IHd.
        -- now apply sorted_insert_sorted.
        -- apply Forall_forall. intros kv Hin.
           assert (Hcases : kv = (match k with Str s => s | _ => EmptyString end, node)
                            \/ In kv acc).
           { revert Hin. generalize (match k with Str s => s | _ => EmptyString end).
             intros key. clear. induction acc as [|[k0 w0] acc IH]; simpl.
             - intros [H | []]. now left.
             - destruct (String.compare key k0); simpl; intros H.
               + destruct H as [H | [H | H]]; auto.
               + destruct H as [H | [H | H]]; auto.
               + destruct H as [H | H]; [auto|].
                 destruct (IH H) as [H' | H']; auto. }
           destruct Hcases as [-> | Hin'].
           ++ cbn [snd]. apply (IHn _ _ _ E3).
           ++ rewrite Forall_forall in Hacc. now apply Hacc.
      * destruct (negb _); [discriminate|]. now apply IHd.
Qed.

Lemma Load_sound (input : string) (v : Node) :
  Load input = Ok v -> sound v.
Proof.
  unfold Load.
  destruct (LoadNode _ input) as [[root rest]| |] eqn:E; cbn [bind]; try discriminate.
  intros [= <-]. exact (proj1 (LoadNode_sound _) _ _ _ E).
Qed.

(** X4: every value that [Load] returns is a value of the C++ type, every
    [int] within its 32 bits and every map in strictly increasing key
    order, so that no object holds a key twice; and no [Double] in it is an
    infinity or a NaN: a literal beyond the range of [double] is rejected. *)
Theorem Load_returns_sound_values (input : string) (v : Node) :
  Load input = Ok v -> well_formed v = true /\ finite_doubles v = true.
Proof. apply Load_sound. Qed.

Lemma Load_returns_sound_values_witness :
  let v := Dict [("a"%string, Arr [Double (S754_finite false 4503599627370496 (-51))]);
                 ("b"%string, Int 2)] in
  Load (Text.json_text "{'b': 2, 'a': [2.0]}") = Ok v
  /\ well_formed v = true /\ finite_doubles v = true.
Proof.
  intros v. split; [reflexivity|].
  exact (Load_returns_sound_values (Text.json_text "{'b': 2, 'a': [2.0]}") v eq_refl).
Defined.

End ValuesRead.

(** ** Literals and rejected texts *)

Section Literals.
Import Parser Texts.

Lemma LoadLiteral_split (x s r : string) :
  LoadLiteral x = (s, r) -> x = s ++ r /\ starts_with_letter r = false.
Proof.
  revert s r. induction x as [|c x IH]; intros s r; cbn [LoadLiteral].
  - intros [= <- <-]. split; reflexivity.
  - destruct (isalpha c) eqn:E.
    + destruct (LoadLiteral x) as [s' r']. intros [= <- <-].
      destruct (IH s' r' eq_refl) as [-> H]. split; [reflexivity | exact H].
    + intros [= <- <-]. split; [reflexivity | exact E].
Qed.

Lemma LoadLiteral_no_letter (rest : string) :
  starts_with_letter rest = false -> LoadLiteral rest = (EmptyString, rest).
Proof. destruct rest as [|c rest]; simpl; [reflexivity|]. now intros ->. Qed.

Lemma LoadArray_loop_Arr (fuel : nat) :
  forall acc input v rest,
    LoadArray_loop fuel acc input = Ok (v, rest) -> exists a, v = Arr a.
Proof.
  induction fuel as [|f IH]; intros acc input v rest; [discriminate|].
  cbn [LoadArray_loop].
  destruct (extract input) as [[c input']|]; [|discriminate].
  destruct (Ascii.eqb c "]"); [intros [= <- _]; now eexists|].
  destruct (LoadNode f _) as [[node r1]| |]; cbn [bind]; try discriminate.
  apply IH.
Qed.

Lemma LoadDict_loop_Dict (fuel : nat) :
  forall acc input v rest,
    LoadDict_loop fuel acc input = Ok (v, rest) -> exists d, v = Dict d.
Proof.
  induction fuel as [|f IH]; intros acc input v rest; [discriminate|].
  cbn [LoadDict_loop].
  destruct (extract input) as [[c input']|]; [|discriminate].
  destruct (Ascii.eqb c "}"); [intros [= <- _]; now eexists|].
  destruct (Ascii.eqb c QUOTE).
  - destruct (LoadString input') as [[k input1]| |]; cbn [bind]; try discriminate.
    destruct (extract input1) as [[c' input2]|]; [|discriminate].
    destruct (Ascii.eqb c' ":"); [|discriminate].
    destruct (Map.find _ acc); [discriminate|].
    destruct (LoadNode f input2) as [[node r1]| |]; cbn [bind]; try discriminate.
    apply IH.
  - destruct (negb _); [discriminate|]. apply IH.
Qed.

Lemma LoadNumber_number (input : string) (v : Node) (rest : string) :
  LoadNumber input = Ok (v, rest) -> NodeOps.IsDouble v = true.
Proof.
  unfold LoadNumber.
  destruct (lex_number input) as [[[text b] r]| |]; cbn [bind]; try discriminate.
  unfold convert_number.
  destruct (if b then Num.stoi text else None) as [i|]; cbn [bind].
  - now intros [= <- _].
  - destruct (Num.stod text) as [x|]; cbn [bind]; [|discriminate].
    now intros [= <- _].
Qed.

Lemma LoadBool_words (x rest : string) (b : bool) :
  LoadBool x = Ok (Bool b, rest)
  <-> x = (if b then "true" else "false") ++ rest /\ starts_with_letter rest = false.
Proof.
  unfold LoadBool. split.
  - destruct (LoadLiteral x) as [s r] eqn:E.
    destruct (LoadLiteral_split _ _ _ E) as [-> Hr].
    destruct (String.eqb_spec s "true") as [-> | _];
      [|destruct (String.eqb_spec s "false") as [-> | _]];
      try discriminate; intros [= <- <-]; split; auto.
  - intros [-> Hr]. destruct b; cbn; rewrite (LoadLiteral_no_letter _ Hr); reflexivity.
Qed.

Lemma LoadNull_word (x rest : string) :
  LoadNull x = Ok (Null, rest)
  <-> x = "null" ++ rest /\ starts_with_letter rest = false.
Proof.
  unfold LoadNull. split.
  - destruct (LoadLiteral x) as [s r] eqn:E.
    destruct (LoadLiteral_split _ _ _ E) as [-> Hr].
    destruct (String.eqb_spec s "null") as [-> | _];
      try discriminate; intros [= <-]; split; auto.
  - intros [-> Hr]. cbn. rewrite (LoadLiteral_no_letter _ Hr). reflexivity.
Qed.

(** X5: [LoadNode] returns a boolean exactly for the word true or false,
    and null exactly for the word null, after white space at most and not
    followed by a letter: the rest of the stream is what stands behind the
    word, and a longer run of letters such as truex is not read as true. *)
Theorem literals_are_whole_words (fuel : nat) (input rest : string) :
  (forall b : bool,
     LoadNode (S fuel) input = Ok (Bool b, rest)
     <-> Num.skip_space input = (if b then "true" else "false") ++ rest
         /\ starts_with_letter rest = false)
  /\ (LoadNode (S fuel) input = Ok (Null, rest)
      <-> Num.skip_space input = "null" ++ rest
          /\ starts_with_letter rest = false).
Proof.
  cbn [LoadNode]. unfold extract, putback.
  destruct (Num.skip_space input) as [|c x] eqn:Es.
  { split; [intros b|]; (split; [discriminate|]); intros [H _];
      [destruct b|]; discriminate. }
  split; [intros b|].
  - destruct (Ascii.eqb_spec c "[") as [-> | _].
    { split; [intros H; destruct (LoadArray_loop_Arr _ _ _ _ _ H); discriminate|].
      intros [H _]. destruct b; discriminate. }
    destruct (Ascii.eqb_spec c "{") as [-> | _].
    { split; [intros H; destruct (LoadDict_loop_Dict _ _ _ _ _ H); discriminate|].
      intros [H _]. destruct b; discriminate. }
    destruct (Ascii.eqb_spec c QUOTE) as [-> | _].
    { split; [intros H; destruct (LoadString_loop_Str _ _ _ _ H); discriminate|].
      intros [H _]. destruct b; discriminate. }
    destruct (Ascii.eqb c "t" || Ascii.eqb c "f") eqn:Etf; [apply LoadBool_words|].
    apply orb_false_iff in Etf. destruct Etf as [Et Ef].
    destruct (Ascii.eqb_spec c "n") as [-> | _].
    { split.
      - unfold LoadNull. destruct (LoadLiteral _). destruct (String.eqb _ _); discriminate.
      - intros [H _]. destruct b; discriminate. }
    split.
    + intros H. apply LoadNumber_number in H. discriminate.
    + intros [H _]. destruct b; injection H as -> _; discriminate.
  - destruct (Ascii.eqb_spec c "[") as [-> | _].
    { split; [intros H; destruct (LoadArray_loop_Arr _ _ _ _ _ H); discriminate|].
      intros [H _]. discriminate. }
    destruct (Ascii.eqb_spec c "{") as [-> | _].
    { split; [intros H; destruct (LoadDict_loop_Dict _ _ _ _ _ H); discriminate|].
      intros [H _]. discriminate. }
    destruct (Ascii.eqb_spec c QUOTE) as [-> | _].
    { split; [intros H; destruct (LoadString_loop_Str _ _ _ _ H); discriminate|].
      intros [H _]. discriminate. }
    destruct (Ascii.eqb c "t" || Ascii.eqb c "f") eqn:Etf.
    { split.
      - unfold LoadBool. destruct (LoadLiteral _).
        repeat match goal with
        | |- context [if ?b then _ else _] => destruct b
        end; discriminate.
      - intros [H _]. injection H as -> _. discriminate. }
    destruct (Ascii.eqb_spec c "n") as [-> | Hn]; [apply LoadNull_word|].
    split.
    + intros H. apply LoadNumber_number in H. discriminate.
    + intros [H _]. injection H as -> _. contradiction.
Qed.

Lemma literals_are_whole_words_witness :
  LoadNode 1 " true," = Ok (Bool true, ",")
  /\ LoadNode 1 "nullify" <> Ok (Null, "ify").
Proof.
  destruct (literals_are_whole_words 0 " true," ",") as [Hb _].
  destruct (literals_are_whole_words 0 "nullify" "ify") as [_ Hn].
  split.
  - apply (Hb true). split; reflexivity.
  - intros H. destruct (proj1 Hn H) as [_ H']. discriminate.
Defined.

End Literals.

(** ** Texts that the reader rejects *)

Section Rejected.
Import Parser Printer Texts RoundTrip StringSpec.

Lemma Load_Throw (fuel : nat) (input msg : string) :
  LoadNode fuel input = Throw msg -> Load input = Throw msg.
Proof.
  intros H. rewrite (Load_LoadNode fuel input); rewrite H; [reflexivity | discriminate].
Qed.

Lemma Load_Ok (fuel : nat) (input : string) (v : Node) (rest : string) :
  LoadNode fuel input = Ok (v, rest) -> Load input = Ok v.
Proof.
  intros H. rewrite (Load_LoadNode fuel input); rewrite H; [reflexivity | discriminate].
Qed.

Lemma begins_value_false (c : ascii) :
  begins_value c = false ->
  Ascii.eqb c "[" = false /\ Ascii.eqb c "{" = false /\ Ascii.eqb c QUOTE = false
  /\ Ascii.eqb c "t" = false /\ Ascii.eqb c "f" = false /\ Ascii.eqb c "n" = false
  /\ Ascii.eqb c "-" = false /\ isdigit c = false.
Proof.
  unfold begins_value. intros H.
  repeat (apply orb_false_iff in H; destruct H as [H ?]). repeat split; assumption.
Qed.

(** X6: a text whose first character behind the white space cannot begin
    a value (it is none of the brackets, the quote, t, f, n, the minus sign
    and the digits), or is a minus sign with no digit behind it, is handed
    to [LoadNumber] and rejected with the error of a missing digit; so are
    a closing bracket, a colon, a plus sign and a bare decimal point. *)
Theorem value_must_begin_with_its_mark (input : string) (c : ascii) (r : string) :
  Num.skip_space input = String c r ->
  begins_value c = false \/ (c = "-"%char /\ peek_isdigit r = false) ->
  Load input = Throw "A digit is expected".
Proof.
  intros Hs Hc. apply (Load_Throw 1).
  cbn [LoadNode]. unfold extract. rewrite Hs. unfold putback.
  destruct Hc as [Hc | [-> Hr]].
  - destruct (begins_value_false c Hc) as (-> & -> & -> & -> & -> & -> & Hm & Hd).
    cbn [orb]. unfold LoadNumber, lex_number, read_sign, read_integer_part.
    cbn [snd peek_is]. rewrite Hm. cbn [bind snd peek_is].
    assert (H0 : Ascii.eqb c "0" = false).
    { destruct (Ascii.eqb_spec c "0") as [-> | _]; [discriminate | reflexivity]. }
    rewrite H0. unfold read_digits. cbn [peek_isdigit]. rewrite Hd. reflexivity.
  - cbn. unfold LoadNumber, lex_number, read_sign, read_integer_part.
    cbn [snd peek_is Ascii.eqb Bool.eqb read_char bind append].
    assert (H0 : peek_is "0" r = false).
    { destruct r as [|d r]; [reflexivity|]. cbn in Hr |- *.
      destruct (Ascii.eqb_spec d "0") as [-> | _]; [discriminate | reflexivity]. }
    rewrite H0. unfold read_digits. rewrite Hr. reflexivity.
Qed.

Lemma value_must_begin_with_its_mark_witness :
  Load " +1" = Throw "A digit is expected"
  /\ Load "-x" = Throw "A digit is expected".
Proof.
  split.
  - apply (value_must_begin_with_its_mark " +1" "+" "1" eq_refl).
    left. reflexivity.
  - apply (value_must_begin_with_its_mark "-x" "-" "x" eq_refl).
    right. split; reflexivity.
Defined.

Lemma LoadString_PrintString (key rest : string) :
  LoadString (escape key ++ chr QUOTE ++ rest) = Ok (Str key, rest).
Proof.
  unfold LoadString.
  rewrite (LoadString_loop_decode _ _ (decode_escape key)). reflexivity.
Qed.

(** A turn of the loop of [LoadDict] at a written key *)
Lemma LoadDict_loop_key (f : nat) (acc : DictT) (key r : string) :
  LoadDict_loop (S f) acc (PrintString key ++ r)
  = match extract r with
    | Some (c', input2) =>
        if Ascii.eqb c' ":" then
          match Map.find key acc with
          | Some _ => Throw ("Duplicate key '" ++ key ++ "' have been found")
          | None =>
              '(node, rest) <- LoadNode f input2 ;;
              LoadDict_loop f (Map.emplace key node acc) rest
          end
        else Throw (": is expected but '" ++ chr c' ++ "' has been found")
    | None => Throw (": is expected but '" ++ chr QUOTE ++ "' has been found")
    end.
Proof.
  unfold PrintString. rewrite !append_assoc. cbn [append chr].
  set (X := escape key ++ _).
  assert (E1 : extract (String QUOTE X) = Some (QUOTE, X)) by reflexivity.
  cbn [LoadDict_loop]. rewrite E1. cbv iota beta.
  change (Ascii.eqb QUOTE "}") with false. change (Ascii.eqb QUOTE QUOTE) with true.
  cbv iota. unfold X.
  change (String QUOTE r) with (chr QUOTE ++ r).
  rewrite LoadString_PrintString. cbn [bind]. reflexivity.
Qed.

Lemma LoadNode_open_object (f : nat) (r : string) :
  LoadNode (S f) ("{" ++ r) = LoadDict_loop f [] r.
Proof. reflexivity. Qed.

(** X7: inside an object, a character that is not a quote, a comma or the
    closing brace where a key should stand is rejected with the message
    that a comma was expected; a key that is not followed by a colon is
    rejected with the message that names the character found, and when the
    text ends behind the key the message names the quote that [c] still
    holds. *)
Theorem object_syntax_errors (key r : string) :
  (forall c r',
     Num.skip_space r = String c r' ->
     c <> "}"%char -> c <> QUOTE -> c <> ","%char ->
     Load ("{" ++ r)
     = Throw ("',' is expected but '" ++ chr c ++ "' has been found"))
  /\ (forall c r',
        Num.skip_space r = String c r' -> c <> ":"%char ->
        Load ("{" ++ PrintString key ++ r)
        = Throw (": is expected but '" ++ chr c ++ "' has been found"))
  /\ (Num.skip_space r = EmptyString ->
      Load ("{" ++ PrintString key ++ r)
      = Throw (": is expected but '" ++ chr QUOTE ++ "' has been found")).
Proof.
  split; [|split].
  - intros c r' Hs H1 H2 H3. apply (Load_Throw 2).
    cbn [LoadNode LoadDict_loop append]. unfold extract at 1. cbn [Num.skip_space isspace].
    cbn. unfold extract. rewrite Hs.
    apply Ascii.eqb_neq in H1, H2, H3. now rewrite H1, H2, H3.
  - intros c r' Hs H1. apply (Load_Throw 2).
    rewrite LoadNode_open_object, LoadDict_loop_key. unfold extract. rewrite Hs.
    apply Ascii.eqb_neq in H1. now rewrite H1.
  - intros Hs. apply (Load_Throw 2).
    rewrite LoadNode_open_object, LoadDict_loop_key. unfold extract. now rewrite Hs.
Qed.

Lemma object_syntax_errors_witness :
  Load "{ x" = Throw "',' is expected but 'x' has been found"
  /\ Load (Text.json_text "{'a' 1}") = Throw ": is expected but '1' has been found".
Proof.
  destruct (object_syntax_errors "a" " x") as (H1 & _ & _).
  destruct (object_syntax_errors "a" " 1}") as (_ & H2 & _).
  split.
  - apply (H1 "x"%char EmptyString eq_refl); discriminate.
  - apply (H2 "1"%char "}" eq_refl). discriminate.
Defined.

(** The loop of [LoadArray] on written items, followed by a text [T] on
    which the loop, with the items stored, gives [r] *)
Lemma LoadArray_items_then (ctx : PrintContext) (nodes : list Node) :
  Forall reads_back nodes ->
  forallb well_formed nodes = true ->
  forallb doubles_read_back nodes = true ->
  forall first acc T k r fuel,
    value_end T = true -> (1 <= k)%nat ->
    (forall f, (k <= f)%nat -> LoadArray_loop f (acc ++ nodes)%list T = r) ->
    (String.length (PrintArray_items ctx first nodes) + k <= fuel)%nat ->
    LoadArray_loop fuel acc (PrintArray_items ctx first nodes ++ T) = r.
Proof.
  induction 1 as [|n ns Hn Hns IH];
    intros Hwf Hdb first acc T k r fuel HT Hk Hcont Hfuel.
  - cbn [PrintArray_items append String.length] in *.
    rewrite <- (List.app_nil_r acc). apply Hcont. lia.
  - cbn [forallb] in Hwf, Hdb.
    apply andb_true_iff in Hwf, Hdb. destruct Hwf as [Hwn Hwns], Hdb as [Hdn Hdns].
    cbn [PrintArray_items] in *. rewrite !append_assoc in *.
    pose proof (PrintNode_nonempty n (Indented ctx) Hdn) as Hne.
    rewrite !length_append in Hfuel.
    assert (Hend : value_end (PrintArray_items ctx false ns ++ T) = true).
    { destruct ns as [|n' ns]; [exact HT | reflexivity]. }
    assert (Hf : forall f, fuel = S f ->
              (String.length (PrintNode n (Indented ctx)) <= f)%nat
              /\ (String.length (PrintArray_items ctx false ns) + k <= f)%nat).
    { intros f ->. lia. }
    destruct fuel as [|f]; [lia|]. destruct (Hf f eq_refl) as [Hf1 Hf2].
    rewrite LoadArray_loop_item.
    + apply (IH Hwns Hdns false _ T k r f); auto.
      intros f' Hf'. rewrite <- List.app_assoc. now apply Hcont.
    + apply Hn; auto.
Qed.

Lemma all_space_skip (T : string) :
  all_space T = true -> Num.skip_space T = EmptyString.
Proof.
  induction T as [|c T IH]; simpl; [reflexivity|].
  intros H. apply andb_prop in H. destruct H as [-> H]. now apply IH.
Qed.

(** X8: a text that ends too early is rejected.  White space alone gives
    the error of an unexpected end; the written form of an array cut off
    behind any number of its items, where the closing bracket should come,
    gives the array error, and that of a dictionary cut off behind any
    number of its entries gives the dictionary error. *)
Theorem text_ends_too_early (ctx : PrintContext) (T : string) :
  all_space T = true -> value_end T = true ->
  Load T = Throw "Unexpected EOF"
  /\ (forall items : list Node,
        forallb well_formed items = true ->
        forallb doubles_read_back items = true ->
        Load ("[" ++ chr LF ++ PrintArray_items ctx true items ++ T)
        = Throw "Array parsing error")
  /\ (forall entries : list (string * Node),
        well_formed (Dict entries) = true ->
        doubles_read_back (Dict entries) = true ->
        Load ("{" ++ chr LF ++ PrintDict_items ctx true entries ++ T)
        = Throw "Dictionary parsing error").
Proof.
  intros HT Hend. pose proof (all_space_skip T HT) as Hs.
  split; [|split].
  - apply (Load_Throw 1). cbn [LoadNode]. unfold extract. now rewrite Hs.
  - intros items Hwf Hdb.
    apply (Load_Throw (S (String.length (PrintArray_items ctx true items) + 1))).
    change (LoadNode (S ?f) ("[" ++ ?x)) with (LoadArray_loop f [] x).
    rewrite <- LoadArray_loop_skip_space. cbn [append chr].
    change (Num.skip_space (String LF ?x)) with (Num.skip_space x).
    rewrite LoadArray_loop_skip_space.
    apply (LoadArray_items_then ctx items) with (k := 1%nat); auto.
    + apply Forall_forall. intros v _. apply reads_back_all.
    + intros [|f] Hf; [lia|]. cbn [LoadArray_loop]. unfold extract. now rewrite Hs.
  - intros entries Hwf Hdb.
    rewrite well_formed_Dict in Hwf. apply andb_prop in Hwf. destruct Hwf as [Hso Hwf].
    rewrite doubles_read_back_Dict in Hdb.
    apply (Load_Throw (S (String.length (PrintDict_items ctx true entries) + 1))).
    change (LoadNode (S ?f) ("{" ++ ?x)) with (LoadDict_loop f [] x).
    rewrite <- LoadDict_loop_skip_space. cbn [append chr].
    change (Num.skip_space (String LF ?x)) with (Num.skip_space x).
    rewrite LoadDict_loop_skip_space.
    apply (LoadDict_items_then ctx entries) with (k := 1%nat); auto.
    + apply Forall_forall. intros v _. apply reads_back_all.
    + intros [|f] Hf; [lia|]. cbn [LoadDict_loop]. unfold extract. now rewrite Hs.
Qed.

Lemma text_ends_too_early_witness :
  Load (String LF " ") = Throw "Unexpected EOF"
  /\ Load (String "[" (String LF "    1,") ++ String LF "    true" ++ String LF " ")
     = Throw "Array parsing error".
Proof.
  destruct (text_ends_too_early {| indent_step := 4; indent := 0 |} (String LF " ")
              eq_refl eq_refl) as (H1 & H2 & _).
  split; [exact H1|].
  exact (H2 [Int 1; Bool true] eq_refl eq_refl).
Defined.

(** X9: a document that was read can be written and read again: when
    [Load] returns a value whose doubles are written as texts that read
    back as the same doubles, [Load] of its written form returns the same
    value. *)
Theorem read_write_read (input : string) (v : Node) :
  Load input = Ok v -> doubles_read_back v = true ->
  Load (Print v) = Ok v.
Proof.
  intros Hl Hdb.
  destruct (Load_sound input v Hl) as [Hwf _].
  apply (Load_Ok (String.length (Print v)) _ v EmptyString).
  rewrite <- (append_nil_r (Print v)) at 2.
  apply reads_back_all; auto.
Qed.

Lemma read_write_read_witness :
  Load (Text.json_text "{'b':[1,true,null],'a':'x\ny'}")
  = Ok (Dict [("a"%string, Str (String "x" (String LF "y")));
              ("b"%string, Arr [Int 1; Bool true; Null])])
  /\ Load (Print (Dict [("a"%string, Str (String "x" (String LF "y")));
                        ("b"%string, Arr [Int 1; Bool true; Null])]))
     = Ok (Dict [("a"%string, Str (String "x" (String LF "y")));
                 ("b"%string, Arr [Int 1; Bool true; Null])]).
Proof.
  split; [reflexivity|].
  exact (read_write_read (Text.json_text "{'b':[1,true,null],'a':'x\ny'}") _
           eq_refl eq_refl).
Defined.

End Rejected.

(** ** Equality of values *)

Section Equality.
Import NodeOps Texts.
#[local] Open Scope list_scope.












End Equality.

(** ** Entries added through [Key] and [Value] *)

Section BuilderEntries.
Import Builder Calls.
#[local] Open Scope list_scope.

Lemma map_at_insert_sorted (key : string) (v x : Node) (d : DictT) :
  Map.find key d = None ->
  map_at key (fun _ => v) (Map.insert_sorted key x d) = Map.insert_sorted key v d.
Proof.
  induction d as [|[k w] d IH]; simpl.
  - now rewrite String.eqb_refl.
  - destruct (String.eqb key k) eqn:E; [discriminate|]. intros H.
    destruct (String.compare key k); simpl; rewrite ?String.eqb_refl, ?E;
      try reflexivity.
    now rewrite IH.
Qed.

Lemma find_insert_sorted_neq (key k : string) (v : Node) (d : DictT) :
  k <> key -> Map.find k (Map.insert_sorted key v d) = Map.find k d.
Proof.
  intros Hne. apply String.eqb_neq in Hne.
  induction d as [|[k' w] d IH]; simpl; [now rewrite Hne|].
  destruct (String.compare key k'); simpl; rewrite ?Hne; try reflexivity.
  now rewrite IH.
Qed.

(** X11: in an open dictionary that does not hold the name yet, [Key]
    followed by [Value] adds the entry at its place in the key order,
    whatever the order of the calls, and leaves the stack as it was: the
    name is then found with the value given, every other name with what it
    held, and a dictionary in key order stays in key order. *)
Theorem Key_then_Value_inserts (b : Builder) (p : pointer) (d : DictT)
    (key : string) (v : Node) :
  GetCurValue b = Done (p, Dict d) ->
  Map.find key d = None ->
  exists b',
    run [CallKey key; CallValue v] b = Done b'
    /\ nodes_stack_ b' = nodes_stack_ b
    /\ GetCurValue b' = Done (p, Dict (Map.insert_sorted key v d))
    /\ Map.find key (Map.insert_sorted key v d) = Some v
    /\ (forall k, k <> key ->
        Map.find k (Map.insert_sorted key v d) = Map.find k d)
    /\ (Map.sorted d = true -> Map.sorted (Map.insert_sorted key v d) = true).
Proof.
  intros E Hfind. destruct (GetCurValue_inv _ _ _ E) as [Hb Hd].
  set (b1 := {| root_ := store (root_ b) p (Dict (Map.insert_sorted key Null d));
                nodes_stack_ := push_back (nodes_stack_ b) (p ++ [AtKey key]) |}).
  assert (Hd1 : deref (root_ b1) p = Some (Dict (Map.insert_sorted key Null d))).
  { apply (deref_store _ _ _ _ Hd). }
  assert (E1 : GetCurValue b1 = Done (p ++ [AtKey key], Null)).
  { apply GetCurValue_intro; [apply back_push_back|].
    rewrite deref_app, Hd1. simpl. now rewrite (find_insert_sorted _ _ _ Hfind). }
  exists {| root_ := store (root_ b) p (Dict (Map.insert_sorted key v d));
            nodes_stack_ := nodes_stack_ b |}.
  split.
  - cbn [run perform]. unfold Key. rewrite E. cbn [andThen].
    unfold Map.subscript, Map.emplace. rewrite Hfind. fold b1.
    unfold Value, AddObject. rewrite E1. cbn [andThen].
    rewrite (store_app _ _ _ _ _ Hd1). unfold b1. cbn [root_ nodes_stack_ store].
    now rewrite pop_back_push_back, store_store, (map_at_insert_sorted _ _ _ _ Hfind).
  - split; [reflexivity|]. split.
    + apply GetCurValue_intro; [exact Hb|]. apply (deref_store _ _ _ _ Hd).
    + split; [now apply find_insert_sorted|].
      split; [intros k Hk; now apply find_insert_sorted_neq|].
      intros Hs. now apply sorted_insert_sorted.
Qed.

(** The name "a" added behind "b" goes in front of it. *)
Lemma Key_then_Value_inserts_witness :
  let b := {| root_ := Dict [("b"%string, Int 2)]; nodes_stack_ := [ [] ] |} in
  exists b',
    run [CallKey "a"; CallValue (Int 1)] b = Done b'
    /\ GetCurValue b' = Done ([], Dict [("a"%string, Int 1); ("b"%string, Int 2)]).
Proof.
  intros b.
  destruct (Key_then_Value_inserts b [] [("b"%string, Int 2)] "a" (Int 1)
              eq_refl eq_refl) as (b' & H1 & _ & H3 & _).
  exists b'. split; [exact H1 | exact H3].
Defined.

End BuilderEntries.

(** ** The accessors *)

Section Accessors.
Import Access NodeOps NumberSpec.

Lemma digits2_pos_bounds (m : positive) :
  2 ^ (Zpos (digits2_pos m) - 1) <= Zpos m < 2 ^ Zpos (digits2_pos m).
Proof.
  induction m as [m IH|m IH|]; cbn [digits2_pos]; [| |cbn; lia].
  - rewrite Pos2Z.inj_succ.
    replace (Z.succ (Zpos (digits2_pos m)) - 1) with (Z.succ (Zpos (digits2_pos m) - 1)) by lia.
    rewrite !Z.pow_succ_r by lia. lia.
  - rewrite Pos2Z.inj_succ.
    replace (Z.succ (Zpos (digits2_pos m)) - 1) with (Z.succ (Zpos (digits2_pos m) - 1)) by lia.
    rewrite !Z.pow_succ_r by lia. lia.
Qed.

Lemma iter_xO (m k : positive) :
  Zpos (Pos.iter xO m k) = Zpos m * 2 ^ Zpos k
  /\ digits2_pos (Pos.iter xO m k) = (digits2_pos m + k)%positive.
Proof.
  induction k as [|k IH] using Pos.peano_ind.
  - cbn [Pos.iter digits2_pos]. split; [lia|]. lia.
  - rewrite Pos.iter_succ. cbn [digits2_pos]. destruct IH as [IH1 IH2].
    rewrite IH2, Pos2Z.inj_xO, IH1, Pos2Z.inj_succ, Z.pow_succ_r by lia.
    split; lia.
Qed.

(** A mantissa of 53 bits with an exponent in range is kept as it is. *)
Lemma binary_round_aux_canonical (s : bool) (mz : positive) (ez : Z) :
  Zpos (digits2_pos mz) = 53 -> -1074 <= ez <= 971 ->
  binary_round_aux prec emax s (Zpos mz) ez loc_Exact = S754_finite s mz ez.
Proof.
  intros Hd He.
  assert (H0 : fexp prec emax (Zdigits2 (Zpos mz) + ez) - ez = 0).
  { unfold fexp, emin, prec, emax. cbn [Zdigits2]. lia. }
  unfold binary_round_aux, shr_fexp. rewrite H0.
  cbn [shr shr_record_of_loc shr_m loc_of_shr_record round_nearest_even].
  rewrite H0. cbn [shr shr_record_of_loc shr_m].
  replace (ez <=? emax - prec) with true; [reflexivity|].
  symmetry. apply Z.leb_le. unfold emax, prec. lia.
Qed.

(** A positive integer below [2 ^ 53] is a double: its mantissa is the
    integer moved up to 53 bits. *)
Lemma binary_round_small (s : bool) (m : positive) :
  Zpos m < 2 ^ 53 ->
  exists m' e,
    binary_round prec emax s m 0 = S754_finite s m' e
    /\ mantissa_is_integer m' e (Zpos m).
Proof.
  intros Hm. pose proof (digits2_pos_bounds m) as Hd.
  assert (Hd53 : Zpos (digits2_pos m) <= 53).
  { destruct (Z.le_gt_cases (Zpos (digits2_pos m)) 53) as [H | H]; [exact H|].
    assert (2 ^ 53 <= 2 ^ (Zpos (digits2_pos m) - 1)) by (apply Z.pow_le_mono_r; lia).
    lia. }
  assert (Hf : fexp prec emax (Zpos (digits2_pos m) + 0) - 0
               = Zpos (digits2_pos m) - 53).
  { unfold fexp, emin, prec, emax. lia. }
  unfold binary_round, shl_align. rewrite Hf.
  destruct (Zpos (digits2_pos m) - 53) as [|q|k] eqn:Ek; [|lia|].
  - exists m, 0. split; [|unfold mantissa_is_integer; simpl; lia].
    apply binary_round_aux_canonical; lia.
  - destruct (iter_xO m k) as [Hv Hdig].
    replace (fexp prec emax (Zpos (digits2_pos m) + 0)) with (Zneg k)
      by (unfold fexp, emin, prec, emax; lia).
    exists (Pos.iter xO m k), (Zneg k). split.
    + apply binary_round_aux_canonical; [rewrite Hdig|]; lia.
    + unfold mantissa_is_integer. cbn. exact Hv.
Qed.

(** X12: [AsDouble] returns the double of a [Double] node, and for an
    [Int] node the double whose value is exactly the int: nothing is lost
    in the conversion, since an [int] has at most 32 significant bits; for
    any other node it throws the logic error of a missing double. *)
Theorem AsDouble_of_int_is_exact (n : Node) :
  match n with
  | Double x => AsDouble n = Returns x
  | Int i =>
      AsDouble n = Returns (int_to_double i)
      /\ (in_int_range i = true ->
          match i with
          | Z0 => int_to_double i = S754_zero false
          | _ => exists m e,
                   int_to_double i = S754_finite (i <? 0) m e
                   /\ mantissa_is_integer m e (Z.abs i)
          end)
  | _ => AsDouble n = Throws (logic_error "Not a double")
  end.
Proof.
  destruct n as [ | | | |i| | ]; try reflexivity.
  split; [reflexivity|].
  unfold in_int_range, INT_MIN, INT_MAX. intros H.
  apply andb_prop in H. destruct H as [H1 H2].
  apply Z.leb_le in H1, H2.
  destruct i as [|m|m]; [reflexivity| |]; unfold int_to_double, binary_normalize.
  - apply (binary_round_small false m). cbn in *. lia.
  - apply (binary_round_small true m). cbn in *. lia.
Qed.

Lemma AsDouble_of_int_is_exact_witness :
  AsDouble (Int (-3)) = Returns (S754_finite true 6755399441055744 (-51))
  /\ mantissa_is_integer 6755399441055744 (-51) 3.
Proof.
  destruct (AsDouble_of_int_is_exact (Int (-3))) as [H1 H2].
  split; [exact H1|].
  destruct (H2 eq_refl) as (m & e & He & Hv).
  injection He as <- <-. exact Hv.
Defined.

End Accessors.

(** ** Requests read from a document *)

Section Requests.
Import Access NodeOps Svg Reader.
#[local] Open Scope list_scope.

Lemma to_uint8_range (i : Z) : 0 <= to_uint8 i < 256.
Proof. unfold to_uint8. change (2 ^ 8) with 256. apply Z.mod_pos_bound. lia. Qed.

(** X13: [GetColorFromNode], input by input.  A string gives the colour
    of that name.  An array of three ints gives an [Rgb] and an array of
    three ints and a number an [Rgba] with that number as opacity, each
    component the int modulo 256: a component from 0 to 255 is kept, any
    other wraps around and is not rejected.  An array of three or four
    items throws the logic error of [AsInt] when one of the first three is
    not an int, whatever the fourth is, and the logic error of [AsDouble]
    when the first three are ints and the fourth is not a number.  Every
    other node, an array of another length included, gives the colour
    none.  No node makes it read behind the end of the array. *)
Theorem GetColorFromNode_cases :
  (forall s, GetColorFromNode (Str s) = Returns (ColorString s))
  /\ (forall r g b,
        GetColorFromNode (Arr [Int r; Int g; Int b])
        = Returns (ColorRgb {| RgbM.red := r mod 256; RgbM.green := g mod 256;
                               RgbM.blue := b mod 256 |}))
  /\ (forall r g b o x,
        AsDouble o = Returns x ->
        GetColorFromNode (Arr [Int r; Int g; Int b; o])
        = Returns (ColorRgba {| RgbaM.red := r mod 256; RgbaM.green := g mod 256;
                                RgbaM.blue := b mod 256; RgbaM.opacity := x |}))
  /\ (forall i,
        0 <= to_uint8 i < 256
        /\ (0 <= i < 256 -> to_uint8 i = i)
        /\ to_uint8 (i + 256) = to_uint8 i
        /\ to_uint8 i = i mod 256)
  /\ (forall n0 n1 n2,
        IsInt n0 && IsInt n1 && IsInt n2 = false ->
        GetColorFromNode (Arr [n0; n1; n2]) = Throws (logic_error "Not an int")
        /\ forall o,
             GetColorFromNode (Arr [n0; n1; n2; o]) = Throws (logic_error "Not an int"))
  /\ (forall r g b o,
        IsDouble o = false ->
        GetColorFromNode (Arr [Int r; Int g; Int b; o])
        = Throws (logic_error "Not a double"))
  /\ (forall node,
        IsString node = false ->
        (forall a, node = Arr a -> List.length a <> 3%nat /\ List.length a <> 4%nat) ->
        GetColorFromNode node = Returns NoneColor)
  /\ (forall node, GetColorFromNode node <> Undefined).
Proof.
  split; [reflexivity|]. split; [reflexivity|].
  split; [intros r g b o x H; unfold GetColorFromNode; cbn; now rewrite H|].
  split.
  { intros i. split; [apply to_uint8_range|].
    unfold to_uint8. change (2 ^ 8) with 256.
    split; [intros H; now apply Z.mod_small|].
    split; [|reflexivity].
    replace (i + 256) with (i + 1 * 256) by lia. apply Z.mod_add. lia. }
  split.
  { intros n0 n1 n2 H. split; [|intros o].
    - destruct n0; cbn; try reflexivity.
      destruct n1; cbn; try reflexivity.
      destruct n2; cbn; try reflexivity. discriminate H.
    - destruct n0; cbn; try reflexivity.
      destruct n1; cbn; try reflexivity.
      destruct n2; cbn; try reflexivity. discriminate H. }
  split.
  { intros r g b o H. destruct o; cbn; try reflexivity; discriminate H. }
  split.
  { intros node Hs Ha. destruct node as [ |a|d|b|i|x|s]; try reflexivity;
      [|discriminate Hs].
    destruct (Ha a eq_refl) as [H3 H4].
    destruct a as [|n0 [|n1 [|n2 [|n3 [|n4 a]]]]]; try reflexivity;
      [now destruct H3 | now destruct H4]. }
  intros node. destruct node as [ |a|d|b|i|x|s]; try discriminate.
  destruct a as [|n0 [|n1 [|n2 [|n3 [|n4 a]]]]]; try discriminate.
  - destruct n0; try discriminate. destruct n1; try discriminate.
    destruct n2; discriminate.
  - destruct n0; try discriminate. destruct n1; try discriminate.
    destruct n2; try discriminate. destruct n3; discriminate.
Qed.

(** Components in and out of range, an int as opacity, and an item that
    is not an int *)
Lemma GetColorFromNode_cases_witness :
  GetColorFromNode (Arr [Int 255; Int 256; Int (-1); Int 1])
  = Returns (ColorRgba {| RgbaM.red := 255; RgbaM.green := 0; RgbaM.blue := 255;
                          RgbaM.opacity := int_to_double 1 |})
  /\ GetColorFromNode (Arr [Int 1; Str "2"; Int 3])
     = Throws (logic_error "Not an int")
  /\ GetColorFromNode (Arr [Int 1; Int 2; Int 3; Null])
     = Throws (logic_error "Not a double")
  /\ GetColorFromNode (Arr [Int 1; Int 2]) = Returns NoneColor.
Proof.
  destruct GetColorFromNode_cases as (_ & _ & H4 & _ & HI & HD & HN & _).
  split; [|split; [|split]].
  - exact (H4 255 256 (-1) (Int 1) (int_to_double 1) eq_refl).
  - exact (proj1 (HI (Int 1) (Str "2") (Int 3) eq_refl)).
  - exact (HD 1 2 3 Null eq_refl).
  - apply HN; [reflexivity|]. intros a [= <-]. split; discriminate.
Defined.

Lemma strings_of_Str (names : list string) :
  strings_of (map Str names) = Returns names.
Proof.
  induction names as [|s names IH]; [reflexivity|]. cbn. now rewrite IH.
Qed.

(** The way out and back of a route that ends at [x] *)
Lemma way_back (l : list string) (x : string) :
  let names := l ++ [x] in
  let route := names ++ List.tl (List.rev names) in
  route = l ++ x :: List.rev l
  /\ List.length route = (2 * List.length names - 1)%nat
  /\ List.rev route = route
  /\ nth_error route (List.length route / 2) = Some x.
Proof.
  intros names route.
  assert (E : route = l ++ x :: List.rev l).
  { unfold route, names. rewrite List.rev_app_distr. cbn.
    now rewrite <- List.app_assoc. }
  split; [exact E|]. rewrite E. unfold names.
  assert (Hlen : List.length (l ++ x :: List.rev l) = (2 * List.length l + 1)%nat).
  { rewrite List.length_app. cbn. rewrite List.length_rev. lia. }
  split; [rewrite Hlen, List.length_app; cbn; lia|]. split.
  - rewrite List.rev_app_distr. cbn. rewrite List.rev_involutive.
    now rewrite <- List.app_assoc.
  - rewrite Hlen.
    replace ((2 * List.length l + 1) / 2)%nat with (List.length l).
    + rewrite nth_error_app2, Nat.sub_diag by lia. reflexivity.
    + apply Nat.div_unique with (r := 1%nat); lia.
Qed.

(** X14: the constructor of [BusDescription] from a request.  For a
    circular route the stops are those of the request.  For any other route
    they are the stops of the request followed by the way back without the
    stop where the bus turns: twice as many less one, the same in both
    directions, with the last stop of the request in the middle.  A request
    with no stop gives no description: the circular one throws the length
    error of [reserve(0 * 2 - 1)], the other has undefined behaviour. *)
Theorem BusDescription_stops (dict : DictT) (bus_name : string)
    (names : list string) (roundtrip : bool) :
  Map.find "name" dict = Some (Str bus_name) ->
  Map.find "stops" dict = Some (Arr (map Str names)) ->
  Map.find "is_roundtrip" dict = Some (Bool roundtrip) ->
  Z.of_nat (List.length names) < 2 ^ 58 ->
  match names, roundtrip with
  | [], true => BusDescription_of dict = Throws length_error
  | [], false => BusDescription_of dict = Undefined
  | _ :: _, true =>
      BusDescription_of dict
      = Returns {| name := bus_name; stops := names; is_roundtrip := true |}
  | _ :: _, false =>
      exists route,
        BusDescription_of dict
        = Returns {| name := bus_name; stops := route; is_roundtrip := false |}
        /\ route = names ++ List.tl (List.rev names)
        /\ List.length route = (2 * List.length names - 1)%nat
        /\ List.rev route = route
        /\ nth_error route (List.length route / 2) = Some (List.last names EmptyString)
  end.
Proof.
  intros Hn Hs Hr Hlen. unfold BusDescription_of, at_.
  rewrite Hn, Hs, Hr. cbn [and_then AsString AsArray AsBool].
  rewrite List.length_map.
  destruct names as [|s names]; [destruct roundtrip; reflexivity|].
  assert (Hres : forall n, 0 <= n < 2 ^ 59 -> reserve n = Returns tt).
  { intros n Hn'. unfold reserve, max_size.
    rewrite Z.mod_small by (split; [lia|]; apply Z.lt_trans with (2 ^ 59); [lia | reflexivity]).
    replace (_ <? n) with false; [reflexivity|].
    symmetry. apply Z.ltb_ge. change ((2 ^ 63 - 1) / 16) with (2 ^ 59 - 1). lia. }
  change (2 ^ 58) with 288230376151711744 in Hlen.
  rewrite Hres, strings_of_Str;
    [|change (2 ^ 59) with 576460752303423488;
      destruct roundtrip; cbn [List.length] in *; lia].
  cbn [and_then]. destruct roundtrip; [reflexivity|].
  destruct (exists_last (l := s :: names)) as (l & x & E); [discriminate|].
  rewrite E. destruct (way_back l x) as (H1 & H2 & H3 & H4).
  exists ((l ++ [x]) ++ List.tl (List.rev (l ++ [x]))).
  split.
  - unfold insert_way_back. destruct (l ++ [x]) eqn:El; [|reflexivity].
    now destruct l.
  - split; [reflexivity|]. split; [exact H2|]. split; [exact H3|].
    now rewrite List.last_last.
Qed.

Lemma BusDescription_stops_witness :
  let dict := [("is_roundtrip"%string, Bool false); ("name"%string, Str "14");
               ("stops"%string, Arr [Str "A"; Str "B"; Str "C"])] in
  BusDescription_of dict
  = Returns {| name := "14"; stops := ["A"; "B"; "C"; "B"; "A"]%string;
               is_roundtrip := false |}.
Proof.
  intros dict.
  destruct (BusDescription_stops dict "14" ["A"; "B"; "C"]%string false
              eq_refl eq_refl eq_refl ltac:(reflexivity))
    as (route & H & -> & _).
  exact H.
Defined.

Lemma AsDouble_defined (n : Node) : AsDouble n <> Undefined.
Proof. destruct n; discriminate. Qed.

Lemma AsInt_defined (n : Node) : AsInt n <> Undefined.
Proof. destruct n; discriminate. Qed.

Lemma double_at_defined (key : string) (settings : DictT) :
  double_at key settings <> Undefined.
Proof.
  unfold double_at, at_. destruct (Map.find key settings); [|discriminate].
  apply AsDouble_defined.
Qed.

Lemma int_at_defined (key : string) (settings : DictT) :
  int_at key settings <> Undefined.
Proof.
  unfold int_at, at_. destruct (Map.find key settings); [|discriminate].
  apply AsInt_defined.
Qed.

Lemma GetColorFromNode_defined (node : Node) : GetColorFromNode node <> Undefined.
Proof.
  destruct node as [ |a|d|b|i|x|s]; try discriminate.
  destruct a as [|n0 [|n1 [|n2 [|n3 [|n4 a]]]]]; try discriminate; cbn.
  - destruct n0; try discriminate. destruct n1; try discriminate.
    destruct n2; discriminate.
  - destruct n0; try discriminate. destruct n1; try discriminate.
    destruct n2; try discriminate. destruct n3; discriminate.
Qed.

Lemma colors_of_defined (l : list Node) : colors_of l <> Undefined.
Proof.
  induction l as [|n l IH]; [discriminate|]. cbn.
  pose proof (GetColorFromNode_defined n).
  destruct (GetColorFromNode n); cbn; try congruence.
  destruct (colors_of l); cbn; congruence.
Qed.

Lemma point_at_undefined (key : string) (settings : DictT) :
  point_at key settings = Undefined
  <-> exists a,
        Map.find key settings = Some (Arr a)
        /\ (a = [] \/ exists n, a = [n] /\ IsDouble n = true).
Proof.
  unfold point_at, at_. split.
  - destruct (Map.find key settings) as [n|]; [|discriminate].
    destruct n as [ |a| | | | | ]; try discriminate. cbn.
    destruct a as [|a0 [|a1 a]]; cbn.
    + intros _. exists []. split; [reflexivity | now left].
    + intros H. exists [a0]. split; [reflexivity | right].
      exists a0. split; [reflexivity|]. destruct a0; try discriminate; reflexivity.
    + destruct a0; try discriminate; destruct a1; discriminate.
  - intros (a & -> & [-> | (n & -> & Hn)]); [reflexivity|].
    destruct n; try discriminate; reflexivity.
Qed.

(** X15: the only undefined behaviour of [ParseRenderSettings] is in the
    two offsets, whose items are read through [operator[]] with no test of
    the length: an offset is undefined exactly when its array is empty or
    holds a single number.  With the settings in front of it readable, a
    short [bus_label_offset] makes the whole call undefined. *)
Theorem offsets_need_two_items (settings : DictT) :
  (ParseRenderSettings settings = Undefined ->
   exists key a,
     (key = "bus_label_offset"%string \/ key = "stop_label_offset"%string)
     /\ Map.find key settings = Some (Arr a)
     /\ (a = [] \/ exists n, a = [n] /\ IsDouble n = true))
  /\ (forall w h p lw sr bfs a,
        double_at "width" settings = Returns w ->
        double_at "height" settings = Returns h ->
        double_at "padding" settings = Returns p ->
        double_at "line_width" settings = Returns lw ->
        double_at "stop_radius" settings = Returns sr ->
        int_at "bus_label_font_size" settings = Returns bfs ->
        Map.find "bus_label_offset" settings = Some (Arr a) ->
        a = [] \/ (exists n, a = [n] /\ IsDouble n = true) ->
        ParseRenderSettings settings = Undefined).
Proof.
  split.
  - unfold ParseRenderSettings.
    repeat match goal with
    | |- and_then (double_at ?k settings) _ = Undefined -> _ =>
        pose proof (double_at_defined k settings);
        destruct (double_at k settings); cbn [and_then]; try congruence
    | |- and_then (int_at ?k settings) _ = Undefined -> _ =>
        pose proof (int_at_defined k settings);
        destruct (int_at k settings); cbn [and_then]; try congruence
    end.
    destruct (point_at "bus_label_offset" settings) eqn:E1; cbn [and_then];
      try discriminate.
    + repeat match goal with
      | |- and_then (int_at ?k settings) _ = Undefined -> _ =>
          pose proof (int_at_defined k settings);
          destruct (int_at k settings); cbn [and_then]; try congruence
      end.
      destruct (point_at "stop_label_offset" settings) eqn:E2; cbn [and_then];
        try discriminate.
      * unfold at_. destruct (Map.find "underlayer_color" settings) as [n|];
          cbn [and_then]; [|discriminate].
        pose proof (GetColorFromNode_defined n).
        destruct (GetColorFromNode n); cbn [and_then]; try congruence.
        repeat match goal with
        | |- and_then (double_at ?k settings) _ = Undefined -> _ =>
            pose proof (double_at_defined k settings);
            destruct (double_at k settings); cbn [and_then]; try congruence
        end.
        destruct (Map.find "color_palette" settings) as [n'|];
          cbn [and_then]; [|discriminate].
        destruct n' as [ |palette| | | | | ]; cbn [and_then AsArray]; try discriminate.
        pose proof (colors_of_defined palette).
        destruct (colors_of palette); cbn [and_then]; congruence.
      * intros _. apply point_at_undefined in E2. destruct E2 as (a' & Hf & Ha).
        exists "stop_label_offset"%string, a'. split; [now right|]. now split.
    + intros _. apply point_at_undefined in E1. destruct E1 as (a' & Hf & Ha).
      exists "bus_label_offset"%string, a'. split; [now left|]. now split.
  - intros w h p lw sr bfs a H1 H2 H3 H4 H5 H6 Hf Ha.
    unfold ParseRenderSettings. rewrite H1, H2, H3, H4, H5, H6. cbn [and_then].
    rewrite (proj2 (point_at_undefined "bus_label_offset" settings)); [reflexivity|].
    now exists a.
Qed.

Lemma offsets_need_two_items_witness :
  ParseRenderSettings
    [("bus_label_font_size"%string, Int 20); ("bus_label_offset"%string, Arr [Int 7]);
     ("height"%string, Int 200); ("line_width"%string, Int 14);
     ("padding"%string, Int 30); ("stop_radius"%string, Int 5);
     ("width"%string, Int 200)]
  = Undefined.
Proof.
  eapply (proj2 (offsets_need_two_items _)); try reflexivity.
  right. exists (Int 7). split; reflexivity.
Defined.

End Requests.

(** ** Text inside an SVG element *)

Section SvgText.
Import Svg Texts.

Lemma occurs_append (c : ascii) (a b : string) :
  occurs c (a ++ b) = occurs c a || occurs c b.
Proof.
  induction a as [|x a IH]; [reflexivity|]. cbn. rewrite IH. apply orb_assoc.
Qed.

Ltac escape_cases c :=
  destruct (Ascii.eqb_spec c QUOTE) as [-> | ?];
  [|destruct (Ascii.eqb_spec c "'") as [-> | ?];
    [|destruct (Ascii.eqb_spec c "<") as [-> | ?];
      [|destruct (Ascii.eqb_spec c ">") as [-> | ?];
        [|destruct (Ascii.eqb_spec c "&") as [-> | ?]]]]].

(** X16: [EscapeText] leaves no quote, apostrophe or angle bracket in the
    text, and loses nothing: two texts with the same escaped form are the
    same text. *)
Theorem EscapeText_is_safe (text : string) :
  occurs QUOTE (EscapeText text) = false
  /\ occurs "'" (EscapeText text) = false
  /\ occurs "<" (EscapeText text) = false
  /\ occurs ">" (EscapeText text) = false
  /\ forall other, EscapeText text = EscapeText other -> text = other.
Proof.
  assert (H : forall c : ascii,
             c = QUOTE \/ c = "'"%char \/ c = "<"%char \/ c = ">"%char ->
             occurs c (EscapeText text) = false).
  { intros c Hc. induction text as [|x text IH]; [reflexivity|].
    cbn [EscapeText]. rewrite occurs_append, IH, orb_false_r.
    escape_cases x; try (destruct Hc as [-> | [-> | [-> | ->]]]; reflexivity).
    cbn. rewrite orb_false_r. apply Ascii.eqb_neq.
    destruct Hc as [-> | [-> | [-> | ->]]]; assumption. }
  repeat (split; [apply H; auto|]).
  clear H. induction text as [|c text IH]; intros [|d other].
  - reflexivity.
  - cbn [EscapeText]. escape_cases d; discriminate.
  - cbn [EscapeText]. escape_cases c; discriminate.
  - cbn [EscapeText].
    escape_cases c; escape_cases d; cbn [append chr];
      intros E; injection E; intros; subst;
      try congruence; f_equal; now apply IH.
Qed.

Lemma EscapeText_is_safe_witness :
  occurs "<" (EscapeText "a<b") = false /\ EscapeText "a<b" = "a&lt;b".
Proof.
  split; [apply (EscapeText_is_safe "a<b") | reflexivity].
Defined.

End SvgText.

(** ** Answers to the requests for statistics *)

Section Answers.
Import Access Builder Calls Output.
#[local] Open Scope list_scope.

Variables Stop Bus : Type.
Variable FindStop : string -> option Stop.
Variable GetStopInfo : Stop -> list string.
Variable FindBus : string -> option Bus.
Variable GetBusInfo : Bus -> BusInfo.
Variable map : string.

(** X17: for a request with an int [id] and a string [name], the chains
    of builder calls in [LoadStopNode], [LoadBusNode] and [LoadMapNode]
    never throw, and each answer is a dictionary whose entries stand in the
    order of their keys, whatever the order of the [Key] calls: the
    request id comes behind the buses, the curvature and the error message
    and in front of the map and the route length. *)
Theorem answers_are_dictionaries_in_key_order (stat_info : DictT) (id : Z)
    (name : string) :
  Map.find "id" stat_info = Some (Int id) ->
  Map.find "name" stat_info = Some (Str name) ->
  LoadStopNode FindStop GetStopInfo stat_info
  = Returns
      match FindStop name with
      | None => Dict [("error_message"%string, Str "not found");
                      ("request_id"%string, Int id)]
      | Some stop => Dict [("buses"%string, Arr (List.map Str (GetStopInfo stop)));
                           ("request_id"%string, Int id)]
      end
  /\ LoadBusNode FindBus GetBusInfo stat_info
     = Returns
         match FindBus name with
         | None => Dict [("error_message"%string, Str "not found");
                         ("request_id"%string, Int id)]
         | Some bus =>
             Dict [("curvature"%string, Double (curvature (GetBusInfo bus)));
                   ("request_id"%string, Int id);
                   ("route_length"%string, Int (length (GetBusInfo bus)));
                   ("stop_count"%string, Int (stops (GetBusInfo bus)));
                   ("unique_stop_count"%string, Int (unique_stops (GetBusInfo bus)))]
         end
  /\ LoadMapNode map stat_info
     = Returns (Dict [("map"%string, Str map); ("request_id"%string, Int id)]).
Proof.
  intros Hid Hname.
  unfold LoadStopNode, LoadBusNode, LoadMapNode, at_. rewrite Hid, Hname.
  cbn [and_then AsInt AsString].
  change (of_outcome
            (run [CallStartDict; CallKey "request_id"; CallValue (Int id)] create))
    with (Returns {| root_ := Dict [("request_id"%string, Int id)];
                     nodes_stack_ := [ [] ] |}).
  cbn [and_then].
  split; [|split].
  - destruct (FindStop name); reflexivity.
  - destruct (FindBus name); reflexivity.
  - reflexivity.
Qed.

(** The loop of [PrintStat] puts the answers behind the items of the
    array that the builder holds. *)
Lemma PrintStat_loop_answers (stats : list Node) :
  forall acc : list Node,
    PrintStat_loop FindStop GetStopInfo FindBus GetBusInfo map stats
      {| root_ := Arr acc; nodes_stack_ := [ [] ] |}
    = (l <-- answers FindStop GetStopInfo FindBus GetBusInfo map stats ;;
       Returns {| root_ := Arr (acc ++ l); nodes_stack_ := [ [] ] |}).
Proof.
  induction stats as [|stat stats IH]; intros acc.
  - cbn. now rewrite List.app_nil_r.
  - cbn [PrintStat_loop answers]. unfold answer.
    destruct (AsDict stat) as [request| |]; cbn [and_then]; try reflexivity.
    destruct (type_of request) as [type| |] eqn:Et; cbn [and_then]; try reflexivity.
    destruct (String.eqb type "Bus").
    { destruct (LoadBusNode _ _ request) as [node| |]; cbn [and_then]; try reflexivity.
      cbn. rewrite IH.
      destruct (answers _ _ _ _ _ stats); cbn [and_then]; try reflexivity.
      now rewrite <- List.app_assoc. }
    destruct (String.eqb type "Stop").
    { destruct (LoadStopNode _ _ request) as [node| |]; cbn [and_then]; try reflexivity.
      cbn. rewrite IH.
      destruct (answers _ _ _ _ _ stats); cbn [and_then]; try reflexivity.
      now rewrite <- List.app_assoc. }
    destruct (String.eqb type "Map").
    { destruct (LoadMapNode _ request) as [node| |]; cbn [and_then]; try reflexivity.
      cbn. rewrite IH.
      destruct (answers _ _ _ _ _ stats); cbn [and_then]; try reflexivity.
      now rewrite <- List.app_assoc. }
    cbn [and_then]. rewrite IH.
    destruct (answers _ _ _ _ _ stats); reflexivity.
Qed.

(** X18: [PrintStat] returns the array of the answers to the requests of
    type Bus, Stop and Map, in the order of the requests, and passes over
    a request of any other type; it throws what the first failing request
    throws, and the builder calls of its own ([StartArray], a [Value] for
    each answer, [EndArray], [Build]) never throw. *)
Theorem PrintStat_collects_the_answers (stats : list Node) :
  PrintStat FindStop GetStopInfo FindBus GetBusInfo map stats
  = (l <-- answers FindStop GetStopInfo FindBus GetBusInfo map stats ;;
     Returns (Arr l)).
Proof.
  unfold PrintStat. cbn [StartArray AddObject create of_outcome and_then].
  change (of_outcome (StartArray create))
    with (Returns {| root_ := Arr []; nodes_stack_ := [ [] ] |}).
  cbn [and_then]. rewrite PrintStat_loop_answers.
  destruct (answers _ _ _ _ _ stats); reflexivity.
Qed.

End Answers.

Section AnswersExample.
Import Access Output.
#[local] Open Scope list_scope.

(** The answer for a stop that two buses pass *)
Lemma answers_are_dictionaries_in_key_order_witness :
  LoadStopNode (fun name => if String.eqb name "A" then Some tt else None)
    (fun _ : unit => ["14"; "9"]%string)
    [("id"%string, Int 5); ("name"%string, Str "A")]
  = Returns (Dict [("buses"%string, Arr [Str "14"; Str "9"]);
                   ("request_id"%string, Int 5)]).
Proof.
  exact (proj1 (answers_are_dictionaries_in_key_order unit unit
                  (fun name => if String.eqb name "A" then Some tt else None)
                  (fun _ => ["14"; "9"]%string)
                  (fun _ => None)
                  (fun _ => {| stops := 0; unique_stops := 0; length := 0;
                               curvature := S754_zero false |})
                  EmptyString
                  [("id"%string, Int 5); ("name"%string, Str "A")] 5 "A"
                  eq_refl eq_refl)).
Defined.

End AnswersExample.

(** ** Distances between stops *)

Section Distances.
Import Catalogue.
#[local] Open Scope list_scope.

Lemma same_pair_refl (p : StopPtr * StopPtr) : same_pair p p = true.
Proof. unfold same_pair. now rewrite !Nat.eqb_refl. Qed.

Lemma same_pair_eq (p q : StopPtr * StopPtr) : same_pair p q = true -> p = q.
Proof.
  destruct p, q. unfold same_pair. cbn. intros H.
  apply andb_prop in H. destruct H as [H1 H2].
  apply Nat.eqb_eq in H1, H2. congruence.
Qed.

Lemma find_pair_app (p : StopPtr * StopPtr) (m m' : list ((StopPtr * StopPtr) * Z)) :
  find_pair p (m ++ m')
  = match find_pair p m with Some d => Some d | None => find_pair p m' end.
Proof.
  induction m as [|[k v] m IH]; [reflexivity|]. cbn.
  destruct (same_pair p k); [reflexivity | exact IH].
Qed.

Lemma find_insert_pair (p q : StopPtr * StopPtr) (d : Z)
    (m : list ((StopPtr * StopPtr) * Z)) :
  find_pair q (insert_pair p d m)
  = match find_pair q m with
    | Some x => Some x
    | None => if same_pair q p then Some d else None
    end.
Proof.
  unfold insert_pair. destruct (find_pair p m) as [x|] eqn:E.
  - destruct (find_pair q m) eqn:E'; [reflexivity|].
    destruct (same_pair q p) eqn:Es; [|reflexivity].
    apply same_pair_eq in Es. congruence.
  - rewrite find_pair_app. cbn. destruct (find_pair q m); [reflexivity|].
    now destruct (same_pair q p).
Qed.

(** X19: distances between stops.  [SetDistance] fails its assertion
    exactly when one of the stops is unknown.  It never replaces a distance:
    the first one set for a pair of stops in one direction stays.  After a
    distance is set for a pair that had none in either direction,
    [GetDistance] returns it in both directions; a distance set the other
    way round is used only where the direct one is missing, and with an
    unknown stop or with no distance either way the answer is 0. *)
Theorem distances_between_stops (c : TransportCatalogue) (from to : string)
    (distance : Z) :
  (SetDistance c from to distance = None
   <-> FindStop c from = None \/ FindStop c to = None)
  /\ (forall stop1 stop2,
        FindStop c from = Some stop1 -> FindStop c to = Some stop2 ->
        exists c',
          SetDistance c from to distance = Some c'
          /\ stops_ptr_ c' = stops_ptr_ c
          /\ (forall old,
                find_pair (stop1, stop2) (distances_ c) = Some old ->
                c' = c /\ GetDistance c' from to = old)
          /\ (find_pair (stop1, stop2) (distances_ c) = None ->
              GetDistance c' from to = distance
              /\ (find_pair (stop2, stop1) (distances_ c) = None ->
                  GetDistance c' to from = distance)))
  /\ (FindStop c from = None \/ FindStop c to = None -> GetDistance c from to = 0).
Proof.
  split; [|split].
  - unfold SetDistance. destruct (FindStop c from), (FindStop c to); split;
      try discriminate; try (intros [H | H]; discriminate); auto.
  - intros stop1 stop2 H1 H2. unfold SetDistance. rewrite H1, H2.
    eexists. split; [reflexivity|]. split; [reflexivity|]. split.
    + intros old Hold. unfold insert_pair. rewrite Hold. split.
      * now destruct c.
      * unfold GetDistance, FindStop in *. cbn [stops_ptr_ distances_].
        now rewrite H1, H2, Hold.
    + intros Hnone. unfold GetDistance, FindStop in *. cbn [stops_ptr_ distances_].
      rewrite H1, H2. split.
      * now rewrite find_insert_pair, Hnone, same_pair_refl.
      * intros Hback. rewrite !find_insert_pair, Hback, Hnone, same_pair_refl.
        now destruct (same_pair (stop2, stop1) (stop1, stop2)).
  - unfold GetDistance. intros [-> | ->]; [reflexivity|].
    now destruct (FindStop c from).
Qed.

Lemma distances_between_stops_witness :
  let c := {| stops_ptr_ := [("A"%string, 0%nat); ("B"%string, 1%nat)];
              distances_ := [] |} in
  exists c',
    SetDistance c "A" "B" 700 = Some c'
    /\ GetDistance c' "A" "B" = 700 /\ GetDistance c' "B" "A" = 700.
Proof.
  intros c.
  destruct (distances_between_stops c "A" "B" 700) as (_ & H & _).
  destruct (H 0%nat 1%nat eq_refl eq_refl) as (c' & Hs & _ & _ & Hn).
  exists c'. split; [exact Hs|].
  destruct (Hn eq_refl) as [H1 H2]. split; [exact H1 | exact (H2 eq_refl)].
Defined.

End Distances.

(** ** What stands behind a value, and commas in objects *)

Section Leniency.
Import Parser Printer Texts RoundTrip Layout.

(** X20: [Load] reads one value and leaves what follows: behind the
    written form of a value, a comma or a line break and any text after it
    change neither the value returned nor raise an error. *)
Theorem Load_reads_one_value (v : Node) (rest : string) :
  well_formed v = true -> doubles_read_back v = true -> value_end rest = true ->
  Load (Print v ++ rest) = Ok v.
Proof.
  intros Hwf Hdb Hend.
  apply (Load_Ok (String.length (Print v)) _ v rest).
  now apply reads_back_all.
Qed.

Lemma Load_reads_one_value_witness :
  Load ("[" ++ String LF "    1" ++ String LF "], }{ not json")
  = Ok (Arr [Int 1]).
Proof.
  exact (Load_reads_one_value (Arr [Int 1]) ", }{ not json" eq_refl eq_refl eq_refl).
Defined.

(** Commas and white space in front of a turn of the loop of [LoadDict]
    cost fuel and nothing else. *)
Lemma LoadDict_loop_commas (cs : string) :
  commas_and_space cs = true ->
  forall (n : nat) (acc : DictT) (rest : string),
    LoadDict_loop n acc rest <> OutOfFuel ->
    LoadDict_loop (n + String.length cs) acc (cs ++ rest) = LoadDict_loop n acc rest.
Proof.
  induction cs as [|c cs IH]; intros H n acc rest Hn.
  - cbn. now rewrite Nat.add_0_r.
  - cbn [commas_and_space] in H. apply andb_prop in H. destruct H as [Hc Hcs].
    specialize (IH Hcs n acc rest Hn).
    cbn [append String.length]. rewrite Nat.add_succ_r.
    destruct (isspace c) eqn:Es.
    + rewrite <- LoadDict_loop_skip_space. cbn [Num.skip_space]. rewrite Es.
      rewrite LoadDict_loop_skip_space.
      rewrite (proj2 (proj2 (fuel_monotone (n + String.length cs))) acc (cs ++ rest));
        [exact IH | lia | congruence].
    + rewrite orb_false_r in Hc. apply Ascii.eqb_eq in Hc. subst c.
      cbn [LoadDict_loop].
      change (extract (String "," ?x)) with (Some (","%char, x)). cbv iota beta.
      change (Ascii.eqb "," "}") with false. change (Ascii.eqb "," QUOTE) with false.
      change (Ascii.eqb "," ",") with true. cbv iota. cbn [negb]. exact IH.
Qed.

(** The loop of [LoadDict] on entries written without commas *)
Lemma LoadDict_bare_then (ctx : PrintContext) (nodes : list (string * Node)) :
  Forall (fun kv => reads_back (snd kv)) nodes ->
  forallb (fun kv => well_formed (snd kv)) nodes = true ->
  forallb (fun kv => doubles_read_back (snd kv)) nodes = true ->
  forall acc T k r fuel,
    Map.sorted (acc ++ nodes)%list = true ->
    value_end T = true -> (1 <= k)%nat ->
    (forall f, (k <= f)%nat -> LoadDict_loop f (acc ++ nodes)%list T = r) ->
    (String.length (PrintDict_items_bare ctx nodes) + k <= fuel)%nat ->
    LoadDict_loop fuel acc (PrintDict_items_bare ctx nodes ++ T) = r.
Proof.
  induction 1 as [|[key n] ns Hn Hns IH];
    intros Hwf Hdb acc T k r fuel Hsorted HT Hk Hcont Hfuel.
  - cbn [PrintDict_items_bare append String.length] in *.
    rewrite <- (List.app_nil_r acc). apply Hcont. lia.
  - cbn [forallb snd] in Hwf, Hdb. cbn [snd] in Hn.
    apply andb_true_iff in Hwf, Hdb. destruct Hwf as [Hwn Hwns], Hdb as [Hdn Hdns].
    destruct (sorted_app_entry _ _ _ _ Hsorted) as [Hfind Hemplace].
    cbn [PrintDict_items_bare] in *. rewrite !append_assoc in *.
    pose proof (PrintNode_nonempty n (Indented ctx) Hdn) as Hne.
    rewrite !length_append in Hfuel. cbn [String.length chr] in Hfuel.
    assert (Hend : value_end (PrintDict_items_bare ctx ns ++ T) = true).
    { destruct ns as [|[k' n'] ns]; [exact HT | reflexivity]. }
    rewrite <- LoadDict_loop_skip_space.
    change (Num.skip_space (chr LF ++ ?x)) with (Num.skip_space x).
    rewrite LoadDict_loop_skip_space.
    destruct fuel as [|f]; [lia|].
    rewrite LoadDict_loop_entry.
    + rewrite Hemplace. apply (IH Hwns Hdns _ T k r f); auto.
      * now rewrite <- List.app_assoc.
      * intros f' Hf'. rewrite <- List.app_assoc. now apply Hcont.
      * lia.
    + exact Hfind.
    + apply Hn; auto. lia.
Qed.

(** X21: commas are not enforced inside an object.  Where a key or the
    closing brace may stand, any run of commas and white space is passed
    over, so that the text read behind it gives the same value or the same
    error; and the entries of a dictionary written one per line with no
    comma between them are read as the dictionary. *)
Theorem commas_in_objects_are_optional :
  (forall cs rest,
     commas_and_space cs = true ->
     Load ("{" ++ cs ++ rest) = Load ("{" ++ rest))
  /\ (forall ctx entries,
        well_formed (Dict entries) = true ->
        doubles_read_back (Dict entries) = true ->
        Load ("{" ++ PrintDict_items_bare ctx entries ++ chr LF ++ "}")
        = Ok (Dict entries)).
Proof.
  split.
  - intros cs rest Hcs.
    set (n := (2 * String.length ("{" ++ rest) + 1)%nat).
    assert (H1 : LoadNode n ("{" ++ rest) <> OutOfFuel).
    { apply (proj1 (Load_fuel_suffices n)). unfold n. lia. }
    rewrite (Load_LoadNode n ("{" ++ rest) H1).
    assert (En : n = S (2 * String.length rest + 2)) by (unfold n; simpl; lia).
    rewrite En in *. rewrite LoadNode_open_object in H1 |- *.
    rewrite <- (LoadDict_loop_commas cs Hcs _ _ _ H1) in H1 |- *.
    rewrite <- LoadNode_open_object in H1 |- *.
    symmetry. now rewrite <- (Load_LoadNode _ _ H1).
  - intros ctx entries Hwf Hdb.
    rewrite well_formed_Dict in Hwf. apply andb_prop in Hwf. destruct Hwf as [Hso Hwf].
    rewrite doubles_read_back_Dict in Hdb.
    apply (Load_Ok (S (String.length (PrintDict_items_bare ctx entries) + 1))
             _ _ EmptyString).
    rewrite LoadNode_open_object.
    apply (LoadDict_bare_then ctx entries) with (k := 1%nat); auto.
    + apply Forall_forall. intros v _. apply reads_back_all.
    + intros [|f] Hf; [lia|]. reflexivity.
Qed.

Lemma commas_in_objects_are_optional_witness :
  Load (Text.json_text "{,, 'a':1}") = Ok (Dict [("a"%string, Int 1)])
  /\ Load (Text.json_text "{'a': 1 'b': 2}")
     = Ok (Dict [("a"%string, Int 1); ("b"%string, Int 2)]).
Proof.
  destruct commas_in_objects_are_optional as [H1 _].
  split; [|reflexivity].
  exact (eq_trans (H1 ",, " (Text.json_text "'a':1}") eq_refl) eq_refl).
Defined.

End Leniency.

(** ** Numbers that lack digits *)

Section NumberErrors.
Import Parser Texts NumberSpec.

Lemma read_integer_part_forward (p ds x : string) :
  integer_part ds = true -> peek_isdigit x = false ->
  read_integer_part (p, ds ++ x) = Ok (p ++ ds, x).
Proof.
  destruct ds as [|c ds]; [discriminate|]. cbn [integer_part].
  intros H Hx. apply andb_prop in H. destruct H as [H Hz].
  apply andb_prop in H. destruct H as [Hc Hds].
  unfold read_integer_part. cbn [snd append peek_is].
  destruct (Ascii.eqb_spec c "0") as [-> | Hne].
  - cbn in Hz. apply String.eqb_eq in Hz. subst ds. reflexivity.
  - unfold read_digits. cbn [peek_isdigit]. rewrite Hc.
    change (String c (ds ++ x)) with (String c ds ++ x).
    rewrite (frame_read_digits_loop _ _ Hx), read_digits_loop_all.
    + reflexivity.
    + cbn. now rewrite Hc, Hds.
Qed.

Lemma integer_part_head (ds : string) :
  integer_part ds = true ->
  exists c r, ds = String c r /\ isdigit c = true.
Proof.
  destruct ds as [|c r]; [discriminate|]. cbn. intros H.
  apply andb_prop in H. destruct H as [H _]. apply andb_prop in H.
  exists c, r. now split.
Qed.

Lemma read_sign_forward (sg ds x : string) :
  sg = EmptyString \/ sg = "-" -> integer_part ds = true ->
  read_sign (EmptyString, sg ++ ds ++ x) = Ok (sg, ds ++ x).
Proof.
  intros [-> | ->] Hds; [|reflexivity].
  destruct (integer_part_head ds Hds) as (c & r & -> & Hc).
  unfold read_sign. cbn [snd append peek_is].
  destruct (Ascii.eqb_spec c "-") as [-> | _]; [discriminate | reflexivity].
Qed.

(** The scanner of [LoadNumber] behind the integer part *)
Lemma lex_number_forward (sg ds x : string) :
  sg = EmptyString \/ sg = "-" -> integer_part ds = true ->
  peek_isdigit x = false ->
  lex_number (sg ++ ds ++ x)
  = ('(st, is_int) <- read_fraction_part (sg ++ ds, x) ;;
     '(st, is_int) <- read_exponent_part st is_int ;;
     Ok (fst st, is_int, snd st)).
Proof.
  intros Hsg Hds Hx. unfold lex_number.
  rewrite (read_sign_forward sg ds x Hsg Hds). cbn [bind].
  now rewrite (read_integer_part_forward sg ds x Hds Hx).
Qed.

Lemma LoadNode_number_text (sg ds x : string) :
  sg = EmptyString \/ sg = "-" -> integer_part ds = true ->
  LoadNode 1 (sg ++ ds ++ x) = LoadNumber (sg ++ ds ++ x).
Proof.
  intros Hsg Hds. destruct (integer_part_head ds Hds) as (c & r & -> & Hc).
  destruct Hsg as [-> | ->]; cbn [append]; apply LoadNode_number; auto.
Qed.

(** X22: a number needs digits where its grammar has them.  Behind a
    well-formed integer part, a decimal point that no digit follows and an
    exponent mark that no digit follows, with or without a sign, are
    rejected with the error of a missing digit. *)
Theorem number_parts_need_digits (sg ds r : string) :
  sg = EmptyString \/ sg = "-" -> integer_part ds = true ->
  peek_isdigit r = false ->
  Load (sg ++ ds ++ "." ++ r) = Throw "A digit is expected"
  /\ (forall e s,
        e = "e" \/ e = "E" -> s = "+" \/ s = "-" ->
        Load (sg ++ ds ++ e ++ s ++ r) = Throw "A digit is expected")
  /\ (forall e,
        e = "e" \/ e = "E" -> peek_is "+" r = false -> peek_is "-" r = false ->
        Load (sg ++ ds ++ e ++ r) = Throw "A digit is expected").
Proof.
  intros Hsg Hds Hr. split; [|split].
  - apply (Load_Throw 1). rewrite (LoadNode_number_text _ _ _ Hsg Hds).
    unfold LoadNumber. rewrite (lex_number_forward sg ds ("." ++ r) Hsg Hds eq_refl).
    unfold read_fraction_part. cbn [snd peek_is append Ascii.eqb Bool.eqb].
    cbn [read_char bind]. unfold read_digits. now rewrite Hr.
  - intros e s He Hs. apply (Load_Throw 1).
    rewrite (LoadNode_number_text _ _ _ Hsg Hds).
    unfold LoadNumber. rewrite lex_number_forward; auto;
      [|destruct He as [-> | ->]; reflexivity].
    destruct He as [-> | ->], Hs as [-> | ->];
      unfold read_fraction_part, read_exponent_part;
      cbn [snd peek_is append Ascii.eqb Bool.eqb orb read_char bind];
      unfold read_digits; now rewrite Hr.
  - intros e He Hp Hm. apply (Load_Throw 1).
    rewrite (LoadNode_number_text _ _ _ Hsg Hds).
    unfold LoadNumber. rewrite lex_number_forward; auto;
      [|destruct He as [-> | ->]; reflexivity].
    destruct He as [-> | ->];
      unfold read_fraction_part, read_exponent_part;
      cbn [snd peek_is append Ascii.eqb Bool.eqb orb read_char bind];
      rewrite Hp, Hm; cbn [orb bind]; unfold read_digits; now rewrite Hr.
Qed.

Lemma number_parts_need_digits_witness :
  Load "-12.x" = Throw "A digit is expected"
  /\ Load "0e+" = Throw "A digit is expected"
  /\ Load "7E]" = Throw "A digit is expected".
Proof.
  destruct (number_parts_need_digits "-" "12" "x") as (H1 & _ & _);
    [now right | reflexivity | reflexivity |].
  destruct (number_parts_need_digits EmptyString "0" EmptyString) as (_ & H2 & _);
    [now left | reflexivity | reflexivity |].
  destruct (number_parts_need_digits EmptyString "7" "]") as (_ & _ & H3);
    [now left | reflexivity | reflexivity |].
  split; [exact H1|]. split.
  - apply (H2 "e" "+"); [now left | now left].
  - apply (H3 "E"); [now right | reflexivity | reflexivity].
Defined.

End NumberErrors.

(** ** The text that the reader leaves *)

Section Consumption.
Import Parser Texts.

Lemma left_of_refl (x : string) : left_of x x.
Proof. now exists EmptyString. Qed.

Lemma left_of_trans (a b c : string) : left_of a b -> left_of b c -> left_of a c.
Proof.
  intros [x ->] [y ->]. exists (y ++ x). now rewrite append_assoc.
Qed.

Lemma left_of_cons (c : ascii) (x : string) : left_of x (String c x).
Proof. now exists (chr c). Qed.

Lemma left_of_skip_space (x : string) : left_of (Num.skip_space x) x.
Proof.
  induction x as [|c x IH]; [apply left_of_refl|]. cbn.
  destruct (isspace c); [|apply left_of_refl].
  apply (left_of_trans _ x); [exact IH | apply left_of_cons].
Qed.

Lemma left_of_extract (input : string) (c : ascii) (input' : string) :
  extract input = Some (c, input') ->
  left_of (String c input') input /\ left_of input' input.
Proof.
  intros H. apply extract_skip in H.
  pose proof (left_of_skip_space input) as Hl. rewrite H in Hl.
  split; [exact Hl|]. apply (left_of_trans _ (String c input')); [apply left_of_cons | exact Hl].
Qed.

Lemma left_of_LoadString_le (n : nat) :
  forall it acc v rest,
    (String.length it <= n)%nat ->
    LoadString_loop acc it = Ok (v, rest) -> left_of rest it.
Proof.
  induction n as [|n IH]; intros it acc v rest Hlen.
  - destruct it; [discriminate | simpl in Hlen; lia].
  - destruct it as [|ch it]; [discriminate|].
    simpl in Hlen. cbn [LoadString_loop].
    destruct (Ascii.eqb ch QUOTE); [intros [= _ <-]; apply left_of_cons|].
    destruct (Ascii.eqb ch BACKSLASH).
    + destruct it as [|e it]; [discriminate|]. simpl in Hlen.
      repeat match goal with
      | |- context [if ?b then _ else _] => destruct b
      end; try discriminate;
        (intros H; apply (IH it _ _ _ ltac:(lia)) in H;
         apply (left_of_trans _ it); [exact H|];
         apply (left_of_trans _ (String e it)); apply left_of_cons).
    + destruct (_ || _); [discriminate|].
      intros H. apply (IH it _ _ _ ltac:(lia)) in H.
      apply (left_of_trans _ it); [exact H | apply left_of_cons].
Qed.

Lemma left_of_LoadLiteral (x s r : string) :
  LoadLiteral x = (s, r) -> left_of r x.
Proof. intros H. destruct (LoadLiteral_split _ _ _ H) as [-> _]. now exists s. Qed.

Lemma left_of_LoadNumber (input : string) (v : Node) (rest : string) :
  LoadNumber input = Ok (v, rest) -> left_of rest input.
Proof.
  unfold LoadNumber.
  destruct (lex_number input) as [[[text b] r]| |] eqn:E; cbn [bind]; try discriminate.
  destruct (convert_number text b); cbn [bind]; try discriminate.
  intros [= _ <-]. destruct (lex_number_shape _ _ _ _ E) as [-> _]. now exists text.
Qed.

Lemma left_of_Load (fuel : nat) :
  (forall input v rest, LoadNode fuel input = Ok (v, rest) -> left_of rest input)
  /\ (forall acc input v rest,
        LoadArray_loop fuel acc input = Ok (v, rest) -> left_of rest input)
  /\ (forall acc input v rest,
        LoadDict_loop fuel acc input = Ok (v, rest) -> left_of rest input).
Proof.
  induction fuel as [|f (IHn & IHa & IHd)]; [repeat split; discriminate|].
  split; [|split].
  - intros input v rest. cbn [LoadNode].
    destruct (extract input) as [[c input']|] eqn:E; [|discriminate].
    destruct (left_of_extract _ _ _ E) as [Hc Hi]. unfold putback.
    repeat match goal with
    | |- context [if ?b then _ else _] => destruct b
    end; intros H.
    + apply IHa in H. now apply (left_of_trans _ input').
    + apply IHd in H. now apply (left_of_trans _ input').
    + apply (left_of_LoadString_le _ _ _ _ _ (le_n _)) in H.
      now apply (left_of_trans _ input').
    + unfold LoadBool in H. destruct (LoadLiteral _) as [s r] eqn:El.
      apply left_of_LoadLiteral in El.
      repeat match type of H with
      | (if ?b then _ else _) = _ => destruct b
      end; try discriminate; injection H as _ <-;
        now apply (left_of_trans _ (String c input')).
    + unfold LoadNull in H. destruct (LoadLiteral _) as [s r] eqn:El.
      apply left_of_LoadLiteral in El.
      destruct (String.eqb s "null"); try discriminate. injection H as _ <-.
      now apply (left_of_trans _ (String c input')).
    + apply left_of_LoadNumber in H. now apply (left_of_trans _ (String c input')).
  - intros acc input v rest. cbn [LoadArray_loop].
    destruct (extract input) as [[c input']|] eqn:E; [|discriminate].
    destruct (left_of_extract _ _ _ E) as [Hc Hi].
    destruct (Ascii.eqb c "]"); [intros [= _ <-]; exact Hi|].
    destruct (LoadNode f _) as [[node r1]| |] eqn:E1; cbn [bind]; try discriminate.
    apply IHn in E1. intros H. apply IHa in H.
    apply (left_of_trans _ r1); [exact H|].
    destruct (Ascii.eqb c ","); unfold putback in E1;
      [now apply (left_of_trans _ input') | now apply (left_of_trans _ (String c input'))].
  - intros acc input v rest. cbn [LoadDict_loop].
    destruct (extract input) as [[c input']|] eqn:E; [|discriminate].
    destruct (left_of_extract _ _ _ E) as [Hc Hi].
    destruct (Ascii.eqb c "}"); [intros [= _ <-]; exact Hi|].
    destruct (Ascii.eqb c QUOTE).
    + destruct (LoadString input') as [[k input1]| |] eqn:E1; cbn [bind];
        try discriminate.
      apply (left_of_LoadString_le _ _ _ _ _ (le_n _)) in E1.
      destruct (extract input1) as [[c' input2]|] eqn:E2; [|discriminate].
      destruct (left_of_extract _ _ _ E2) as [_ Hi2].
      destruct (Ascii.eqb c' ":"); [|discriminate].
      destruct (Map.find _ acc); [discriminate|].
      destruct (LoadNode f input2) as [[node r1]| |] eqn:E3; cbn [bind];
        try discriminate.
      apply IHn in E3. intros H. apply IHd in H.
      apply (left_of_trans _ r1); [exact H|].
      apply (left_of_trans _ input2); [exact E3|].
      apply (left_of_trans _ input1); [exact Hi2|].
      now apply (left_of_trans _ input').
    + destruct (negb _); [discriminate|]. intros H. apply IHd in H.
      now apply (left_of_trans _ input').
Qed.

(** X23: when [LoadNode] returns a value, the stream it leaves is the
    input without a text in front that is not empty: the reader moves
    forward by at least one character, never back, and the text it has not
    read is left as it was. *)
Theorem reader_consumes_a_prefix (fuel : nat) (input : string) (v : Node)
    (rest : string) :
  LoadNode fuel input = Ok (v, rest) ->
  exists consumed, input = consumed ++ rest /\ consumed <> EmptyString.
Proof.
  intros H.
  destruct (proj1 (left_of_Load fuel) _ _ _ H) as [consumed ->].
  exists consumed. split; [reflexivity|]. intros ->.
  apply (proj1 (Load_consumes fuel)) in H. cbn in H. lia.
Qed.

Lemma reader_consumes_a_prefix_witness :
  exists consumed,
    " [1, 2] tail" = consumed ++ " tail" /\ consumed <> EmptyString.
Proof.
  exact (reader_consumes_a_prefix 5 " [1, 2] tail" (Arr [Int 1; Int 2]) " tail" eq_refl).
Defined.

End Consumption.

(** ** Strings as they are written *)

Section StringsWritten.
Import Parser Printer Texts.

Lemma occurs_escape (c : ascii) (value : string) :
  c = LF \/ c = CR \/ c = TAB -> occurs c (escape value) = false.
Proof.
  intros Hc. induction value as [|x value IH]; [reflexivity|].
  cbn [escape]. rewrite occurs_append, IH, orb_false_r.
  destruct (Ascii.eqb_spec x CR) as [-> | H1];
    [destruct Hc as [-> | [-> | ->]]; reflexivity|].
  destruct (Ascii.eqb_spec x LF) as [-> | H2];
    [destruct Hc as [-> | [-> | ->]]; reflexivity|].
  destruct (Ascii.eqb_spec x TAB) as [-> | H3];
    [destruct Hc as [-> | [-> | ->]]; reflexivity|].
  destruct (Ascii.eqb x QUOTE || Ascii.eqb x BACKSLASH) eqn:E.
  - apply orb_true_iff in E. destruct E as [E | E]; apply Ascii.eqb_eq in E; subst x;
      destruct Hc as [-> | [-> | ->]]; reflexivity.
  - cbn. rewrite orb_false_r. apply Ascii.eqb_neq.
    destruct Hc as [-> | [-> | ->]]; assumption.
Qed.

(** X24: the written form of a string stands on one line: no line feed,
    carriage return or tab occurs in it, whatever the string holds; and
    two strings with the same written form are the same string. *)
Theorem PrintString_is_one_line (value : string) :
  occurs LF (PrintString value) = false
  /\ occurs CR (PrintString value) = false
  /\ occurs TAB (PrintString value) = false
  /\ forall other, PrintString value = PrintString other -> value = other.
Proof.
  assert (H : forall c, c = LF \/ c = CR \/ c = TAB ->
                        occurs c (PrintString value) = false).
  { intros c Hc. unfold PrintString. rewrite !occurs_append, (occurs_escape c value Hc).
    destruct Hc as [-> | [-> | ->]]; reflexivity. }
  repeat (split; [apply H; auto|]).
  intros other E. unfold PrintString in E.
  pose proof (LoadString_PrintString value EmptyString) as H1.
  pose proof (LoadString_PrintString other EmptyString) as H2.
  unfold chr in E, H1, H2. cbn [append] in E, H1, H2. injection E as E.
  rewrite E in H1. congruence.
Qed.

Lemma PrintString_is_one_line_witness :
  occurs LF (PrintString (String "a" (String LF "b"))) = false
  /\ PrintString (String "a" (String LF "b")) = chr QUOTE ++ "a\nb" ++ chr QUOTE.
Proof.
  split; [apply (PrintString_is_one_line (String "a" (String LF "b"))) | reflexivity].
Defined.

End StringsWritten.

(** ** The maps of a tree under construction *)

Section BuilderMaps.
Import Builder Calls Chains RoundTrip.
#[local] Open Scope list_scope.

Lemma well_formed_deref (p : pointer) :
  forall root x,
    well_formed root = true -> deref root p = Some x -> well_formed x = true.
Proof.
  induction p as [|s p IH]; intros root x Hwf; cbn [deref].
  - now intros [= <-].
  - destruct s as [i|key], root; try discriminate.
    + destruct (nth_error a i) as [n|] eqn:E; [|discriminate].
      apply IH. cbn [well_formed] in Hwf.
      apply (proj1 (forallb_forall _ _) Hwf). now apply nth_error_In with i.
    + destruct (Map.find key d) as [n|] eqn:E; [|discriminate].
      apply IH. rewrite well_formed_Dict in Hwf. apply andb_prop in Hwf.
      destruct Hwf as [_ Hwf].
      assert (Hin : In (key, n) d).
      { clear -E. induction d as [|[k w] d IHd]; [discriminate|]. cbn in E.
        destruct (String.eqb_spec key k) as [-> | _].
        - injection E as ->. now left.
        - right. now apply IHd. }
      apply (proj1 (forallb_forall _ _) Hwf (key, n) Hin).
Qed.

Lemma forallb_set_nth (Q : Node -> bool) (f : Node -> Node) (a : list Node) (i : nat) :
  (forall n, Q n = true -> Q (f n) = true) ->
  forallb Q a = true -> forallb Q (set_nth a i f) = true.
Proof.
  intros Hf. revert i. induction a as [|x a IH]; intros [|i]; cbn; auto;
    intros H; apply andb_prop in H; destruct H as [H1 H2]; apply andb_true_intro;
    split; auto.
Qed.

Lemma forallb_map_at_keys (Q : string -> bool) (key : string) (f : Node -> Node)
    (d : DictT) :
  forallb (fun kv => Q (fst kv)) (map_at key f d) = forallb (fun kv => Q (fst kv)) d.
Proof.
  induction d as [|[k w] d IH]; [reflexivity|]. cbn.
  destruct (String.eqb key k); cbn; [reflexivity | now rewrite IH].
Qed.

Lemma sorted_map_at (key : string) (f : Node -> Node) (d : DictT) :
  Map.sorted (map_at key f d) = Map.sorted d.
Proof.
  induction d as [|[k w] d IH]; [reflexivity|]. cbn [map_at].
  destruct (String.eqb key k); cbn [Map.sorted]; [reflexivity|].
  now rewrite IH, (forallb_map_at_keys (String.ltb k)).
Qed.

Lemma forallb_map_at (Q : Node -> bool) (key : string) (f : Node -> Node) (d : DictT) :
  (forall n, Q n = true -> Q (f n) = true) ->
  forallb (fun kv => Q (snd kv)) d = true ->
  forallb (fun kv => Q (snd kv)) (map_at key f d) = true.
Proof.
  intros Hf. induction d as [|[k w] d IH]; [reflexivity|]. cbn.
  intros H. apply andb_prop in H. destruct H as [H1 H2].
  destruct (String.eqb key k); cbn; apply andb_true_intro; split; auto.
Qed.

Lemma well_formed_store (p : pointer) :
  forall root v,
    well_formed root = true -> well_formed v = true ->
    well_formed (store root p v) = true.
Proof.
  induction p as [|s p IH]; intros root v Hr Hv; cbn [store]; [exact Hv|].
  destruct s as [i|key], root; try exact Hr.
  - cbn [well_formed] in *. apply forallb_set_nth; [|exact Hr].
    intros n Hn. now apply IH.
  - rewrite well_formed_Dict in *. apply andb_prop in Hr. destruct Hr as [Hs Hw].
    rewrite sorted_map_at, Hs. cbn [andb].
    apply forallb_map_at; [|exact Hw]. intros n Hn. now apply IH.
Qed.

Lemma well_formed_subscript (key : string) (d : DictT) :
  well_formed (Dict d) = true -> well_formed (Dict (Map.subscript key d)) = true.
Proof.
  unfold Map.subscript, Map.emplace.
  destruct (Map.find key d) eqn:E; [auto|].
  rewrite !well_formed_Dict. intros H. apply andb_prop in H. destruct H as [Hs Hw].
  rewrite (sorted_insert_sorted _ _ _ Hs E), forallb_insert_sorted, Hw. reflexivity.
Qed.

Lemma well_formed_snoc (a : list Node) (v : Node) :
  well_formed (Arr a) = true -> well_formed v = true ->
  well_formed (Arr (a ++ [v])) = true.
Proof.
  cbn [well_formed]. intros Ha Hv. rewrite forallb_app, Ha. cbn. now rewrite Hv.
Qed.

Lemma well_formed_perform (c : call) (b b' : Builder) :
  passes_value c = true -> well_formed (root_ b) = true ->
  perform c b = Done b' -> well_formed (root_ b') = true.
Proof.
  intros Hc Hwf. destruct c; cbn [perform passes_value] in *;
    unfold Key, Value, StartDict, EndDict, StartArray, EndArray, AddObject;
    destruct (GetCurValue b) as [[p x]| |] eqn:E; try discriminate;
    destruct (GetCurValue_inv _ _ _ E) as [_ Hd];
    pose proof (well_formed_deref _ _ _ Hwf Hd) as Hx;
    destruct x; try discriminate; intros [= <-]; cbn [root_];
    try exact Hwf;
    apply well_formed_store; auto;
    try (apply well_formed_snoc; auto).
  now apply well_formed_subscript.
Qed.

(** X25: the tree under construction always has its dictionaries in
    strictly increasing key order, so that none holds a name twice: after
    any chain of calls on a fresh builder that has not thrown, with values
    of the C++ type handed to [Value], the root is a value of the C++ type,
    in whatever order the keys were given. *)
Theorem builder_keeps_maps_in_order (calls : list call) (b : Builder) :
  forallb passes_value calls = true ->
  run calls create = Done b ->
  well_formed (root_ b) = true.
Proof.
  assert (H : forall b0, well_formed (root_ b0) = true ->
                         forallb passes_value calls = true ->
                         run calls b0 = Done b -> well_formed (root_ b) = true).
  { induction calls as [|c calls IH]; intros b0 Hwf Hc; cbn [run].
    - now intros [= <-].
    - cbn [forallb] in Hc. apply andb_prop in Hc. destruct Hc as [Hc Hcs].
      destruct (perform c b0) as [b1| |] eqn:E; cbn [andThen]; try discriminate.
      apply (IH b1); [|exact Hcs]. now apply (well_formed_perform c b0). }
  apply H. reflexivity.
Qed.

Lemma builder_keeps_maps_in_order_witness :
  run [CallStartDict; CallKey "z"; CallValue (Int 1); CallKey "a"; CallValue Null;
       CallKey "m"; CallStartArray] create
  = Done {| root_ := Dict [("a"%string, Null); ("m"%string, Arr []);
                           ("z"%string, Int 1)];
            nodes_stack_ := [ []; [AtKey "m"] ] |}
  /\ well_formed (Dict [("a"%string, Null); ("m"%string, Arr []);
                        ("z"%string, Int 1)]) = true.
Proof.
  split; [reflexivity|].
  exact (builder_keeps_maps_in_order
           [CallStartDict; CallKey "z"; CallValue (Int 1); CallKey "a";
            CallValue Null; CallKey "m"; CallStartArray] _ eq_refl eq_refl).
Defined.

End BuilderMaps.
